(** * Resumind: the AI-feedback ingestion core

    A shallow embedding of
    - [src/app/lib/json-validator.ts]: [validateFeedbackStructure],
      [repairJSON], [createFallbackFeedback], [parseAIFeedback];
    - the review page's [loadResume] (the Review Session Controller),
      its effect and what it renders;
    - [loadPdfJs] and [convertPdfToImage] (the Document Rasterizer);
    - [src/app/lib/puter.ts]: [safeApiCall], [checkAuthStatus], [init]
      and the script [clearBrowserData];
    - [src/app/components/AdminActions.tsx]: [clearAllResumeData] and
      [clearBrowserStorageOnly];
    together with the parts of the JavaScript runtime they call
    ([String.prototype] methods, regular expressions, [JSON.parse]). *)

From Stdlib Require Import String Ascii.
From Stdlib Require Import List NArith ZArith Bool Lia.
Import ListNotations.
Local Open Scope list_scope.
Set Warnings "-register-all".

(* ================================================================== *)
(** * JavaScript strings *)
(* ================================================================== *)

Module JsString.

(** A JavaScript string is a sequence of UTF-16 code units. *)
Definition code_unit := N.
Definition jsstring := list code_unit.

(** A string literal of the source, given in ASCII. *)
Definition lit (s : string) : jsstring :=
  map N_of_ascii (list_ascii_of_string s).

(** The same, for literals that hold double quotes: an apostrophe of the
    argument stands for a double quote (code unit 34). *)
Definition quoted (s : string) : jsstring :=
  map (fun c => if N.eqb c 39 then 34%N else c) (lit s).

Fixpoint str_eqb (a b : jsstring) : bool :=
  match a, b with
  | [], [] => true
  | x :: a', y :: b' => N.eqb x y && str_eqb a' b'
  | _, _ => false
  end.

(** [WhiteSpace] and [LineTerminator] of ECMAScript: what [trim] removes
    and what [\s] matches. *)
Definition is_space (c : code_unit) : bool :=
  ((9 <=? c) && (c <=? 13) || (c =? 32) || (c =? 160) || (c =? 5760)
   || (8192 <=? c) && (c <=? 8202) || (c =? 8232) || (c =? 8233)
   || (c =? 8239) || (c =? 8287) || (c =? 12288) || (c =? 65279))%N.

Fixpoint trimStart (s : jsstring) : jsstring :=
  match s with
  | c :: s' => if is_space c then trimStart s' else s
  | [] => []
  end.

Definition trimEnd (s : jsstring) : jsstring := rev (trimStart (rev s)).

(** [s.trim()] *)
Definition trim (s : jsstring) : jsstring := trimEnd (trimStart s).

(** [s.startsWith(p)] *)
Fixpoint startsWith (p s : jsstring) : bool :=
  match p, s with
  | [], _ => true
  | x :: p', y :: s' => N.eqb x y && startsWith p' s'
  | _ :: _, [] => false
  end.

(** [s.endsWith(p)] *)
Definition endsWith (p s : jsstring) : bool := startsWith (rev p) (rev s).

(** [s.includes(p)] *)
Fixpoint includes (p s : jsstring) : bool :=
  startsWith p s || match s with [] => false | _ :: s' => includes p s' end.

(** [s.indexOf(c)] for a one-character needle: [-1] when absent. *)
Fixpoint indexOf (c : code_unit) (s : jsstring) : Z :=
  match s with
  | [] => -1
  | x :: s' =>
      if N.eqb x c then 0
      else let i := indexOf c s' in if (i <? 0)%Z then -1 else (i + 1)%Z
  end.

(** [s.lastIndexOf(c)] for a one-character needle: [-1] when absent. *)
Fixpoint lastIndexOf (c : code_unit) (s : jsstring) : Z :=
  match s with
  | [] => -1
  | x :: s' =>
      let i := lastIndexOf c s' in
      if (0 <=? i)%Z then (i + 1)%Z else if N.eqb x c then 0 else -1
  end.

(** [s.substring(from)] and [s.substring(0, to)], for indices that are
    not negative (the source calls them under such guards). *)
Definition substring_from (from : Z) (s : jsstring) : jsstring :=
  skipn (Z.to_nat from) s.
Definition substring_to (to : Z) (s : jsstring) : jsstring :=
  firstn (Z.to_nat to) s.

(** [s.toLowerCase()] on the letters A to Z; other code units are kept
    (the program compares the result with [.pdf] only, and no other
    character becomes one of these four). *)
Definition lower (c : code_unit) : code_unit :=
  if ((65 <=? c) && (c <=? 90))%N then (c + 32)%N else c.
Definition toLowerCase (s : jsstring) : jsstring := map lower s.

End JsString.
Import JsString.

(* ================================================================== *)
(** * JavaScript values of the JSON value tree *)
(* ================================================================== *)

Module JsValue.

(** A number, kept as the exact decimal [(-1)^negative * coefficient *
    10^exponent] that its literal denotes. The runtime rounds it to the
    nearest binary64; no function below does arithmetic on numbers, they
    are only tested with [typeof] and for being zero. *)
Record number := mkNumber
  { negative : bool; coefficient : N; exponent : Z }.

(** The decimal is [+0] or [-0] once rounded to the nearest binary64
    (ties to even): it is zero, or at most [2^-1075], half of the least
    positive binary64. *)
Definition rounds_to_zero (n : number) : bool :=
  (coefficient n =? 0)%N
  || ((exponent n <? 0)%Z
      && (Z.of_N (coefficient n) * 2 ^ 1075 <=? 10 ^ (- exponent n))%Z).

Definition num (z : Z) : number :=
  mkNumber (z <? 0)%Z (Z.abs_N z) 0.

(** The values [JSON.parse] can produce, and [undefined], which reading a
    missing property produces. An object keeps its own properties in
    insertion order, each key once. *)
Inductive value :=
| JUndefined
| JNull
| JBool (b : bool)
| JNumber (n : number)
| JString (s : jsstring)
| JArray (items : list value)
| JObject (fields : list (jsstring * value)).

Inductive jstype := TyUndefined | TyObject | TyBoolean | TyNumber | TyString.

(** [typeof v] *)
Definition typeof (v : value) : jstype :=
  match v with
  | JUndefined => TyUndefined
  | JNull | JArray _ | JObject _ => TyObject
  | JBool _ => TyBoolean
  | JNumber _ => TyNumber
  | JString _ => TyString
  end.

Definition jstype_eqb (a b : jstype) : bool :=
  match a, b with
  | TyUndefined, TyUndefined | TyObject, TyObject | TyBoolean, TyBoolean
  | TyNumber, TyNumber | TyString, TyString => true
  | _, _ => false
  end.

(** [ToBoolean]: what [!v] and [if (v)] test. *)
Definition truthy (v : value) : bool :=
  match v with
  | JUndefined | JNull => false
  | JBool b => b
  | JNumber n => negb (rounds_to_zero n)
  | JString s => match s with [] => false | _ => true end
  | JArray _ | JObject _ => true
  end.

(** [Array.isArray(v)] *)
Definition isArray (v : value) : bool :=
  match v with JArray _ => true | _ => false end.

Fixpoint lookup (k : jsstring) (fields : list (jsstring * value)) : value :=
  match fields with
  | [] => JUndefined
  | (k', v) :: rest => if str_eqb k k' then v else lookup k rest
  end.

(** Defining the own property [k]: an existing key keeps its place. *)
Fixpoint obj_set (k : jsstring) (v : value) (fields : list (jsstring * value))
  : list (jsstring * value) :=
  match fields with
  | [] => [(k, v)]
  | (k', v') :: rest =>
      if str_eqb k k' then (k, v) :: rest else (k', v') :: obj_set k v rest
  end.

(** What a JavaScript statement can complete with. *)
Inductive exn :=
| TypeError
| SyntaxError
| Error (message : jsstring)          (* [new Error(message)] *)
| Thrown (text : jsstring) (message : option jsstring).
  (* a value [v] that is no [Error]: [text] is [String(v)]; [message] is
     the text of [v.message] in a template ([undefined] when it has no
     such property), and [None] when [v] is [null] or [undefined], whose
     properties cannot be read *)

Inductive completion (A : Type) :=
| Normal (a : A)
| Throw (e : exn).
Arguments Normal {A} a.
Arguments Throw {A} e.

Definition bind {A B} (c : completion A) (k : A -> completion B)
  : completion B :=
  match c with
  | Normal a => k a
  | Throw e => Throw e
  end.

(** [try { c } catch (e) { h e }] *)
Definition try_catch {A} (c : completion A) (h : exn -> completion A)
  : completion A :=
  match c with
  | Normal a => Normal a
  | Throw e => h e
  end.

(** [v[k]] and [v.k], for the property names this program reads
    ([overallScore], the section names, [score], [tips], [type], [tip],
    [explanation], [resumePath], [imagePath], [feedback]): none of them is
    an index, [length] or a name on a built-in prototype, so only a plain
    object can hold one; reading from [null] or [undefined] throws. *)
Definition get (v : value) (k : jsstring) : completion value :=
  match v with
  | JUndefined | JNull => Throw TypeError
  | JObject fields => Normal (lookup k fields)
  | JBool _ | JNumber _ | JString _ | JArray _ => Normal JUndefined
  end.

(** [a === b] between a value and a string literal. *)
Definition is_string_lit (s : jsstring) (v : value) : bool :=
  match v with JString s' => str_eqb s s' | _ => false end.

End JsValue.
Import JsValue.

Declare Scope js_scope.
Delimit Scope js_scope with js.
Declare Scope ctl_scope.
Notation "x <- c ;; k" := (bind c (fun x => k))
  (at level 61, c at next level, right associativity) : js_scope.
Local Open Scope js_scope.

(* ================================================================== *)
(** * Regular expressions *)
(* ================================================================== *)

Module Regex.

(** The fragment of ECMAScript patterns the sources use, matched by
    backtracking as the language defines it: a greedy quantifier tries
    one more iteration before it tries to go on, a lazy one the other way
    round, and an iteration that consumes nothing is refused. *)
Inductive regex :=
| Eps
| Chr (p : code_unit -> bool)          (* a character, class or [.] *)
| Seq (r1 r2 : regex)
| Star (greedy : bool) (r : regex)     (* [r*] and [r*?] *)
| Group (i : nat) (r : regex)          (* the i-th capturing group *)
| Ahead (r : regex)                    (* [(?=r)] *)
| Bol                                  (* [^], no [m] flag *)
| Eol.                                 (* [$], no [m] flag *)

(** [r+] *)
Definition Plus (r : regex) : regex := Seq r (Star true r).

Definition is_char (c : code_unit) : code_unit -> bool := N.eqb c.
Definition not_char (c : code_unit) : code_unit -> bool :=
  fun x => negb (N.eqb c x).
Definition any_char : code_unit -> bool := fun _ => true.
Definition one_of (cs : list code_unit) : code_unit -> bool :=
  fun x => existsb (N.eqb x) cs.
(** With the [i] flag: a letter matches in either case. *)
Definition is_char_i (c : code_unit) : code_unit -> bool :=
  fun x => N.eqb (lower x) (lower c).

(** The characters of [s], one after the other. *)
Definition Lit (s : jsstring) : regex :=
  fold_right (fun c r => Seq (Chr (is_char c)) r) Eps s.
Definition Lit_i (s : jsstring) : regex :=
  fold_right (fun c r => Seq (Chr (is_char_i c)) r) Eps s.

(** Where a match stands: the index reached, the input from there on and
    the captures made so far. *)
Record mstate := mkState
  { pos : nat; rest : jsstring; caps : list (nat * jsstring) }.

Definition capture (i : nat) (st : mstate) : jsstring :=
  match find (fun c => Nat.eqb (fst c) i) (caps st) with
  | Some c => snd c
  | None => []
  end.

(** The iterations of a quantified pattern [body], with [k] to follow.
    [n] bounds the iterations that are left: each one consumes a
    character, so the length of the input does. *)
Definition star_loop (greedy : bool)
  (body : mstate -> (mstate -> option mstate) -> option mstate)
  (k : mstate -> option mstate) : nat -> mstate -> option mstate :=
  fix loop (n : nat) (st : mstate) {struct n} : option mstate :=
    let again :=
      match n with
      | O => None
      | S n' =>
          body st (fun st' =>
            if Nat.ltb (pos st) (pos st') then loop n' st' else None)
      end in
    if greedy then
      match again with Some m => Some m | None => k st end
    else
      match k st with Some m => Some m | None => again end.

(** [rmatch r st k]: the first way, in the order of backtracking, to
    match [r] from [st] and then succeed with [k]. *)
Fixpoint rmatch (r : regex) (st : mstate) (k : mstate -> option mstate)
  {struct r} : option mstate :=
  match r with
  | Eps => k st
  | Chr p =>
      match rest st with
      | c :: s' => if p c then k (mkState (S (pos st)) s' (caps st)) else None
      | [] => None
      end
  | Seq r1 r2 => rmatch r1 st (fun st' => rmatch r2 st' k)
  | Star greedy r1 =>
      star_loop greedy (rmatch r1) k (length (rest st)) st
  | Group i r1 =>
      rmatch r1 st (fun st' =>
        k (mkState (pos st') (rest st')
             ((i, firstn (pos st' - pos st) (rest st)) :: caps st')))
  | Ahead r1 =>
      match rmatch r1 st Some with
      | Some st' => k (mkState (pos st) (rest st) (caps st'))
      | None => None
      end
  | Bol => if Nat.eqb (pos st) 0 then k st else None
  | Eol => match rest st with [] => k st | _ :: _ => None end
  end.

(** A match of [r] that starts at index [i], where [s] is the input from
    [i] on. *)
Definition match_at (r : regex) (i : nat) (s : jsstring) : option mstate :=
  rmatch r (mkState i s []) Some.

(** The leftmost match at or after index [i]: the text before it, the
    match, the text after it. *)
Fixpoint search (r : regex) (i : nat) (s : jsstring)
  : option (jsstring * mstate) :=
  match match_at r i s with
  | Some m => Some ([], m)
  | None =>
      match s with
      | [] => None
      | c :: s' =>
          match search r (S i) s' with
          | Some (before, m) => Some (c :: before, m)
          | None => None
          end
      end
  end.

(** The matched text [m[0]] of a match that started at [i] in [s]. *)
Definition matched (i : nat) (s : jsstring) (m : mstate) : jsstring :=
  firstn (pos m - i) s.

(** [s.match(r)[0]] for a pattern without the [g] flag; [None] is
    [null]. *)
Definition match0 (r : regex) (s : jsstring) : option jsstring :=
  match search r 0 s with
  | Some (before, m) =>
      Some (matched (length before) (skipn (length before) s) m)
  | None => None
  end.

(** A replacement string: literal text and [$n]. *)
Inductive piece := Text (s : jsstring) | Ref (i : nat).

Definition expand (tmpl : list piece) (m : mstate) : jsstring :=
  flat_map (fun p => match p with Text s => s | Ref i => capture i m end) tmpl.

(** [s.replace(r, tmpl)] for a pattern without the [g] flag. *)
Definition replace (r : regex) (tmpl : list piece) (s : jsstring) : jsstring :=
  match search r 0 s with
  | Some (before, m) => before ++ expand tmpl m ++ rest m
  | None => s
  end.

(** [s.replace(r, tmpl)] for a pattern with the [g] flag. [i] is the
    index of the head of [s]; [skip] counts the characters of [s] that
    the previous match has consumed already. After an empty match the
    search moves on by one character, which is copied. *)
Fixpoint replace_from (r : regex) (tmpl : list piece) (i skip : nat)
  (s : jsstring) : jsstring :=
  match skip with
  | S skip' =>
      match s with
      | [] => []
      | _ :: s' => replace_from r tmpl (S i) skip' s'
      end
  | O =>
      match match_at r i s with
      | Some m =>
          expand tmpl m ++
          match s with
          | [] => []
          | c :: s' =>
              if Nat.eqb (pos m) i then c :: replace_from r tmpl (S i) 0 s'
              else replace_from r tmpl (S i) (pos m - i - 1) s'
          end
      | None =>
          match s with
          | [] => []
          | c :: s' => c :: replace_from r tmpl (S i) 0 s'
          end
      end
  end.

Definition replace_all (r : regex) (tmpl : list piece) (s : jsstring)
  : jsstring :=
  replace_from r tmpl 0 0 s.

(** [\s] *)
Definition ws : regex := Chr is_space.

End Regex.
Import Regex.

(* ================================================================== *)
(** * [JSON.parse] *)
(* ================================================================== *)

Module Json.

(** The grammar of ECMA-404, read in two passes that each go through
    their input once: the characters are cut into tokens, and the tokens
    are assembled into a value by a pushdown automaton.  Two value tokens
    that touch (as in [01] or [1true]) are cut apart here and refused by
    the automaton, which accepts no two values in a row. *)
Inductive token :=
| TLBrace | TRBrace | TLBracket | TRBracket | TColon | TComma
| TStr (s : jsstring)
| TNum (n : number)
| TTrue | TFalse | TNull.

(** Where the tokenizer stands inside a number literal. *)
Inductive numphase :=
| NSign      (* after [-]: a digit must follow *)
| NZero      (* the integer part is [0] *)
| NInt       (* inside an integer part that starts with 1 to 9 *)
| NPoint     (* after [.]: a digit must follow *)
| NFrac      (* inside the fraction *)
| NE         (* after [e] or [E]: a sign or a digit must follow *)
| NESign     (* after the sign of the exponent: a digit must follow *)
| NEDigits.  (* inside the exponent *)

(** The digits read so far: the sign, the digits of integer part and
    fraction as one natural number, how many of them are fraction digits,
    the sign of the exponent and its digits. *)
Record numacc := mkAcc
  { aneg : bool; acoef : N; afrac : N; aeneg : bool; aexp : N }.

Definition acc_number (a : numacc) : number :=
  mkNumber (aneg a) (acoef a)
    ((if aeneg a then - Z.of_N (aexp a) else Z.of_N (aexp a))
     - Z.of_N (afrac a))%Z.

Inductive lstate :=
| LIdle
| LString (acc : jsstring)                     (* latest character first *)
| LEscape (acc : jsstring)                     (* after a backslash *)
| LUnicode (acc : jsstring) (n : nat) (code : N) (* after [\u] and n digits *)
| LWord (todo : jsstring) (t : token)          (* inside true, false, null *)
| LNumber (ph : numphase) (a : numacc).

Definition is_json_space (c : code_unit) : bool :=
  ((c =? 32) || (c =? 9) || (c =? 10) || (c =? 13))%N.

Definition digit (c : code_unit) : option N :=
  if ((48 <=? c) && (c <=? 57))%N then Some (c - 48)%N else None.

Definition hex_digit (c : code_unit) : option N :=
  if ((48 <=? c) && (c <=? 57))%N then Some (c - 48)%N
  else if ((97 <=? c) && (c <=? 102))%N then Some (c - 87)%N
  else if ((65 <=? c) && (c <=? 70))%N then Some (c - 55)%N
  else None.

(** The character an escape letter stands for. *)
Definition escape (c : code_unit) : option code_unit :=
  if (c =? 34)%N then Some 34%N          (* a double quote *)
  else if (c =? 92)%N then Some 92%N     (* a backslash *)
  else if (c =? 47)%N then Some 47%N     (* a slash *)
  else if (c =? 98)%N then Some 8%N      (* escape b *)
  else if (c =? 102)%N then Some 12%N    (* escape f *)
  else if (c =? 110)%N then Some 10%N    (* escape n *)
  else if (c =? 114)%N then Some 13%N    (* escape r *)
  else if (c =? 116)%N then Some 9%N     (* escape t *)
  else None.

(** The first character of a token. *)
Definition start_token (c : code_unit) : option (lstate * list token) :=
  if is_json_space c then Some (LIdle, [])
  else if (c =? 123)%N then Some (LIdle, [TLBrace])
  else if (c =? 125)%N then Some (LIdle, [TRBrace])
  else if (c =? 91)%N then Some (LIdle, [TLBracket])
  else if (c =? 93)%N then Some (LIdle, [TRBracket])
  else if (c =? 58)%N then Some (LIdle, [TColon])
  else if (c =? 44)%N then Some (LIdle, [TComma])
  else if (c =? 34)%N then Some (LString [], [])
  else if (c =? 45)%N then Some (LNumber NSign (mkAcc true 0 0 false 0), [])
  else if (c =? 48)%N then Some (LNumber NZero (mkAcc false 0 0 false 0), [])
  else if (c =? 116)%N then Some (LWord (lit "rue") TTrue, [])
  else if (c =? 102)%N then Some (LWord (lit "alse") TFalse, [])
  else if (c =? 110)%N then Some (LWord (lit "ull") TNull, [])
  else match digit c with
       | Some d => Some (LNumber NInt (mkAcc false d 0 false 0), [])
       | None => None
       end.

Definition is_e (c : code_unit) : bool := ((c =? 101) || (c =? 69))%N.

Definition add_digit (d : N) (a : numacc) : numacc :=
  mkAcc (aneg a) (10 * acoef a + d) (afrac a) (aeneg a) (aexp a).
Definition add_frac_digit (d : N) (a : numacc) : numacc :=
  mkAcc (aneg a) (10 * acoef a + d) (afrac a + 1) (aeneg a) (aexp a).
Definition add_exp_digit (d : N) (a : numacc) : numacc :=
  mkAcc (aneg a) (acoef a) (afrac a) (aeneg a) (10 * aexp a + d).
Definition set_exp_sign (neg : bool) (a : numacc) : numacc :=
  mkAcc (aneg a) (acoef a) (afrac a) neg (aexp a).

(** The literal ends before [c]: its token is put out and [c] starts the
    next one. *)
Definition end_number (a : numacc) (c : code_unit)
  : option (lstate * list token) :=
  match start_token c with
  | Some (st, toks) => Some (st, TNum (acc_number a) :: toks)
  | None => None
  end.

Definition number_step (ph : numphase) (a : numacc) (c : code_unit)
  : option (lstate * list token) :=
  match ph with
  | NSign =>
      match digit c with
      | Some d => Some (LNumber (if (d =? 0)%N then NZero else NInt)
                          (add_digit d a), [])
      | None => None
      end
  | NZero =>
      if (c =? 46)%N then Some (LNumber NPoint a, [])
      else if is_e c then Some (LNumber NE a, [])
      else end_number a c
  | NInt =>
      match digit c with
      | Some d => Some (LNumber NInt (add_digit d a), [])
      | None =>
          if (c =? 46)%N then Some (LNumber NPoint a, [])
          else if is_e c then Some (LNumber NE a, [])
          else end_number a c
      end
  | NPoint =>
      match digit c with
      | Some d => Some (LNumber NFrac (add_frac_digit d a), [])
      | None => None
      end
  | NFrac =>
      match digit c with
      | Some d => Some (LNumber NFrac (add_frac_digit d a), [])
      | None => if is_e c then Some (LNumber NE a, []) else end_number a c
      end
  | NE =>
      if (c =? 43)%N then Some (LNumber NESign a, [])
      else if (c =? 45)%N then Some (LNumber NESign (set_exp_sign true a), [])
      else match digit c with
           | Some d => Some (LNumber NEDigits (add_exp_digit d a), [])
           | None => None
           end
  | NESign =>
      match digit c with
      | Some d => Some (LNumber NEDigits (add_exp_digit d a), [])
      | None => None
      end
  | NEDigits =>
      match digit c with
      | Some d => Some (LNumber NEDigits (add_exp_digit d a), [])
      | None => end_number a c
      end
  end.

(** One character; [None] is a syntax error. *)
Definition lex_step (st : lstate) (c : code_unit)
  : option (lstate * list token) :=
  match st with
  | LIdle => start_token c
  | LString acc =>
      if (c =? 34)%N then Some (LIdle, [TStr (rev acc)])
      else if (c =? 92)%N then Some (LEscape acc, [])
      else if (c <? 32)%N then None
      else Some (LString (c :: acc), [])
  | LEscape acc =>
      if (c =? 117)%N then Some (LUnicode acc 0 0, [])
      else match escape c with
           | Some x => Some (LString (x :: acc), [])
           | None => None
           end
  | LUnicode acc n code =>
      match hex_digit c with
      | Some d =>
          if Nat.eqb n 3 then Some (LString ((16 * code + d)%N :: acc), [])
          else Some (LUnicode acc (S n) (16 * code + d)%N, [])
      | None => None
      end
  | LWord todo t =>
      match todo with
      | x :: todo' =>
          if (c =? x)%N then
            match todo' with
            | [] => Some (LIdle, [t])
            | _ :: _ => Some (LWord todo' t, [])
            end
          else None
      | [] => None
      end
  | LNumber ph a => number_step ph a c
  end.

(** The end of the input. *)
Definition lex_end (st : lstate) : option (list token) :=
  match st with
  | LIdle => Some []
  | LNumber (NZero | NInt | NFrac | NEDigits) a => Some [TNum (acc_number a)]
  | _ => None
  end.

Fixpoint lex_from (st : lstate) (s : jsstring) : option (list token) :=
  match s with
  | [] => lex_end st
  | c :: s' =>
      match lex_step st c with
      | Some (st', toks) =>
          match lex_from st' s' with
          | Some more => Some (toks ++ more)
          | None => None
          end
      | None => None
      end
  end.

Definition lex (s : jsstring) : option (list token) := lex_from LIdle s.

(** A container that is being read. *)
Inductive frame :=
| FArray (items : list value)                 (* latest item first *)
| FObject (fields : list (jsstring * value))  (* in insertion order *)
          (key : option jsstring).            (* the key that awaits its value *)

Inductive pmode :=
| PValue        (* a value must follow *)
| PArrayStart   (* after [[]: a value or []] *)
| PObjectStart  (* after [{]: a key or [}] *)
| PKey          (* after [,] in an object: a key *)
| PColon        (* after a key: [:] *)
| PAfter        (* after a value in a container: [,] or the closing bracket *)
| PDone (v : value).

Definition pstate := (list frame * pmode)%type.

(** A complete value goes into the container that is open, or is the
    result. A key that occurs again replaces the earlier value. *)
Definition push_value (stack : list frame) (v : value) : option pstate :=
  match stack with
  | [] => Some ([], PDone v)
  | FArray items :: up => Some (FArray (v :: items) :: up, PAfter)
  | FObject fields (Some k) :: up =>
      Some (FObject (obj_set k v fields) None :: up, PAfter)
  | FObject _ None :: _ => None
  end.

Definition value_token (stack : list frame) (t : token) : option pstate :=
  match t with
  | TStr s => push_value stack (JString s)
  | TNum n => push_value stack (JNumber n)
  | TTrue => push_value stack (JBool true)
  | TFalse => push_value stack (JBool false)
  | TNull => push_value stack JNull
  | TLBracket => Some (FArray [] :: stack, PArrayStart)
  | TLBrace => Some (FObject [] None :: stack, PObjectStart)
  | TRBrace | TRBracket | TColon | TComma => None
  end.

Definition key_token (stack : list frame) (t : token) : option pstate :=
  match t, stack with
  | TStr k, FObject fields None :: up => Some (FObject fields (Some k) :: up, PColon)
  | _, _ => None
  end.

Definition close_array (stack : list frame) : option pstate :=
  match stack with
  | FArray items :: up => push_value up (JArray (rev items))
  | _ => None
  end.

Definition close_object (stack : list frame) : option pstate :=
  match stack with
  | FObject fields None :: up => push_value up (JObject fields)
  | _ => None
  end.

Definition pstep (st : pstate) (t : token) : option pstate :=
  let (stack, mode) := st in
  match mode with
  | PValue => value_token stack t
  | PArrayStart =>
      match t with
      | TRBracket => close_array stack
      | _ => value_token stack t
      end
  | PObjectStart =>
      match t with
      | TRBrace => close_object stack
      | _ => key_token stack t
      end
  | PKey => key_token stack t
  | PColon =>
      match t with
      | TColon => Some (stack, PValue)
      | _ => None
      end
  | PAfter =>
      match t with
      | TComma =>
          match stack with
          | FArray _ :: _ => Some (stack, PValue)
          | FObject _ _ :: _ => Some (stack, PKey)
          | [] => None
          end
      | TRBracket => close_array stack
      | TRBrace => close_object stack
      | _ => None
      end
  | PDone _ => None
  end.

Fixpoint prun (st : pstate) (toks : list token) : option pstate :=
  match toks with
  | [] => Some st
  | t :: toks' =>
      match pstep st t with
      | Some st' => prun st' toks'
      | None => None
      end
  end.

Definition parse_tokens (toks : list token) : option value :=
  match prun ([], PValue) toks with
  | Some (_, PDone v) => Some v
  | _ => None
  end.

(** [JSON.parse(s)]: the value, or a [SyntaxError]. *)
Definition JSON_parse (s : jsstring) : completion value :=
  match lex s with
  | Some toks =>
      match parse_tokens toks with
      | Some v => Normal v
      | None => Throw SyntaxError
      end
  | None => Throw SyntaxError
  end.

End Json.
Import Json.

(* ================================================================== *)
(** * [src/app/lib/json-validator.ts] *)
(* ================================================================== *)

Definition type_eq (v : value) (t : jstype) : bool := jstype_eqb (typeof v) t.

(** [for (const x of v)] over an array. The loops of this program are
    reached with arrays only. *)
Definition elements (v : value) : completion (list value) :=
  match v with
  | JArray items => Normal items
  | _ => Throw TypeError
  end.

Definition sections : list jsstring :=
  [lit "ATS"; lit "toneAndStyle"; lit "content"; lit "structure"; lit "skills"].

(** The body of the inner loop of [validateFeedbackStructure]:
    [Normal false] is its [return false], [Normal true] lets the loop
    go on. *)
Definition check_tip (section : jsstring) (tip : value) : completion bool :=
  if negb (truthy tip) || negb (type_eq tip TyObject) then Normal false else
  kind <- get tip (lit "type") ;;
  if negb (existsb (fun s => is_string_lit s kind) [lit "good"; lit "improve"])
  then Normal false else
  text <- get tip (lit "tip") ;;
  if negb (type_eq text TyString) then Normal false else
  if negb (str_eqb section (lit "ATS")) then
    explanation <- get tip (lit "explanation") ;;
    if negb (type_eq explanation TyString) then Normal false else Normal true
  else Normal true.

Fixpoint check_tips (section : jsstring) (tips : list value)
  : completion bool :=
  match tips with
  | [] => Normal true
  | tip :: more =>
      ok <- check_tip section tip ;;
      if ok then check_tips section more else Normal false
  end.

(** The body of the outer loop. *)
Definition check_section (obj : value) (section : jsstring)
  : completion bool :=
  sec <- get obj section ;;
  if negb (truthy sec) || negb (type_eq sec TyObject) then Normal false else
  score <- get sec (lit "score") ;;
  if negb (type_eq score TyNumber) then Normal false else
  tips <- get sec (lit "tips") ;;
  if negb (isArray tips) then Normal false else
  items <- elements tips ;;
  check_tips section items.

Fixpoint check_sections (obj : value) (names : list jsstring)
  : completion bool :=
  match names with
  | [] => Normal true
  | section :: more =>
      ok <- check_section obj section ;;
      if ok then check_sections obj more else Normal false
  end.

Definition validateFeedbackStructure (obj : value) : completion bool :=
  if negb (truthy obj) || negb (type_eq obj TyObject) then Normal false else
  overall <- get obj (lit "overallScore") ;;
  if negb (type_eq overall TyNumber) then Normal false else
  check_sections obj sections.

(** A sequence of patterns. *)
Definition cat (rs : list regex) : regex := fold_right Seq Eps rs.

Definition c_colon : code_unit := 58%N.
Definition c_quote : code_unit := 34%N.
Definition c_comma : code_unit := 44%N.
Definition c_lbrace : code_unit := 123%N.
Definition c_rbrace : code_unit := 125%N.
Definition c_rbracket : code_unit := 93%N.
Definition c_newline : code_unit := 10%N.
Definition c_backslash : code_unit := 92%N.

(** The five patterns of [repairJSON], in the order of the source, each
    with its replacement. In the comments Q stands for a double quote.
    - [/:\s*Q([^Q]*?)(?=\s*[,}])/g] by [: Q$1Q] *)
Definition re_unterminated : regex :=
  cat [Chr (is_char c_colon); Star true ws; Chr (is_char c_quote);
       Group 1 (Star false (Chr (not_char c_quote)));
       Ahead (cat [Star true ws; Chr (one_of [c_comma; c_rbrace])])].
Definition by_unterminated : list piece :=
  [Text (quoted ": '"); Ref 1; Text (quoted "'")].

(** - [/}\s*Q([^Q]+)Q:\s*/g] by [}, Q$1Q: ] *)
Definition re_missing_comma : regex :=
  cat [Chr (is_char c_rbrace); Star true ws; Chr (is_char c_quote);
       Group 1 (Plus (Chr (not_char c_quote))); Chr (is_char c_quote);
       Chr (is_char c_colon); Star true ws].
Definition by_missing_comma : list piece :=
  [Text (quoted "}, '"); Ref 1; Text (quoted "': ")].

(** - [/}\s*{/g] by [}, {] *)
Definition re_adjacent : regex :=
  cat [Chr (is_char c_rbrace); Star true ws; Chr (is_char c_lbrace)].
Definition by_adjacent : list piece := [Text (lit "}, {")].

(** - [/,(\s*[}\]])/g] by [$1] *)
Definition re_trailing_comma : regex :=
  cat [Chr (is_char c_comma);
       Group 1 (cat [Star true ws; Chr (one_of [c_rbrace; c_rbracket])])].
Definition by_trailing_comma : list piece := [Ref 1].

(** - a quote, group 1 [[^Q]*], a newline, group 2 [[^Q]*] and a quote,
      with the [g] flag, by [Q$1\\n$2Q]: a backslash and the letter n
      between the two groups *)
Definition re_newline : regex :=
  cat [Chr (is_char c_quote); Group 1 (Star true (Chr (not_char c_quote)));
       Chr (is_char c_newline); Group 2 (Star true (Chr (not_char c_quote)));
       Chr (is_char c_quote)].
Definition by_newline : list piece :=
  [Text [c_quote]; Ref 1; Text [c_backslash; 110%N]; Ref 2; Text [c_quote]].

Definition repairJSON (jsonString : jsstring) : jsstring :=
  let repaired := trim jsonString in
  let firstBrace := indexOf c_lbrace repaired in
  let repaired :=
    if (firstBrace >? 0)%Z then substring_from firstBrace repaired
    else repaired in
  let lastBrace := lastIndexOf c_rbrace repaired in
  let repaired :=
    if (lastBrace >=? 0)%Z && (lastBrace <? Z.of_nat (length repaired) - 1)%Z
    then substring_to (lastBrace + 1) repaired
    else repaired in
  replace_all re_newline by_newline
    (replace_all re_trailing_comma by_trailing_comma
       (replace_all re_adjacent by_adjacent
          (replace_all re_missing_comma by_missing_comma
             (replace_all re_unterminated by_unterminated repaired)))).

Definition tip_record (fields : list (jsstring * jsstring)) : value :=
  JObject (map (fun kv => (fst kv, JString (snd kv))) fields).

Definition section_record (score : Z) (tips : list value) : value :=
  JObject [(lit "score", JNumber (num score)); (lit "tips", JArray tips)].

(** The default value of the parameter of [createFallbackFeedback];
    its one caller passes a message of its own. *)
Definition default_message : jsstring := lit "AI parsing failed".

Definition createFallbackFeedback (errorMessage : jsstring) : value :=
  let errorTip :=
    tip_record
      [(lit "type", lit "improve");
       (lit "tip", lit "Manual review needed");
       (lit "explanation",
        errorMessage ++
        lit ". Please try uploading your resume again or contact support if the issue persists.")] in
  let basicTip :=
    tip_record
      [(lit "type", lit "improve");
       (lit "tip", lit "Upload failed - please try again")] in
  JObject
    [(lit "overallScore", JNumber (num 50));
     (lit "ATS", section_record 50 [basicTip]);
     (lit "toneAndStyle", section_record 50 [errorTip]);
     (lit "content", section_record 50 [errorTip]);
     (lit "structure", section_record 50 [errorTip]);
     (lit "skills", section_record 50 [errorTip])].

(** What [parseAIFeedback] returns. *)
Record ParseResult := mkResult
  { success : bool;
    feedback : value;
    method : jsstring;
    error : option jsstring }.

(** The three patterns of [parseAIFeedback]; B stands for a backquote.
    - [/^BBBjson\s*/] and [/^BBB\s*/] *)
Definition fence : jsstring := lit "```".
Definition re_open_json : regex := cat [Bol; Lit (lit "```json"); Star true ws].
Definition re_open : regex := cat [Bol; Lit fence; Star true ws].
(** - [/\s*BBB$/] *)
Definition re_close : regex := cat [Star true ws; Lit fence; Eol].
(** - [/\{[\s\S]*\}/] *)
Definition re_object : regex :=
  cat [Chr (is_char c_lbrace); Star true (Chr any_char);
       Chr (is_char c_rbrace)].

(** One [try] block of [parseAIFeedback]: the result it returns, or
    [None] when it is left without a [return] (the parsed value does not
    validate, or an exception is caught and logged). *)
Definition attempt (text : jsstring) (how : jsstring) : option ParseResult :=
  match
    try_catch
      (parsed <- JSON_parse text ;;
       ok <- validateFeedbackStructure parsed ;;
       Normal (if ok then Some (mkResult true parsed how None) else None))
      (fun _ => Normal None)
  with
  | Normal r => r
  | Throw _ => None
  end.

Definition strip_fence (cleanedText : jsstring) : jsstring :=
  if startsWith (lit "```json") cleanedText then
    replace re_close [] (replace re_open_json [] cleanedText)
  else if startsWith fence cleanedText then
    replace re_close [] (replace re_open [] cleanedText)
  else cleanedText.

Definition fallback_result : ParseResult :=
  mkResult false (createFallbackFeedback (lit "Unable to parse AI response"))
    (lit "fallback") (Some (lit "All parsing strategies failed")).

Definition parseAIFeedback (rawText : jsstring) : ParseResult :=
  let cleanedText := trim rawText in
  let processedText := strip_fence cleanedText in
  match attempt processedText (lit "direct") with
  | Some r => r
  | None =>
      match match0 re_object processedText with
      | Some jsonMatch =>
          match attempt jsonMatch (lit "regex_extraction") with
          | Some r => r
          | None =>
              match attempt (repairJSON jsonMatch) (lit "repair") with
              | Some r => r
              | None => fallback_result
              end
          end
      | None => fallback_result
      end
  end.

(* ================================================================== *)
(** * The Review Session Controller: [loadResume] *)
(* ================================================================== *)

Module Controller.

Section Load.

(** The collaborators. [kv.get] and [fs.read] go through [safeApiCall]
    of [puter.ts], which catches every failure and answers [undefined]:
    they never throw, and [None] stands for [null] and [undefined]. By
    their declared types [kv.get] answers a string and [fs.read] a blob,
    of which [new Blob] and [URL.createObjectURL] make a URL without
    throwing. The text of a built-in error is the engine's. *)
Variable Blob : Type.
Variable kv_get : jsstring -> option jsstring.
Variable fs_read : value -> option Blob.
Variable pdf_object_url : Blob -> jsstring.   (* of the blob retyped as a PDF *)
Variable object_url : Blob -> jsstring.
Variable builtin_message : exn -> jsstring.

(** The component's state, with the initial values of its [useState]. *)
Record Session := mkSession
  { imageUrl : jsstring;
    resumeUrl : jsstring;
    feedback : option value;
    loading : bool;
    error : option jsstring }.

Definition initial : Session := mkSession [] [] None true None.

(** The calls made on the two stores. *)
Inductive event :=
| KvGet (key : jsstring)
| FsRead (path : value).

Record world := mkWorld { session : Session; trace : list event }.

(** How a block of statements ends: it runs through, the function
    returns, or an exception is on its way. *)
Inductive outcome (A : Type) :=
| Value (a : A)
| Return
| Raise (e : exn).
Arguments Value {A} a.
Arguments Return {A}.
Arguments Raise {A} e.

Definition M (A : Type) : Type := world -> outcome A * world.

Definition ret {A} (a : A) : M A := fun w => (Value a, w).

Definition bindM {A B} (c : M A) (k : A -> M B) : M B :=
  fun w =>
    match c w with
    | (Value a, w') => k a w'
    | (Return, w') => (Return, w')
    | (Raise e, w') => (Raise e, w')
    end.

Definition return_ {A} : M A := fun w => (Return, w).

Definition lift {A} (c : completion A) : M A :=
  fun w => match c with
           | Normal a => (Value a, w)
           | Throw e => (Raise e, w)
           end.

(** [try { body } catch (e) { handler e }] *)
Definition try_ (body : M unit) (handler : exn -> M unit) : M unit :=
  fun w =>
    match body w with
    | (Raise e, w') => handler e w'
    | done => done
    end.

(** [if (c) { body }] *)
Definition when (c : bool) (body : M unit) : M unit :=
  if c then body else ret tt.

Definition update (f : Session -> Session) : M unit :=
  fun w => (Value tt, mkWorld (f (session w)) (trace w)).

Definition setImageUrl (u : jsstring) : M unit :=
  update (fun s => mkSession u (resumeUrl s) (feedback s) (loading s) (error s)).
Definition setResumeUrl (u : jsstring) : M unit :=
  update (fun s => mkSession (imageUrl s) u (feedback s) (loading s) (error s)).
Definition setFeedback (f : value) : M unit :=
  update (fun s => mkSession (imageUrl s) (resumeUrl s) (Some f) (loading s) (error s)).
Definition setLoading (b : bool) : M unit :=
  update (fun s => mkSession (imageUrl s) (resumeUrl s) (feedback s) b (error s)).
Definition setError (e : option jsstring) : M unit :=
  update (fun s => mkSession (imageUrl s) (resumeUrl s) (feedback s) (loading s) e).

Definition kvGet (key : jsstring) : M (option jsstring) :=
  fun w => (Value (kv_get key), mkWorld (session w) (trace w ++ [KvGet key])).

Definition fsRead (path : value) : M (option Blob) :=
  fun w => (Value (fs_read path), mkWorld (session w) (trace w ++ [FsRead path])).

(** [!resume] for what [kv.get] answers: nothing, or the empty string. *)
Definition absent (resume : option jsstring) : bool :=
  match resume with
  | None | Some [] => true
  | Some (_ :: _) => false
  end.

Definition text_of (resume : option jsstring) : jsstring :=
  match resume with Some s => s | None => [] end.

(** [error instanceof Error ? error.message : 'Unknown error'] *)
Definition describe (e : exn) : jsstring :=
  match e with
  | Error m => m
  | Thrown _ _ => lit "Unknown error"
  | TypeError | SyntaxError => builtin_message e
  end.

Notation "x <- c ;; k" := (bindM c (fun x => k))
  (at level 61, c at next level, right associativity) : ctl_scope.
Notation "c ;; k" := (bindM c (fun _ => k))
  (at level 61, right associativity) : ctl_scope.
Local Open Scope ctl_scope.

Definition loadResume (id : jsstring) : M unit :=
  try_
    (setLoading true ;;
     setError None ;;
     resume <- kvGet (lit "resume:" ++ id) ;;
     when (absent resume)
       (setError (Some (lit "Resume not found")) ;;
        setLoading false ;;
        return_) ;;
     data <-
       match JSON_parse (text_of resume) with
       | Normal data => ret data
       | Throw _ =>
           setError (Some (lit "Invalid resume data")) ;;
           setLoading false ;;
           return_
       end ;;
     resumePath <- lift (get data (lit "resumePath")) ;;
     missing <-
       (if negb (truthy resumePath) then ret true
        else imagePath <- lift (get data (lit "imagePath")) ;;
             ret (negb (truthy imagePath))) ;;
     when missing
       (setError (Some (lit "Resume files missing")) ;;
        setLoading false ;;
        return_) ;;
     resumePath <- lift (get data (lit "resumePath")) ;;
     resumeBlob <- fsRead resumePath ;;
     match resumeBlob with
     | None =>
         setError (Some (lit "Failed to load resume file")) ;;
         setLoading false ;;
         return_
     | Some resumeBlob =>
         setResumeUrl (pdf_object_url resumeBlob) ;;
         imagePath <- lift (get data (lit "imagePath")) ;;
         imageBlob <- fsRead imagePath ;;
         match imageBlob with
         | None =>
             setError (Some (lit "Failed to load resume image")) ;;
             setLoading false ;;
             return_
         | Some imageBlob =>
             setImageUrl (object_url imageBlob) ;;
             fb <- lift (get data (lit "feedback")) ;;
             when (truthy fb) (setFeedback fb) ;;
             setLoading false
         end
     end)
    (fun e =>
       setError (Some (lit "Failed to load resume: " ++ describe e)) ;;
       setLoading false).

(** The state and the store calls after [loadResume(id)] has run from
    the initial state. *)
Definition load (id : jsstring) : world :=
  snd (loadResume id (mkWorld initial [])).

End Load.

Section Failures.

Variable Blob : Type.
Variable kv_get : jsstring -> option jsstring.
Variable fs_read : value -> option Blob.

(** The key of an identifier in the key-value store. *)
Definition record_key (id : jsstring) : jsstring := lit "resume:" ++ id.

(** The path [k] of a record, when the record has one. *)
Definition path_of (data : value) (k : string) : option value :=
  match get data (lit k) with
  | Normal p => if truthy p then Some p else None
  | Throw _ => None
  end.

(** The five failures of a load, in the words of the specification: no
    record found; the stored record fails to deserialize; the record
    lacks either required path; the document blob cannot be retrieved;
    the image blob cannot be retrieved. *)
Inductive load_failure (id : jsstring) : Prop :=
| no_record_found :
    kv_get (record_key id) = None ->
    load_failure id
| record_not_deserialized (r : jsstring) (e : exn) :
    kv_get (record_key id) = Some r ->
    JSON_parse r = Throw e ->
    load_failure id
| record_lacks_path (r : jsstring) (data : value) :
    kv_get (record_key id) = Some r ->
    JSON_parse r = Normal data ->
    path_of data "resumePath" = None \/ path_of data "imagePath" = None ->
    load_failure id
| document_unreadable (r : jsstring) (data p : value) :
    kv_get (record_key id) = Some r ->
    JSON_parse r = Normal data ->
    path_of data "resumePath" = Some p ->
    fs_read p = None ->
    load_failure id
| image_unreadable (r : jsstring) (data q : value) :
    kv_get (record_key id) = Some r ->
    JSON_parse r = Normal data ->
    path_of data "imagePath" = Some q ->
    fs_read q = None ->
    load_failure id.

(** The terminal states. *)
Definition in_error (s : Session) : Prop :=
  loading s = false /\ error s <> None.
Definition is_ready (s : Session) : Prop :=
  loading s = false /\ error s = None.

Definition reads_blob (e : event) : bool :=
  match e with FsRead _ => true | KvGet _ => false end.

End Failures.

End Controller.

(* ================================================================== *)
(** * The Document Rasterizer: [convertPdfToImage] *)
(* ================================================================== *)

Module Rasterizer.

(** What an [async] function's promise settles to. *)
Inductive promise (A : Type) :=
| Resolved (a : A)
| Rejected (e : exn).
Arguments Resolved {A} a.
Arguments Rejected {A} e.

Record File := mkFile { type : jsstring; name : jsstring }.

Section Convert.

(** The browser and the PDF library. Each call that the source awaits or
    makes inside its [try] may throw; [import_lib] is the import together
    with the setting of the worker source that follows it.
    [canvas.getContext] answers [null] when no context can be had.
    [canvas.toBlob] hands its callback a blob, or [null] when the image
    cannot be encoded: a canvas that was drawn from the bytes of the file
    is origin-clean, so [toBlob] itself does not throw, and neither do
    [new File] and [URL.createObjectURL] on the blob. *)
Variables Lib Bytes Pdf Page Viewport Context Blob : Type.
Variable in_browser : bool.
Variable import_lib : completion Lib.
Variable arrayBuffer : File -> completion Bytes.
Variable getDocument : Lib -> Bytes -> completion Pdf.
Variable getPage : Pdf -> nat -> completion Page.
Variable getViewport : Page -> nat -> completion Viewport.
Variable getContext : option Context.
Variable render : Page -> Context -> Viewport -> completion unit.
Variable toBlob : option Blob.
Variable object_url : Blob -> jsstring.
Variable builtin_message : exn -> jsstring.

(** [new File([blob], name, { type })] *)
Record ImageFile := mkImage
  { image_name : jsstring; image_type : jsstring; image_blob : Blob }.

Record PdfConversionResult := mkConversion
  { imageUrl : jsstring;
    file : option ImageFile;
    error : option jsstring }.

Definition failure (message : jsstring) : PdfConversionResult :=
  mkConversion [] None (Some message).

(** [err.message] in a template: the message of an error, the text of
    that property on another value, and a [TypeError] when [err] is
    [null] or [undefined]. *)
Definition message_of (err : exn) : completion jsstring :=
  match err with
  | Error m => Normal m
  | TypeError | SyntaxError => Normal (builtin_message err)
  | Thrown _ (Some m) => Normal m
  | Thrown _ None => Throw TypeError
  end.

(** [err instanceof Error ? err.message : String(err)] *)
Definition describe (err : exn) : jsstring :=
  match err with
  | Error m => m
  | TypeError | SyntaxError => builtin_message err
  | Thrown text _ => text
  end.

(** [loadPdfJs], called with the module's [pdfjsLib] (the library once it
    is loaded) and giving it back. One conversion runs at a time here, so
    no load is in flight when it is called. The handler of a failed
    import builds its error from [err.message]: when that cannot be read,
    the handler itself ends with the [TypeError]. *)
Definition loadPdfJs (pdfjsLib : option Lib) : completion Lib * option Lib :=
  match pdfjsLib with
  | Some lib => (Normal lib, pdfjsLib)
  | None =>
      match import_lib with
      | Normal lib => (Normal lib, Some lib)
      | Throw err =>
          (message <- message_of err ;;
           Throw (Error (lit "PDF.js loading failed: " ++ message)),
           None)
      end
  end.

(** [/\.pdf$/i] *)
Definition re_pdf_suffix : regex := cat [Lit_i (lit ".pdf"); Eol].

(** The promise made at the end of [convertPdfToImage]: [toBlob]'s
    callback resolves it. *)
Definition encode (f : File) : promise PdfConversionResult :=
  match toBlob with
  | Some blob =>
      let originalName := replace re_pdf_suffix [] (name f) in
      let imageFile := mkImage (originalName ++ lit ".png") (lit "image/png") blob in
      Resolved (mkConversion (object_url blob) (Some imageFile) None)
  | None => Resolved (failure (lit "Failed to create image blob"))
  end.

(** The statements of [convertPdfToImage] after its three checks: the
    library is loaded, the first page is rendered at scale 4, and the
    promise of the encoded image is made. *)
Definition render_first_page (loaded : completion Lib) (f : File)
  : completion (promise PdfConversionResult) :=
  lib <- loaded ;;
  buffer <- arrayBuffer f ;;
  pdf <- getDocument lib buffer ;;
  page <- getPage pdf 1 ;;
  viewport <- getViewport page 4 ;;
  context <-
    match getContext with
    | Some context => Normal context
    | None => Throw (Error (lit "Failed to obtain 2D canvas context."))
    end ;;
  _ <- render page context viewport ;;
  Normal (encode f).

(** One of the steps between the load of the library and the making of
    the image fails with [err], the steps before it having succeeded. *)
Inductive step_fails (lib : Lib) (f : File) : exn -> Prop :=
| buffer_fails (err : exn) :
    arrayBuffer f = Throw err ->
    step_fails lib f err
| document_fails (bytes : Bytes) (err : exn) :
    arrayBuffer f = Normal bytes ->
    getDocument lib bytes = Throw err ->
    step_fails lib f err
| page_fails (bytes : Bytes) (pdf : Pdf) (err : exn) :
    arrayBuffer f = Normal bytes ->
    getDocument lib bytes = Normal pdf ->
    getPage pdf 1 = Throw err ->
    step_fails lib f err
| viewport_fails (bytes : Bytes) (pdf : Pdf) (page : Page) (err : exn) :
    arrayBuffer f = Normal bytes ->
    getDocument lib bytes = Normal pdf ->
    getPage pdf 1 = Normal page ->
    getViewport page 4 = Throw err ->
    step_fails lib f err
| context_fails (bytes : Bytes) (pdf : Pdf) (page : Page)
    (viewport : Viewport) :
    arrayBuffer f = Normal bytes ->
    getDocument lib bytes = Normal pdf ->
    getPage pdf 1 = Normal page ->
    getViewport page 4 = Normal viewport ->
    getContext = None ->
    step_fails lib f (Error (lit "Failed to obtain 2D canvas context."))
| render_fails (bytes : Bytes) (pdf : Pdf) (page : Page)
    (viewport : Viewport) (context : Context) (err : exn) :
    arrayBuffer f = Normal bytes ->
    getDocument lib bytes = Normal pdf ->
    getPage pdf 1 = Normal page ->
    getViewport page 4 = Normal viewport ->
    getContext = Some context ->
    render page context viewport = Throw err ->
    step_fails lib f err.

(** Every step succeeds, up to the encoding of the image. *)
Definition steps_succeed (lib : Lib) (f : File) : Prop :=
  exists bytes pdf page viewport context,
    arrayBuffer f = Normal bytes /\
    getDocument lib bytes = Normal pdf /\
    getPage pdf 1 = Normal page /\
    getViewport page 4 = Normal viewport /\
    getContext = Some context /\
    render page context viewport = Normal tt.

(** The library that a conversion has at hand: the one that was loaded
    before, or the one that the import gives. *)
Definition library_is (pdfjsLib : option Lib) (lib : Lib) : Prop :=
  pdfjsLib = Some lib \/ (pdfjsLib = None /\ import_lib = Normal lib).

(** An error result: no image, no file, a message. *)
Definition error_result (r : PdfConversionResult) : Prop :=
  imageUrl r = [] /\ file r = None /\
  exists m, error r = Some m /\ m <> [].

(** The file has a PDF type or a [.pdf] name. *)
Definition accepted (f : File) : bool :=
  includes (lit "pdf") (type f)
  || endsWith (lit ".pdf") (toLowerCase (name f)).

Definition convertPdfToImage (file : option File) (pdfjsLib : option Lib)
  : promise PdfConversionResult * option Lib :=
  match file with
  | None => (Resolved (failure (lit "No file provided")), pdfjsLib)
  | Some f =>
      if negb (includes (lit "pdf") (type f))
         && negb (endsWith (lit ".pdf") (toLowerCase (name f)))
      then (Resolved (failure (lit "File must be a PDF")), pdfjsLib)
      else if negb in_browser
      then (Resolved
              (failure (lit "PDF conversion is only available in the browser.")),
            pdfjsLib)
      else
        let (loaded, pdfjsLib') := loadPdfJs pdfjsLib in
        (match render_first_page loaded f with
         | Normal p => p
         | Throw err =>
             Resolved (failure (lit "Failed to convert PDF: " ++ describe err))
         end,
         pdfjsLib')
  end.

End Convert.

End Rasterizer.

(* ================================================================== *)
(** * The review page: its effect and what it renders *)
(* ================================================================== *)

Module Review.

Import Controller.

Section Page.

Variable Blob : Type.
Variable kv_get : jsstring -> option jsstring.
Variable fs_read : value -> option Blob.
Variable pdf_object_url : Blob -> jsstring.
Variable object_url : Blob -> jsstring.
Variable builtin_message : exn -> jsstring.

(** [loadResume(id)] run to its end against the state [s] that the
    component holds: its initial state at the first mount, the state that
    the previous load has left when the route parameter changes. *)
Definition reload (s : Session) (id : jsstring) : world :=
  snd (loadResume Blob kv_get fs_read pdf_object_url object_url
         builtin_message id (mkWorld s [])).

(** The effect on the route parameter: [if (id) { loadResume(); }]. *)
Definition effect (s : Session) (id : option jsstring) : world :=
  match id with
  | Some (c :: id') => reload s (c :: id')
  | Some [] | None => mkWorld s []
  end.

(** What the second section of the page holds. *)
Inductive panel :=
| ErrorPanel (message : jsstring)
| FeedbackPanel (feedback score suggestions : value)
| WaitingPanel (text : jsstring).

(** The rendered page: the preview (the link's [href] and the image's
    [src]) when there is one, and the panel. *)
Record view := mkView
  { preview : option (jsstring * jsstring);
    shown : panel }.

(** [a || b] *)
Definition or_else (a b : value) : value := if truthy a then a else b.

(** A string in a condition. *)
Definition nonempty (s : jsstring) : bool :=
  match s with [] => false | _ :: _ => true end.

Definition waiting (s : Session) : panel :=
  WaitingPanel (if loading s then lit "Loading resume data..."
                else lit "Processing...").

(** The expressions of the component's JSX, in their order. The
    components [Summary] and [Details] receive the feedback as it is. *)
Definition render (s : Session) : completion view :=
  let preview :=
    if nonempty (imageUrl s) && nonempty (resumeUrl s)
    then Some (resumeUrl s, imageUrl s)
    else None in
  shown <-
    match error s with
    | Some (c :: message) => Normal (ErrorPanel (c :: message))
    | Some [] | None =>
        match feedback s with
        | Some fb =>
            if truthy fb then
              ats <- get fb (lit "ATS") ;;
              score <- get ats (lit "score") ;;
              ats <- get fb (lit "ATS") ;;
              tips <- get ats (lit "tips") ;;
              Normal (FeedbackPanel fb (or_else score (JNumber (num 0)))
                        (or_else tips (JArray [])))
            else Normal (waiting s)
        | None => Normal (waiting s)
        end
    end ;;
  Normal (mkView preview shown).

(** The store holds for [id] a text that deserializes to [data]. *)
Definition record_of (id : jsstring) (data : value) : Prop :=
  exists r, kv_get (record_key id) = Some r /\ r <> [] /\
            JSON_parse r = Normal data.

(** The record names its two files. *)
Definition paths_of (data resumePath imagePath : value) : Prop :=
  path_of data "resumePath" = Some resumePath /\
  path_of data "imagePath" = Some imagePath.

(** How a run of [loadResume] goes, by what the stores hold: the state
    it leaves, as a function of the state it starts from, and the calls
    it makes. *)
Inductive run (id : jsstring) : (Session -> Session) -> list event -> Prop :=
| run_not_found :
    absent (kv_get (record_key id)) = true ->
    run id (fun s => mkSession (imageUrl s) (resumeUrl s) (feedback s) false
                       (Some (lit "Resume not found")))
        [KvGet (record_key id)]
| run_invalid (r : jsstring) (e : exn) :
    kv_get (record_key id) = Some r -> r <> [] -> JSON_parse r = Throw e ->
    run id (fun s => mkSession (imageUrl s) (resumeUrl s) (feedback s) false
                       (Some (lit "Invalid resume data")))
        [KvGet (record_key id)]
| run_null :
    record_of id JNull ->
    run id (fun s => mkSession (imageUrl s) (resumeUrl s) (feedback s) false
                       (Some (lit "Failed to load resume: "
                              ++ builtin_message TypeError)))
        [KvGet (record_key id)]
| run_missing (data : value) :
    record_of id data -> data <> JNull ->
    path_of data "resumePath" = None \/ path_of data "imagePath" = None ->
    run id (fun s => mkSession (imageUrl s) (resumeUrl s) (feedback s) false
                       (Some (lit "Resume files missing")))
        [KvGet (record_key id)]
| run_no_document (data rp ip : value) :
    record_of id data -> paths_of data rp ip -> fs_read rp = None ->
    run id (fun s => mkSession (imageUrl s) (resumeUrl s) (feedback s) false
                       (Some (lit "Failed to load resume file")))
        [KvGet (record_key id); FsRead rp]
| run_no_image (data rp ip : value) (b1 : Blob) :
    record_of id data -> paths_of data rp ip ->
    fs_read rp = Some b1 -> fs_read ip = None ->
    run id (fun s => mkSession (imageUrl s) (pdf_object_url b1) (feedback s)
                       false (Some (lit "Failed to load resume image")))
        [KvGet (record_key id); FsRead rp; FsRead ip]
| run_loaded (data rp ip : value) (b1 b2 : Blob) :
    record_of id data -> paths_of data rp ip ->
    fs_read rp = Some b1 -> fs_read ip = Some b2 ->
    run id (fun s => mkSession (object_url b2) (pdf_object_url b1)
                       (match path_of data "feedback" with
                        | Some fb => Some fb
                        | None => feedback s
                        end) false None)
        [KvGet (record_key id); FsRead rp; FsRead ip].

End Page.

End Review.

(* ================================================================== *)
(** * [src/app/lib/puter.ts]: the store of the Puter client *)
(* ================================================================== *)

Module Puter.

Import Rasterizer.

(** The data of the store. *)
Record Store := mkStore
  { isLoading : bool;
    error : option jsstring;
    puterReady : bool;
    user : value;
    isAuthenticated : bool }.

(** The store as [create] makes it. *)
Definition initial : Store := mkStore true None false JNull false.

Definition setError (msg : jsstring) (s : Store) : Store :=
  mkStore false (Some msg) (puterReady s) (user s) (isAuthenticated s).

(** An asynchronous call that works on the store: what it settles to
    and the store it leaves. *)
Definition action (T : Type) : Type := Store -> completion T * Store.

Section Api.

Variable builtin_message : exn -> jsstring.

(** [err instanceof Error ? err.message : ...] *)
Definition api_message (err : exn) : jsstring :=
  match err with
  | Error m => m
  | Thrown _ _ => lit "An unknown API error occurred"
  | TypeError | SyntaxError => builtin_message err
  end.

(** [safeApiCall(apiCall)], where [puter] tells whether [getPuter()]
    finds the library. A value of [T | undefined] is an [option T], with
    [None] for [undefined]: the call may itself resolve to [undefined],
    which [safeApiCall] hands on as it is. *)
Definition safeApiCall {T : Type} (puter : bool)
  (apiCall : action (option T)) (s : Store) : promise (option T) * Store :=
  if negb puter then
    (Resolved None, setError (lit "Puter.js not available") s)
  else
    match apiCall s with
    | (Normal v, s') => (Resolved v, s')
    | (Throw err, s') => (Resolved None, setError (api_message err) s')
    end.

(** What [puter.auth.isSignedIn()] and [puter.auth.getUser()] settle
    to. *)
Variable isSignedIn : completion value.
Variable getUser : completion value.

(** The function that [checkAuthStatus] hands to [safeApiCall]. *)
Definition check : action (option bool) :=
  fun s =>
    let s := mkStore true None (puterReady s) (user s) (isAuthenticated s) in
    match isSignedIn with
    | Throw err => (Throw err, s)
    | Normal signed =>
        if truthy signed then
          match getUser with
          | Throw err => (Throw err, s)
          | Normal u =>
              (Normal (Some true),
               mkStore false (error s) (puterReady s) u true)
          end
        else
          (Normal (Some false),
           mkStore false (error s) (puterReady s) JNull false)
    end.

Definition checkAuthStatus (puter : bool) (s : Store)
  : promise bool * Store :=
  match safeApiCall puter check s with
  | (Resolved result, s') =>
      (Resolved (match result with Some b => b | None => false end), s')
  | (Rejected e, s') => (Rejected e, s')
  end.

(** [getPuter()] at the call of [init], for [0], and at each later run
    of the function that [init] gives to [setInterval]. *)
Variable available : nat -> bool.

Definition set_ready (s : Store) : Store :=
  mkStore (isLoading s) (error s) true (user s) (isAuthenticated s).

(** The runs of the interval function, each 200 ms after the one before,
    as long as the interval is not cleared: [ticks] of them have gone by,
    [checks] is the counter of the source. *)
Fixpoint poll (ticks checks : nat) (s : Store) : Store :=
  match ticks with
  | O => s
  | S ticks' =>
      let checks := S checks in
      if available checks then snd (checkAuthStatus true (set_ready s))
      else if Nat.ltb 50 checks then setError (lit "Puter.js failed to load") s
      else poll ticks' checks s
  end.

(** The store [ticks] runs of the timer after the call of [init]. *)
Definition init (ticks : nat) (s : Store) : Store :=
  if puterReady s then s
  else if available 0 then snd (checkAuthStatus true (set_ready s))
  else poll ticks 0 s.

End Api.

End Puter.

(* ================================================================== *)
(** * [src/app/components/AdminActions.tsx]: clearing stored data *)
(* ================================================================== *)

Module Admin.

(** [String(n)] for a count. *)
Fixpoint digits (d : Decimal.uint) : jsstring :=
  match d with
  | Decimal.Nil => []
  | Decimal.D0 d' => 48%N :: digits d'
  | Decimal.D1 d' => 49%N :: digits d'
  | Decimal.D2 d' => 50%N :: digits d'
  | Decimal.D3 d' => 51%N :: digits d'
  | Decimal.D4 d' => 52%N :: digits d'
  | Decimal.D5 d' => 53%N :: digits d'
  | Decimal.D6 d' => 54%N :: digits d'
  | Decimal.D7 d' => 55%N :: digits d'
  | Decimal.D8 d' => 56%N :: digits d'
  | Decimal.D9 d' => 57%N :: digits d'
  end.
Definition decimal (n : nat) : jsstring := digits (Nat.to_uint n).

(** A [Storage] of the browser: its entries, which the browser lets the
    page list, read and remove without an exception. *)
Definition Storage : Type := list (jsstring * jsstring).

(** [Object.keys(storage)] *)
Definition keys (storage : Storage) : list jsstring := map fst storage.

(** [storage.removeItem(key)] *)
Definition removeItem (key : jsstring) (storage : Storage) : Storage :=
  filter (fun entry => negb (str_eqb (fst entry) key)) storage.

(** [for (const key of ks) storage.removeItem(key)] *)
Definition remove_each (ks : list jsstring) (storage : Storage) : Storage :=
  fold_left (fun st key => removeItem key st) ks storage.

(** The calls made on the key-value store of the cloud. *)
Inductive call :=
| Get (key : jsstring)
| SetNull (key : jsstring).

(** The state of the component, the two storages, the calls made on the
    cloud and the IndexedDB databases whose deletion was requested. *)
Record Page := mkPage
  { isClearing : bool;
    clearResult : option jsstring;
    localStorage : Storage;
    sessionStorage : Storage;
    calls : list call;
    deleted : list jsstring }.

Definition has_resume (key : jsstring) : bool := includes (lit "resume") key.
Definition has_resume_or_puter (key : jsstring) : bool :=
  includes (lit "resume") key || includes (lit "puter") key.
Definition has_puter_or_resume (name : jsstring) : bool :=
  includes (lit "puter") name || includes (lit "resume") name.

Definition commonIds : list jsstring := [lit "test"; lit "demo"; lit "sample"].

(** The check mark that opens the messages. *)
Definition check_mark : jsstring := [9989%N].

Section Clear.

(** What the user answers to [confirm]; what [kv.get] resolves to,
    [None] for [null] and [undefined]: [kv.get] and [kv.set] go through
    [safeApiCall] and do not throw. *)
Variable confirm : bool.
Variable kv_get : jsstring -> option jsstring.

(** One turn of the loop over [commonIds]. *)
Definition clear_id (acc : nat * list call) (id : jsstring)
  : nat * list call :=
  let (clearedCount, made) := acc in
  let key := lit "resume:" ++ id in
  match kv_get key with
  | Some (_ :: _) => (S clearedCount, made ++ [Get key; SetNull key])
  | Some [] | None => (clearedCount, made ++ [Get key])
  end.

Definition clearAllResumeData (p : Page) : Page :=
  if negb confirm then p else
  let resumeKeys := filter has_resume (keys (localStorage p)) in
  let local := remove_each resumeKeys (localStorage p) in
  let clearedCount := length resumeKeys in
  let sessionResumeKeys := filter has_resume (keys (sessionStorage p)) in
  let session := remove_each sessionResumeKeys (sessionStorage p) in
  let clearedCount := clearedCount + length sessionResumeKeys in
  let (clearedCount, made) :=
    fold_left clear_id commonIds (clearedCount, calls p) in
  mkPage false
    (Some (check_mark ++ lit " Cleared " ++ decimal clearedCount
           ++ lit " items from storage"))
    local session made (deleted p).

(** [indexedDB.databases()]: the names of the databases, [None] for a
    database without one; no list when the window has no [indexedDB]. *)
Variable indexedDB : option (list (option jsstring)).

(** The function given to [databases.forEach] in the component. *)
Definition delete_guarded (db : option jsstring) : list jsstring :=
  match db with
  | Some (c :: name) =>
      if has_puter_or_resume (c :: name) then [c :: name] else []
  | Some [] | None => []
  end.

Definition clearBrowserStorageOnly (p : Page) : Page :=
  if negb confirm then p else
  let resumeKeys := filter has_resume_or_puter (keys (localStorage p)) in
  let local := remove_each resumeKeys (localStorage p) in
  let sessionResumeKeys :=
    filter has_resume_or_puter (keys (sessionStorage p)) in
  let session := remove_each sessionResumeKeys (sessionStorage p) in
  let requested :=
    match indexedDB with
    | Some databases => flat_map delete_guarded databases
    | None => []
    end in
  mkPage (isClearing p)
    (Some (check_mark
           ++ lit " Browser storage cleared. Please refresh the page."))
    local session (calls p) (deleted p ++ requested).

(** The loop over the databases in the script [clearBrowserData] of
    [puter.ts]: it reads [db.name.includes] without a guard, so that a
    database without a name ends the loop with a [TypeError]. *)
Fixpoint delete_unguarded (databases : list (option jsstring))
  : list jsstring :=
  match databases with
  | [] => []
  | None :: _ => []
  | Some name :: more =>
      (if has_puter_or_resume name then [name] else [])
      ++ delete_unguarded more
  end.

Definition clearBrowserData (p : Page) : Page :=
  let resumeKeys := filter has_resume (keys (localStorage p)) in
  let local := remove_each resumeKeys (localStorage p) in
  let sessionResumeKeys := filter has_resume (keys (sessionStorage p)) in
  let session := remove_each sessionResumeKeys (sessionStorage p) in
  let requested :=
    match indexedDB with
    | Some databases => delete_unguarded databases
    | None => []
    end in
  mkPage (isClearing p) (clearResult p) local session (calls p)
    (deleted p ++ requested).

End Clear.

End Admin.

(* ================================================================== *)
(** * Notions used in the statements *)
(* ================================================================== *)

(** All the characters of [w] are white space. *)
Definition blank (w : jsstring) : Prop := Forall (fun c => is_space c = true) w.

(** The tokenizer states that the tokenizer reaches: inside a word it
    expects letters and will put out the token of a word. *)
Definition word_token (t : token) : Prop :=
  match t with
  | TTrue | TFalse | TNull => True
  | _ => False
  end.

Definition wf_state (st : lstate) : Prop :=
  match st with
  | LWord todo t => Forall (fun c => is_space c = false) todo /\ word_token t
  | _ => True
  end.

Definition is_lbrace (t : token) : bool :=
  match t with TLBrace => true | _ => false end.

(** No object is being read and none is the result. *)
Definition array_frame (f : frame) : Prop :=
  match f with FArray _ => True | FObject _ _ => False end.

Definition no_object (st : pstate) : Prop :=
  Forall array_frame (fst st) /\
  match snd st with PDone (JObject _) => False | _ => True end.

Definition not_an_object (v : value) : Prop :=
  match v with JObject _ => False | _ => True end.

(** The invariant of a FeedbackRecord, in the words of the
    specification: all six scores are numeric, all five sections exist
    with an array of tips, every tip has one of the two kinds and a string
    [tip], and every tip outside [ATS] has a string [explanation]. *)
Definition is_number (v : value) : Prop := exists n, v = JNumber n.
Definition is_string (v : value) : Prop := exists s, v = JString s.
Definition is_kind (v : value) : Prop :=
  v = JString (lit "good") \/ v = JString (lit "improve").

Definition valid_tip (explained : bool) (tip : value) : Prop :=
  exists fields,
    tip = JObject fields /\
    is_kind (lookup (lit "type") fields) /\
    is_string (lookup (lit "tip") fields) /\
    (explained = true -> is_string (lookup (lit "explanation") fields)).

Definition valid_section (explained : bool) (section : value) : Prop :=
  exists fields tips,
    section = JObject fields /\
    is_number (lookup (lit "score") fields) /\
    lookup (lit "tips") fields = JArray tips /\
    Forall (valid_tip explained) tips.

Definition valid_record (v : value) : Prop :=
  exists fields,
    v = JObject fields /\
    is_number (lookup (lit "overallScore") fields) /\
    valid_section false (lookup (lit "ATS") fields) /\
    valid_section true (lookup (lit "toneAndStyle") fields) /\
    valid_section true (lookup (lit "content") fields) /\
    valid_section true (lookup (lit "structure") fields) /\
    valid_section true (lookup (lit "skills") fields).

(** What a greedy star over one character class comes to: the longest
    run first, then shorter ones. *)
Fixpoint star_spec (p : code_unit -> bool) (k : mstate -> option mstate)
  (i : nat) (s : jsstring) (cs : list (nat * jsstring)) : option mstate :=
  match s with
  | c :: s' =>
      if p c then
        match star_spec p k (S i) s' cs with
        | Some m => Some m
        | None => k (mkState i s cs)
        end
      else k (mkState i s cs)
  | [] => k (mkState i [] cs)
  end.

(** The same for a lazy star: the shortest run first. *)
Fixpoint lazy_spec (p : code_unit -> bool) (k : mstate -> option mstate)
  (i : nat) (s : jsstring) (cs : list (nat * jsstring)) : option mstate :=
  match k (mkState i s cs) with
  | Some m => Some m
  | None =>
      match s with
      | c :: s' => if p c then lazy_spec p k (S i) s' cs else None
      | [] => None
      end
  end.

(** What follows the star in [re_object] and in [re_close]. *)
Definition then_rbrace (st : mstate) : option mstate :=
  rmatch (cat [Chr (is_char c_rbrace)]) st Some.
Definition then_fence_end (st : mstate) : option mstate :=
  rmatch (cat [Lit fence; Eol]) st Some.

(** A stage of [parseAIFeedback] recovers a record from [text] when the
    text deserializes to a value that the validator accepts. *)
Definition recovers (text : jsstring) : Prop :=
  exists v, JSON_parse text = Normal v /\
            validateFeedbackStructure v = Normal true.

(** None of the three recovery stages (direct, extraction, repair)
    yields a validating record. *)
Definition no_stage_recovers (rawText : jsstring) : Prop :=
  let processedText := strip_fence (trim rawText) in
  ~ recovers processedText /\
  forall jsonMatch, match0 re_object processedText = Some jsonMatch ->
    ~ recovers jsonMatch /\ ~ recovers (repairJSON jsonMatch).

(** The property [k] of [v] in statements about records. *)
Definition field (k : string) (v : value) : value :=
  match v with
  | JObject fields => lookup (lit k) fields
  | _ => JUndefined
  end.

(** The fixed fallback record, in the words of the specification. *)
Definition explained_tip (diagnostic : jsstring) (tip : value) : Prop :=
  field "type" tip = JString (lit "improve") /\
  field "tip" tip = JString (lit "Manual review needed") /\
  field "explanation" tip
  = JString (diagnostic ++
             lit ". Please try uploading your resume again or contact support if the issue persists.").

Definition retry_tip (tip : value) : Prop :=
  field "type" tip = JString (lit "improve") /\
  field "tip" tip = JString (lit "Upload failed - please try again") /\
  field "explanation" tip = JUndefined.

Definition one_tip (P : value -> Prop) (section : value) : Prop :=
  field "score" section = JNumber (num 50) /\
  exists tip, field "tips" section = JArray [tip] /\ P tip.

Definition is_fallback_record (diagnostic : jsstring) (v : value) : Prop :=
  field "overallScore" v = JNumber (num 50) /\
  one_tip retry_tip (field "ATS" v) /\
  one_tip (explained_tip diagnostic) (field "toneAndStyle" v) /\
  one_tip (explained_tip diagnostic) (field "content" v) /\
  one_tip (explained_tip diagnostic) (field "structure" v) /\
  one_tip (explained_tip diagnostic) (field "skills" v).

(** A record whose six scores are given and whose sections have no tips,
    and the JSON text of one. *)
Definition scored (overall ats tone content structure skills : number)
  : value :=
  let section n := JObject [(lit "score", JNumber n); (lit "tips", JArray [])] in
  JObject
    [(lit "overallScore", JNumber overall);
     (lit "ATS", section ats);
     (lit "toneAndStyle", section tone);
     (lit "content", section content);
     (lit "structure", section structure);
     (lit "skills", section skills)].

Definition sample_text : jsstring :=
  quoted "{'overallScore':82,'ATS':{'score':90,'tips':[]},'toneAndStyle':{'score':70,'tips':[]},'content':{'score':75,'tips':[]},'structure':{'score':80,'tips':[]},'skills':{'score':85,'tips':[]}}".

Definition sample_record : value :=
  scored (num 82) (num 90) (num 70) (num 75) (num 80) (num 85).

Definition odd_scores_text : jsstring :=
  quoted "{'overallScore':-5,'ATS':{'score':0.5,'tips':[]},'toneAndStyle':{'score':1000,'tips':[]},'content':{'score':75,'tips':[]},'structure':{'score':80,'tips':[]},'skills':{'score':85,'tips':[]}}".

(** [t] holds the text [obj] with no opening brace before it and no
    closing brace after it. *)
Definition around (obj t : jsstring) : Prop :=
  exists pre post,
    t = pre ++ obj ++ post /\ ~ In c_lbrace pre /\ ~ In c_rbrace post.

(** [JSON.parse] accepts the text [s], written with apostrophes for
    double quotes. *)
Definition parses (s : string) : bool :=
  match JSON_parse (quoted s) with Normal _ => true | Throw _ => false end.


(** The two clipping steps of [repairJSON], before its replacements:
    from the first opening brace on, and up to the last closing one. *)
Definition clip (repaired : jsstring) : jsstring :=
  let firstBrace := indexOf c_lbrace repaired in
  let repaired :=
    if (firstBrace >? 0)%Z then substring_from firstBrace repaired
    else repaired in
  let lastBrace := lastIndexOf c_rbrace repaired in
  if (lastBrace >=? 0)%Z && (lastBrace <? Z.of_nat (length repaired) - 1)%Z
  then substring_to (lastBrace + 1) repaired
  else repaired.

(** The five replacements of [repairJSON], in its order. *)
Definition replacements (repaired : jsstring) : jsstring :=
  replace_all re_newline by_newline
    (replace_all re_trailing_comma by_trailing_comma
       (replace_all re_adjacent by_adjacent
          (replace_all re_missing_comma by_missing_comma
             (replace_all re_unterminated by_unterminated repaired)))).

(** The value that the automaton of [JSON.parse] has finished, if any,
    is not [undefined]. *)
Definition done_defined (st : pstate) : Prop :=
  match snd st with PDone v => v <> JUndefined | _ => True end.

(** A key-value store that holds one record, under the key of [abc]. *)
Definition stored_record : jsstring :=
  quoted "{'resumePath':'/cv.pdf','imagePath':'/cv.png','feedback':''}".

Definition sample_kv (key : jsstring) : option jsstring :=
  if str_eqb key (lit "resume:abc") then Some stored_record else None.

(** The cloud holds a record for the resume [id]. *)
Definition stored_in_cloud (kv_get : jsstring -> option jsstring)
  (id : jsstring) : bool :=
  match kv_get (lit "resume:" ++ id) with
  | Some (_ :: _) => true
  | Some [] | None => false
  end.

(** The calls on the cloud for the resume [id]: its record is asked for
    and, when there is one, set to [null]. *)
Definition cloud_calls (kv_get : jsstring -> option jsstring)
  (id : jsstring) : list Admin.call :=
  if stored_in_cloud kv_get id
  then [Admin.Get (lit "resume:" ++ id); Admin.SetNull (lit "resume:" ++ id)]
  else [Admin.Get (lit "resume:" ++ id)].

(* ================================================================== *)
(** * Facts about strings *)
(* ================================================================== *)

Module StringFacts.

Lemma str_eqb_refl (a : jsstring) : str_eqb a a = true.
Proof.
  induction a as [|x a IH]; simpl; [reflexivity|].
  now rewrite N.eqb_refl.
Qed.

Lemma str_eqb_eq (a b : jsstring) : str_eqb a b = true <-> a = b.
Proof.
  split.
  - revert b; induction a as [|x a IH]; intros [|y b]; simpl;
      try discriminate; [reflexivity|].
    intros H. apply andb_true_iff in H as [Hx Hab].
    apply N.eqb_eq in Hx. subst. f_equal. now apply IH.
  - intros ->. apply str_eqb_refl.
Qed.

Lemma trimStart_blank (w s : jsstring) :
  blank w -> trimStart (w ++ s) = trimStart s.
Proof.
  induction 1 as [|c w Hc _ IH]; simpl; [reflexivity|].
  now rewrite Hc.
Qed.

Lemma trimStart_cons (c : code_unit) (s : jsstring) :
  is_space c = false -> trimStart (c :: s) = c :: s.
Proof. intros H. simpl. now rewrite H. Qed.

Lemma trimStart_split (s : jsstring) :
  exists w, s = w ++ trimStart s /\ blank w.
Proof.
  induction s as [|c s [w [E Hw]]]; simpl.
  - exists []. split; [reflexivity | constructor].
  - destruct (is_space c) eqn:Hc.
    + exists (c :: w). split; [simpl; now f_equal | now constructor].
    + exists []. split; [reflexivity | constructor].
Qed.

Lemma trimStart_head (s : jsstring) :
  match trimStart s with
  | [] => True
  | c :: _ => is_space c = false
  end.
Proof.
  induction s as [|c s IH]; simpl; [exact I|].
  destruct (is_space c) eqn:Hc; [exact IH | exact Hc].
Qed.

Lemma blank_rev (w : jsstring) : blank w -> blank (rev w).
Proof. unfold blank. intros H. now apply Forall_rev. Qed.

Lemma blank_app (u w : jsstring) : blank u -> blank w -> blank (u ++ w).
Proof. unfold blank. intros. apply Forall_app. now split. Qed.

Lemma trimEnd_blank (s w : jsstring) :
  blank w -> trimEnd (s ++ w) = trimEnd s.
Proof.
  intros H. unfold trimEnd. rewrite rev_app_distr.
  rewrite trimStart_blank; [reflexivity | now apply blank_rev].
Qed.

Lemma trimEnd_snoc (s : jsstring) (c : code_unit) :
  is_space c = false -> trimEnd (s ++ [c]) = s ++ [c].
Proof.
  intros H. unfold trimEnd. rewrite rev_app_distr. simpl.
  rewrite H. simpl. now rewrite rev_involutive.
Qed.

Lemma trimEnd_split (s : jsstring) :
  exists w, s = trimEnd s ++ w /\ blank w.
Proof.
  unfold trimEnd. destruct (trimStart_split (rev s)) as [w [E Hw]].
  exists (rev w). split; [|now apply blank_rev].
  rewrite <- rev_app_distr, <- E. now rewrite rev_involutive.
Qed.

(** A trimmed end is empty or ends with a character that is no space. *)
Lemma trimEnd_last (s : jsstring) :
  trimEnd s = [] \/
  exists u c, trimEnd s = u ++ [c] /\ is_space c = false.
Proof.
  unfold trimEnd. pose proof (trimStart_head (rev s)) as H.
  destruct (trimStart (rev s)) as [|c u]; [now left|].
  right. exists (rev u), c. now split.
Qed.

Lemma In_trimStart (c : code_unit) (s : jsstring) :
  In c (trimStart s) -> In c s.
Proof.
  destruct (trimStart_split s) as [w [E _]]. intros H.
  rewrite E. apply in_or_app. now right.
Qed.

Lemma In_trimEnd (c : code_unit) (s : jsstring) :
  In c (trimEnd s) -> In c s.
Proof.
  destruct (trimEnd_split s) as [w [E _]]. intros H.
  rewrite E. apply in_or_app. now left.
Qed.

Lemma In_trim (c : code_unit) (s : jsstring) : In c (trim s) -> In c s.
Proof. intros H. now apply In_trimStart, In_trimEnd. Qed.

Lemma startsWith_app (p s : jsstring) : startsWith p (p ++ s) = true.
Proof.
  induction p as [|x p IH]; simpl; [reflexivity|].
  now rewrite N.eqb_refl.
Qed.

Lemma startsWith_split (p s : jsstring) :
  startsWith p s = true -> s = p ++ skipn (length p) s.
Proof.
  revert s; induction p as [|x p IH]; intros s H; [reflexivity|].
  destruct s as [|y s]; [discriminate|]. simpl in H.
  apply andb_true_iff in H as [Hx Hp]. apply N.eqb_eq in Hx. subst.
  simpl. f_equal. now apply IH.
Qed.

(** The spaces of ECMAScript, as a proposition. *)
Lemma is_space_spec (c : code_unit) :
  is_space c = true ->
  (9 <= c <= 13 \/ c = 32 \/ c = 160 \/ c = 5760 \/ 8192 <= c <= 8202
   \/ c = 8232 \/ c = 8233 \/ c = 8239 \/ c = 8287 \/ c = 12288
   \/ c = 65279)%N.
Proof.
  unfold is_space. intros H.
  repeat (apply orb_true_iff in H as [H|H]);
    try apply andb_true_iff in H as [H1 H2];
    try apply N.eqb_eq in H;
    try apply N.leb_le in H1; try apply N.leb_le in H2; lia.
Qed.

(** Trimming stops at a character that is no space. *)
Lemma trimStart_app_head (a b : jsstring) (c : code_unit) :
  is_space c = false -> trimStart (a ++ c :: b) = trimStart a ++ c :: b.
Proof.
  intros Hc. induction a as [|x a IH]; simpl.
  - now rewrite Hc.
  - destruct (is_space x); [exact IH | reflexivity].
Qed.

Lemma trimStart_app (a b : jsstring) :
  trimStart a <> [] -> trimStart (a ++ b) = trimStart a ++ b.
Proof.
  induction a as [|x a IH]; simpl; [congruence|].
  destruct (is_space x); [exact IH | reflexivity].
Qed.

Lemma trimEnd_app_last (a b : jsstring) (c : code_unit) :
  is_space c = false -> trimEnd ((a ++ [c]) ++ b) = (a ++ [c]) ++ trimEnd b.
Proof.
  intros Hc. unfold trimEnd. rewrite !rev_app_distr. cbn [rev app].
  rewrite trimStart_app_head by exact Hc.
  rewrite rev_app_distr. cbn [rev]. rewrite rev_involutive.
  reflexivity.
Qed.

(** Cutting a prefix without [c] off a text leaves the first [c] in the
    rest, and the same at the other end. *)
Lemma split_before (c : code_unit) (p x pre rest : jsstring) :
  ~ In c p -> pre ++ c :: rest = p ++ x ->
  exists pre2, pre = p ++ pre2 /\ x = pre2 ++ c :: rest.
Proof.
  revert pre. induction p as [|a p IH]; intros pre Hn E.
  - exists pre. simpl in *. auto.
  - destruct pre as [|b pre]; simpl in E; inversion E; subst.
    + exfalso. apply Hn. now left.
    + destruct (IH pre) as [pre2 [-> ->]]; auto.
      * intros H. apply Hn. now right.
      * exists pre2. auto.
Qed.

Lemma split_after (c : code_unit) (sfx x a post : jsstring) :
  ~ In c sfx -> (a ++ [c]) ++ post = x ++ sfx ->
  exists post2, post = post2 ++ sfx /\ x = (a ++ [c]) ++ post2.
Proof.
  intros Hn E. apply (f_equal (@rev code_unit)) in E.
  rewrite !rev_app_distr in E. cbn [rev app] in E.
  apply split_before in E as [q [E1 E2]].
  - exists (rev q). split.
    + apply (f_equal (@rev code_unit)) in E1.
      rewrite rev_app_distr, !rev_involutive in E1. exact E1.
    + apply (f_equal (@rev code_unit)) in E2.
      rewrite rev_involutive in E2. rewrite E2.
      rewrite rev_app_distr. cbn [rev]. now rewrite rev_involutive.
  - intros H. apply Hn. now apply in_rev.
Qed.

End StringFacts.
Import StringFacts.

(* ================================================================== *)
(** * Facts about [JSON.parse] *)
(* ================================================================== *)

Module JsonFacts.

(** Case analysis on the comparisons of a goal about one character. *)
Ltac compare_chars :=
  repeat match goal with
  | |- context [N.eqb ?a ?b] => destruct (N.eqb_spec a b); [try lia|]
  | |- context [N.leb ?a ?b] => destruct (N.leb_spec a b)
  | |- context [N.ltb ?a ?b] => destruct (N.ltb_spec a b)
  end; simpl.

Lemma space_not_digit (c : code_unit) : is_space c = true -> digit c = None.
Proof.
  intros H. apply is_space_spec in H. unfold digit.
  compare_chars; try reflexivity; lia.
Qed.

Lemma space_not_hex (c : code_unit) : is_space c = true -> hex_digit c = None.
Proof.
  intros H. apply is_space_spec in H. unfold hex_digit.
  compare_chars; try reflexivity; lia.
Qed.

Lemma space_not_escape (c : code_unit) :
  is_space c = true -> c <> 117%N /\ escape c = None.
Proof.
  intros H. apply is_space_spec in H. split; [lia|]. unfold escape.
  compare_chars; reflexivity.
Qed.

(** A white space between tokens is skipped if it is one of the four of
    JSON and refused otherwise. *)
Lemma space_start (c : code_unit) :
  is_space c = true ->
  start_token c = Some (LIdle, []) \/ start_token c = None.
Proof.
  intros H. pose proof (space_not_digit c H) as Hd.
  apply is_space_spec in H. unfold start_token, is_json_space.
  rewrite Hd. compare_chars; auto.
Qed.

Lemma start_token_wf (c : code_unit) (st : lstate) (toks : list token) :
  start_token c = Some (st, toks) -> wf_state st.
Proof.
  unfold start_token.
  repeat match goal with
  | |- context [if ?b then _ else _] => destruct b
  | |- context [match digit ?c with _ => _ end] => destruct (digit c)
  end; intros H; inversion H; subst; simpl; auto.
  all: split; [repeat constructor | exact I].
Qed.

Lemma lex_step_wf (st st' : lstate) (c : code_unit) (toks : list token) :
  wf_state st -> lex_step st c = Some (st', toks) -> wf_state st'.
Proof.
  intros Hwf H. destruct st as [|acc|acc|acc n code|todo t|ph a]; simpl in H.
  - eapply start_token_wf; eauto.
  - repeat match type of H with
    | context [if ?b then _ else _] => destruct b
    end; inversion H; exact I.
  - destruct (c =? 117)%N; [inversion H; exact I|].
    destruct (escape c); inversion H; exact I.
  - destruct (hex_digit c); [|discriminate].
    destruct (Nat.eqb n 3); inversion H; exact I.
  - destruct todo as [|x todo']; [discriminate|].
    destruct (c =? x)%N; [|discriminate].
    destruct Hwf as [Hall Ht].
    destruct todo'; inversion H; subst; simpl; auto.
    split; [now inversion Hall | exact Ht].
  - unfold number_step, end_number in H.
    destruct ph;
    repeat match type of H with
    | context [match digit ?c with _ => _ end] => destruct (digit c)
    | context [match start_token ?c with _ => _ end] =>
        destruct (start_token c) as [[? ?]|] eqn:?
    | context [if ?b then _ else _] => destruct b
    end; inversion H; subst; try exact I; eapply start_token_wf; eauto.
Qed.

(** A white space at the very end of the input adds nothing. *)
Lemma lex_step_space (st st' : lstate) (c : code_unit)
  (toks more : list token) :
  wf_state st -> is_space c = true ->
  lex_step st c = Some (st', toks) -> lex_end st' = Some more ->
  lex_end st = Some (toks ++ more).
Proof.
  intros Hwf Hc H Hend.
  pose proof (space_not_digit c Hc) as Hd.
  pose proof (space_not_hex c Hc) as Hh.
  pose proof (space_not_escape c Hc) as [Hu He].
  pose proof (space_start c Hc) as Hs.
  assert (Hcs : forall x, is_space x = false -> (c =? x)%N = false).
  { intros x Hx. apply N.eqb_neq. intros ->. congruence. }
  destruct st as [|acc|acc|acc n code|todo t|ph a]; simpl in H.
  - destruct Hs as [Hs|Hs]; rewrite Hs in H; inversion H; subst.
    exact Hend.
  - rewrite (Hcs 34%N eq_refl), (Hcs 92%N eq_refl) in H.
    destruct (c <? 32)%N; inversion H; subst. discriminate.
  - apply N.eqb_neq in Hu. rewrite Hu, He in H. discriminate.
  - rewrite Hh in H. discriminate.
  - destruct todo as [|x todo']; [discriminate|].
    destruct Hwf as [Hall _]. inversion Hall; subst.
    rewrite Hcs in H by assumption. discriminate.
  - assert (Hend_number : forall a',
              end_number a' c = Some (st', toks) ->
              st' = LIdle /\ toks = [TNum (acc_number a')]).
    { intros a' E. unfold end_number in E.
      destruct Hs as [Hs|Hs]; rewrite Hs in E; inversion E; auto. }
    unfold number_step, is_e in H. rewrite Hd in H.
    rewrite ?(Hcs 46%N eq_refl), ?(Hcs 101%N eq_refl),
      ?(Hcs 69%N eq_refl), ?(Hcs 43%N eq_refl), ?(Hcs 45%N eq_refl) in H.
    simpl in H.
    destruct ph; try discriminate;
      apply Hend_number in H as [-> ->]; simpl in Hend;
      inversion Hend; reflexivity.
Qed.

Lemma lex_from_snoc_space (s : jsstring) (c : code_unit) :
  is_space c = true ->
  forall st toks, wf_state st ->
    lex_from st (s ++ [c]) = Some toks -> lex_from st s = Some toks.
Proof.
  intros Hc. induction s as [|x s IH]; intros st toks Hwf H; simpl in *.
  - destruct (lex_step st c) as [[st' t]|] eqn:E; [|discriminate].
    destruct (lex_end st') as [more|] eqn:E'; [|discriminate].
    inversion H; subst. eapply lex_step_space; eauto.
  - destruct (lex_step st x) as [[st' t]|] eqn:E; [|discriminate].
    destruct (lex_from st' (s ++ [c])) as [more|] eqn:E'; [|discriminate].
    erewrite IH; eauto. eapply lex_step_wf; eauto.
Qed.

Lemma lex_trimStart (s : jsstring) (toks : list token) :
  lex s = Some toks -> lex (trimStart s) = Some toks.
Proof.
  unfold lex. induction s as [|c s IH]; simpl; [auto|].
  destruct (is_space c) eqn:Hc; [|auto].
  intros H. apply IH.
  destruct (space_start c Hc) as [Hs|Hs]; rewrite Hs in H; [|discriminate].
  destruct (lex_from LIdle s); inversion H; reflexivity.
Qed.

Lemma lex_trimEnd (s : jsstring) (toks : list token) :
  lex s = Some toks -> lex (trimEnd s) = Some toks.
Proof.
  unfold trimEnd. rewrite <- (rev_involutive s) at 1.
  induction (rev s) as [|c r IH]; simpl; [auto|].
  intros H. destruct (is_space c) eqn:Hc; [|exact H].
  apply IH. unfold lex in *. eapply lex_from_snoc_space; eauto. exact I.
Qed.

Lemma lex_trim (s : jsstring) (toks : list token) :
  lex s = Some toks -> lex (trim s) = Some toks.
Proof. intros H. unfold trim. now apply lex_trimEnd, lex_trimStart. Qed.

(** Text that [JSON.parse] accepts is accepted, with the same value,
    once trimmed. *)
Lemma JSON_parse_trim (s : jsstring) (v : value) :
  JSON_parse s = Normal v -> JSON_parse (trim s) = Normal v.
Proof.
  unfold JSON_parse. destruct (lex s) as [toks|] eqn:E; [|discriminate].
  now rewrite (lex_trim s toks E).
Qed.

(** Such text does not start with a backquote. *)
Lemma JSON_parse_no_fence (s : jsstring) (v : value) :
  JSON_parse s = Normal v -> startsWith fence s = false.
Proof.
  intros H. destruct (startsWith fence s) eqn:F; [|reflexivity].
  apply startsWith_split in F. rewrite F in H.
  unfold JSON_parse, lex in H. simpl in H. discriminate.
Qed.

(** An opening brace among the tokens comes from one in the text. *)
Lemma start_token_lbrace (c : code_unit) (st : lstate) (toks : list token) :
  start_token c = Some (st, toks) -> existsb is_lbrace toks = true ->
  c = c_lbrace.
Proof.
  unfold start_token. destruct (is_json_space c).
  { intros H; inversion H; subst; discriminate. }
  destruct (N.eqb_spec c 123); [auto|].
  repeat match goal with
  | |- context [if ?b then _ else _] => destruct b
  | |- context [match digit ?c with _ => _ end] => destruct (digit c)
  end; intros H; inversion H; subst; discriminate.
Qed.

Lemma lex_step_lbrace (st st' : lstate) (c : code_unit) (toks : list token) :
  wf_state st -> lex_step st c = Some (st', toks) ->
  existsb is_lbrace toks = true -> c = c_lbrace.
Proof.
  intros Hwf H Hb. destruct st as [|acc|acc|acc n code|todo t|ph a]; simpl in H.
  - eapply start_token_lbrace; eauto.
  - repeat match type of H with
    | context [if ?b then _ else _] => destruct b
    end; inversion H; subst; discriminate.
  - destruct (c =? 117)%N; [inversion H; subst; discriminate|].
    destruct (escape c); inversion H; subst; discriminate.
  - destruct (hex_digit c); [|discriminate].
    destruct (Nat.eqb n 3); inversion H; subst; discriminate.
  - destruct todo as [|x todo']; [discriminate|].
    destruct (c =? x)%N; [|discriminate].
    destruct Hwf as [_ Ht].
    destruct todo'; inversion H; subst; [|discriminate].
    destruct t; simpl in Ht; try contradiction; discriminate.
  - unfold number_step, end_number in H.
    destruct ph;
    repeat match type of H with
    | context [match digit ?c with _ => _ end] => destruct (digit c)
    | context [match start_token ?c with _ => _ end] =>
        destruct (start_token c) as [[? ?]|] eqn:?
    | context [if ?b then _ else _] => destruct b
    end; inversion H; subst; try discriminate;
    simpl in Hb; eapply start_token_lbrace; eauto.
Qed.

Lemma lex_from_lbrace (s : jsstring) :
  forall st toks, wf_state st -> lex_from st s = Some toks ->
    existsb is_lbrace toks = true -> In c_lbrace s.
Proof.
  induction s as [|c s IH]; intros st toks Hwf H Hb; simpl in H.
  - destruct st as [| | | | |ph a]; try discriminate.
    + inversion H; subst; discriminate.
    + destruct ph; inversion H; subst; discriminate.
  - destruct (lex_step st c) as [[st' t]|] eqn:E; [|discriminate].
    destruct (lex_from st' s) as [more|] eqn:E'; [|discriminate].
    inversion H; subst. rewrite existsb_app in Hb.
    apply orb_true_iff in Hb as [Hb|Hb].
    + left. eapply lex_step_lbrace; eauto.
    + right. apply (IH st' more); auto. eapply lex_step_wf; eauto.
Qed.

(** Without an opening brace among the tokens the automaton never opens
    an object, and so never completes one. *)
Lemma push_value_no_object (stack : list frame) (v : value) (st : pstate) :
  Forall array_frame stack -> not_an_object v ->
  push_value stack v = Some st -> no_object st.
Proof.
  intros Hs Hv H. destruct stack as [|[items|fields key] up]; simpl in H.
  - inversion H; subst. split; [constructor | destruct v; auto].
  - inversion H; subst. inversion Hs; subst.
    split; [constructor; auto | exact I].
  - inversion Hs; subst. contradiction.
Qed.

Lemma pstep_no_object (st st' : pstate) (t : token) :
  is_lbrace t = false -> no_object st -> pstep st t = Some st' ->
  no_object st'.
Proof.
  intros Ht [Hs Hm] H. destruct st as [stack mode]. simpl in Hs, Hm.
  assert (Hvalue : forall st'', value_token stack t = Some st'' ->
                                no_object st'').
  { intros st'' E. destruct t; simpl in E; try discriminate;
      try (eapply push_value_no_object; eauto; exact I).
    inversion E; subst. split; [constructor; simpl; auto | exact I]. }
  assert (Hkey : forall st'', key_token stack t = Some st'' -> False).
  { intros st'' E. destruct t; simpl in E; try discriminate.
    destruct stack as [|[items|fields [k|]] up]; try discriminate.
    inversion Hs; subst. contradiction. }
  assert (Harr : forall st'', close_array stack = Some st'' ->
                              no_object st'').
  { intros st'' E. destruct stack as [|[items|fields key] up];
      simpl in E; try discriminate.
    inversion Hs; subst. eapply push_value_no_object; eauto. exact I. }
  assert (Hobj : forall st'', close_object stack = Some st'' -> False).
  { intros st'' E. destruct stack as [|[items|fields key] up];
      simpl in E; try discriminate.
    inversion Hs; subst. contradiction. }
  simpl in H. destruct mode; try discriminate.
  - auto.
  - destruct t; auto.
  - destruct t; try (exfalso; eauto; fail).
  - exfalso; eauto.
  - destruct t; try discriminate. inversion H; subst. split; simpl; auto.
  - destruct t; try discriminate; auto.
    + exfalso; eauto.
    + destruct stack as [|[items|fields key] up]; try discriminate;
        inversion H; subst; split; simpl; auto.
Qed.

Lemma prun_no_object (toks : list token) :
  forall st st', existsb is_lbrace toks = false -> no_object st ->
    prun st toks = Some st' -> no_object st'.
Proof.
  induction toks as [|t toks IH]; intros st st' Hb Hst H; simpl in H.
  - now inversion H; subst.
  - simpl in Hb. apply orb_false_iff in Hb as [Ht Hb].
    destruct (pstep st t) as [st1|] eqn:E; [|discriminate].
    apply (IH st1 st'); auto. eapply pstep_no_object; eauto.
Qed.

(** The text of an object holds an opening brace. *)
Lemma JSON_parse_object_brace (s : jsstring) (fields : list (jsstring * value)) :
  JSON_parse s = Normal (JObject fields) -> In c_lbrace s.
Proof.
  unfold JSON_parse, lex, parse_tokens.
  destruct (lex_from LIdle s) as [toks|] eqn:E; [|discriminate].
  destruct (prun ([], PValue) toks) as [[stack mode]|] eqn:P; [|discriminate].
  destruct mode; try discriminate. intros H. inversion H; subst.
  destruct (existsb is_lbrace toks) eqn:Hb.
  - eapply lex_from_lbrace; eauto. exact I.
  - exfalso. eapply prun_no_object in P; eauto.
    + destruct P as [_ P]. exact P.
    + split; simpl; auto.
Qed.

End JsonFacts.
Import JsonFacts.

(* ================================================================== *)
(** * Facts about [validateFeedbackStructure] *)
(* ================================================================== *)

Module ValidatorFacts.

Ltac split_ifs :=
  repeat match goal with
  | |- context [if ?b then _ else _] => destruct b
  end.

Lemma check_tip_total (section : jsstring) (tip : value) :
  exists b, check_tip section tip = Normal b.
Proof.
  unfold check_tip.
  destruct tip; simpl; eauto; split_ifs; simpl; eauto; split_ifs; eauto.
Qed.

Lemma check_tips_total (section : jsstring) (tips : list value) :
  exists b, check_tips section tips = Normal b.
Proof.
  induction tips as [|tip tips [b IH]]; simpl; [eauto|].
  destruct (check_tip_total section tip) as [ok ->]. simpl.
  destruct ok; eauto.
Qed.

Lemma check_section_total (obj : value) (section : jsstring) :
  truthy obj = true -> type_eq obj TyObject = true ->
  exists b, check_section obj section = Normal b.
Proof.
  intros Ht Ho. unfold check_section.
  assert (Hget : exists sec, get obj section = Normal sec).
  { destruct obj; try discriminate; simpl; eauto. }
  destruct Hget as [sec ->]. simpl.
  destruct (negb (truthy sec) || negb (type_eq sec TyObject)) eqn:E; [eauto|].
  apply orb_false_iff in E as [E1 E2].
  assert (Hscore : exists x, get sec (lit "score") = Normal x).
  { destruct sec; try discriminate; simpl; eauto. }
  destruct Hscore as [score ->]. simpl.
  destruct (negb (type_eq score TyNumber)); [eauto|].
  assert (Htips : exists x, get sec (lit "tips") = Normal x).
  { destruct sec; try discriminate; simpl; eauto. }
  destruct Htips as [tips ->]. simpl.
  destruct tips; simpl; eauto. apply check_tips_total.
Qed.

Lemma check_sections_total (obj : value) (names : list jsstring) :
  truthy obj = true -> type_eq obj TyObject = true ->
  exists b, check_sections obj names = Normal b.
Proof.
  intros Ht Ho. induction names as [|section names [b IH]]; simpl; [eauto|].
  destruct (check_section_total obj section Ht Ho) as [ok ->]. simpl.
  destruct ok; eauto.
Qed.

Lemma validate_total (v : value) :
  exists b, validateFeedbackStructure v = Normal b.
Proof.
  unfold validateFeedbackStructure.
  destruct (negb (truthy v) || negb (type_eq v TyObject)) eqn:E; [eauto|].
  apply orb_false_iff in E as [E1 E2].
  apply negb_false_iff in E1, E2.
  assert (Hget : exists x, get v (lit "overallScore") = Normal x).
  { destruct v; try discriminate; simpl; eauto. }
  destruct Hget as [overall ->]. cbn [bind].
  destruct (negb (type_eq overall TyNumber)); [eauto|].
  now apply check_sections_total.
Qed.

Lemma type_eq_number (v : value) :
  type_eq v TyNumber = true <-> is_number v.
Proof.
  split.
  - destruct v; try discriminate. intros _. now exists n.
  - intros [n ->]. reflexivity.
Qed.

Lemma type_eq_string (v : value) :
  type_eq v TyString = true <-> is_string v.
Proof.
  split.
  - destruct v; try discriminate. intros _. now exists s.
  - intros [s ->]. reflexivity.
Qed.

Lemma kind_check (v : value) :
  existsb (fun s => is_string_lit s v) [lit "good"; lit "improve"] = true
  <-> is_kind v.
Proof.
  unfold is_kind. cbn [existsb]. rewrite orb_false_r, orb_true_iff.
  destruct v; cbn [is_string_lit];
    try (split; intros [H|H]; discriminate).
  rewrite !str_eqb_eq.
  split; intros [H|H]; [left|right|left|right]; congruence.
Qed.

Lemma check_tip_spec (section : jsstring) (tip : value) :
  check_tip section tip = Normal true <->
  valid_tip (negb (str_eqb section (lit "ATS"))) tip.
Proof.
  unfold check_tip, valid_tip.
  destruct tip as [| |b|n|s|items|fields];
    cbn [truthy type_eq typeof jstype_eqb negb orb get bind existsb is_string_lit];
    rewrite ?orb_true_r;
    try (split; [discriminate | intros [f [H _]]; discriminate]).
  rewrite orb_false_r.
  pose proof (kind_check (lookup (lit "type") fields)) as Hk.
  pose proof (type_eq_string (lookup (lit "tip") fields)) as Ht.
  pose proof (type_eq_string (lookup (lit "explanation") fields)) as He.
  cbn [existsb] in Hk. rewrite orb_false_r in Hk.
  unfold type_eq in *.
  destruct (is_string_lit (lit "good") (lookup (lit "type") fields)
            || is_string_lit (lit "improve") (lookup (lit "type") fields)) eqn:Ek;
    cbn [negb].
  2:{ split; [discriminate|]. intros [f [E [K _]]]. inversion E; subst.
      apply Hk in K. discriminate. }
  destruct (jstype_eqb (typeof (lookup (lit "tip") fields)) TyString) eqn:Et; cbn [negb].
  2:{ split; [discriminate|]. intros [f [E [_ [T _]]]]. inversion E; subst.
      apply Ht in T. discriminate. }
  destruct (negb (str_eqb section (lit "ATS"))) eqn:Es.
  + destruct (jstype_eqb (typeof (lookup (lit "explanation") fields)) TyString) eqn:Ee;
      cbn [negb].
    * split; [intros _|reflexivity].
      exists fields. repeat split; try tauto.
    * split; [discriminate|].
      intros [f [E [_ [_ X]]]]. inversion E; subst.
      specialize (X eq_refl). apply He in X. discriminate.
  + split; [intros _|reflexivity].
    exists fields. repeat split; try tauto. discriminate.
Qed.

Lemma check_tips_spec (section : jsstring) (tips : list value) :
  check_tips section tips = Normal true <->
  Forall (valid_tip (negb (str_eqb section (lit "ATS")))) tips.
Proof.
  induction tips as [|tip tips IH]; cbn [check_tips].
  - split; [constructor | reflexivity].
  - destruct (check_tip_total section tip) as [ok E].
    pose proof (check_tip_spec section tip) as Hs.
    rewrite E in *. cbn [bind]. destruct ok.
    + rewrite IH. split.
      * intros H. constructor; [now apply Hs | exact H].
      * intros H. now inversion H.
    + split; [discriminate|]. intros H. inversion H; subst.
      apply Hs in H2. discriminate.
Qed.

Lemma check_section_spec (fields : list (jsstring * value))
  (section : jsstring) :
  check_section (JObject fields) section = Normal true <->
  valid_section (negb (str_eqb section (lit "ATS"))) (lookup section fields).
Proof.
  unfold check_section, valid_section. cbn [get bind].
  destruct (lookup section fields) as [| |b|n|s|items|sf];
    cbn [truthy type_eq typeof jstype_eqb negb orb get bind isArray elements];
    rewrite ?orb_true_r;
    try (split; [discriminate | intros [f [t [H _]]]; discriminate]).
  pose proof (type_eq_number (lookup (lit "score") sf)) as Hn.
  unfold type_eq in *.
  destruct (jstype_eqb (typeof (lookup (lit "score") sf)) TyNumber) eqn:En;
    cbn [negb].
  2:{ split; [discriminate|]. intros [f [t [E [N _]]]]. inversion E; subst.
      apply Hn in N. discriminate. }
  destruct (lookup (lit "tips") sf) as [| |b|n|s|items|tf] eqn:Et;
    cbn [isArray negb elements bind];
    try (split; [discriminate
                | intros [f [t [E [_ [T _]]]]]; inversion E; subst;
                  congruence]).
  rewrite check_tips_spec. split.
  - intros H. exists sf, items. repeat split; auto. now apply Hn.
  - intros [f [t [E [_ [T H]]]]]. inversion E; subst.
    rewrite Et in T. now inversion T; subst.
Qed.

(** The validator accepts exactly the records of the invariant. *)
Lemma validate_spec (v : value) :
  validateFeedbackStructure v = Normal true <-> valid_record v.
Proof.
  unfold validateFeedbackStructure, valid_record.
  destruct v as [| |b|n|s|items|fields];
    cbn [truthy type_eq typeof jstype_eqb negb orb get bind];
    rewrite ?orb_true_r;
    try (split; [discriminate | intros [f [H _]]; discriminate]).
  pose proof (type_eq_number (lookup (lit "overallScore") fields)) as Hn.
  unfold type_eq in *.
  destruct (jstype_eqb (typeof (lookup (lit "overallScore") fields)) TyNumber)
    eqn:En; cbn [negb].
  2:{ split; [discriminate|]. intros [f [E [N _]]]. inversion E; subst.
      apply Hn in N. discriminate. }
  unfold sections. cbn [check_sections].
  pose proof (check_section_spec fields (lit "ATS")) as H1.
  pose proof (check_section_spec fields (lit "toneAndStyle")) as H2.
  pose proof (check_section_spec fields (lit "content")) as H3.
  pose proof (check_section_spec fields (lit "structure")) as H4.
  pose proof (check_section_spec fields (lit "skills")) as H5.
  change (negb (str_eqb (lit "ATS") (lit "ATS"))) with false in H1.
  change (negb (str_eqb (lit "toneAndStyle") (lit "ATS"))) with true in H2.
  change (negb (str_eqb (lit "content") (lit "ATS"))) with true in H3.
  change (negb (str_eqb (lit "structure") (lit "ATS"))) with true in H4.
  change (negb (str_eqb (lit "skills") (lit "ATS"))) with true in H5.
  assert (Hobj : truthy (JObject fields) = true) by reflexivity.
  assert (Hty : type_eq (JObject fields) TyObject = true) by reflexivity.
  destruct (check_section_total (JObject fields) (lit "ATS") Hobj Hty)
    as [b1 E1].
  destruct (check_section_total (JObject fields) (lit "toneAndStyle") Hobj Hty)
    as [b2 E2].
  destruct (check_section_total (JObject fields) (lit "content") Hobj Hty)
    as [b3 E3].
  destruct (check_section_total (JObject fields) (lit "structure") Hobj Hty)
    as [b4 E4].
  destruct (check_section_total (JObject fields) (lit "skills") Hobj Hty)
    as [b5 E5].
  rewrite E1, E2, E3, E4, E5 in *. cbn [bind].
  split.
  - intros H. exists fields.
    destruct b1; [|discriminate]. destruct b2; [|discriminate].
    destruct b3; [|discriminate]. destruct b4; [|discriminate].
    destruct b5; [|discriminate].
    repeat split; try tauto; now apply Hn.
  - intros [f [E [_ [S1 [S2 [S3 [S4 S5]]]]]]]. inversion E; subst.
    apply H1 in S1. apply H2 in S2. apply H3 in S3. apply H4 in S4.
    apply H5 in S5.
    inversion S1; inversion S2; inversion S3; inversion S4; inversion S5.
    reflexivity.
Qed.

Lemma validate_object (v : value) :
  validateFeedbackStructure v = Normal true ->
  exists fields, v = JObject fields.
Proof.
  intros H. apply validate_spec in H as [fields [E _]]. eauto.
Qed.

End ValidatorFacts.
Import ValidatorFacts.

(* ================================================================== *)
(** * Facts about the patterns of [parseAIFeedback] *)
(* ================================================================== *)

Module RegexFacts.

Lemma star_loop_chr (p : code_unit -> bool) (k : mstate -> option mstate) :
  forall n st, length (rest st) <= n ->
    star_loop true (rmatch (Chr p)) k n st
    = star_spec p k (pos st) (rest st) (caps st).
Proof.
  induction n as [|n IH]; intros [i s cs] Hn; simpl in Hn.
  - destruct s; [reflexivity | simpl in Hn; lia].
  - destruct s as [|c s]; [reflexivity|]. simpl in Hn.
    cbn [star_loop rmatch rest pos caps star_spec].
    destruct (p c); [|reflexivity].
    replace (i <? S i) with true by (symmetry; apply Nat.ltb_lt; lia).
    fold (star_loop true (rmatch (Chr p)) k).
    rewrite IH by (simpl; lia). reflexivity.
Qed.

Lemma star_loop_chr_lazy (p : code_unit -> bool)
  (k : mstate -> option mstate) :
  forall n st, length (rest st) <= n ->
    star_loop false (rmatch (Chr p)) k n st
    = lazy_spec p k (pos st) (rest st) (caps st).
Proof.
  induction n as [|n IH]; intros [i s cs] Hn; simpl in Hn.
  - destruct s; [|simpl in Hn; lia]. cbn [star_loop rest pos caps].
    simpl. now destruct (k (mkState i [] cs)).
  - destruct s as [|c s].
    + simpl. now destruct (k (mkState i [] cs)).
    + simpl in Hn. cbn [star_loop rmatch rest pos caps lazy_spec].
      destruct (k (mkState i (c :: s) cs)); [reflexivity|].
      destruct (p c); [|reflexivity].
      replace (i <? S i) with true by (symmetry; apply Nat.ltb_lt; lia).
      fold (star_loop false (rmatch (Chr p)) k).
      rewrite IH by (simpl; lia). reflexivity.
Qed.

(** Every quantifier of the sources is over one character class, so the
    bound on the iterations, the length of the input, never cuts a match
    short: any larger bound gives the same result. *)
Lemma star_loop_bound (greedy : bool) (p : code_unit -> bool)
  (k : mstate -> option mstate) (n m : nat) (st : mstate) :
  length (rest st) <= n -> length (rest st) <= m ->
  star_loop greedy (rmatch (Chr p)) k n st
  = star_loop greedy (rmatch (Chr p)) k m st.
Proof.
  intros Hn Hm. destruct greedy.
  - now rewrite !star_loop_chr.
  - now rewrite !star_loop_chr_lazy.
Qed.

Lemma rmatch_star_chr (p : code_unit -> bool) (k : mstate -> option mstate)
  (st : mstate) :
  rmatch (Star true (Chr p)) st k
  = star_spec p k (pos st) (rest st) (caps st).
Proof. cbn [rmatch]. now apply star_loop_chr. Qed.

Lemma rmatch_lit (p s : jsstring) (k : mstate -> option mstate) :
  forall i cs,
    rmatch (Lit p) (mkState i (p ++ s) cs) k
    = k (mkState (i + length p) s cs).
Proof.
  induction p as [|x p IH]; intros i cs; simpl.
  - now rewrite Nat.add_0_r.
  - unfold is_char. rewrite N.eqb_refl.
    unfold Lit in IH. rewrite IH. f_equal. f_equal. lia.
Qed.

(** A greedy run of white space with nothing to follow takes all of it. *)
Lemma star_space_all (s : jsstring) :
  forall i cs, exists j,
    star_spec is_space Some i s cs = Some (mkState j (trimStart s) cs).
Proof.
  induction s as [|c s IH]; intros i cs; simpl.
  - now exists i.
  - destruct (is_space c).
    + destruct (IH (S i) cs) as [j ->]. now exists j.
    + now exists i.
Qed.

Lemma search_here (r : regex) (i : nat) (s : jsstring) (m : mstate) :
  match_at r i s = Some m -> search r i s = Some ([], m).
Proof. intros H. destruct s; simpl; now rewrite H. Qed.

Lemma search_sound (r : regex) (s : jsstring) :
  forall i b m, search r i s = Some (b, m) ->
    exists t, s = b ++ t /\ match_at r (i + length b) t = Some m.
Proof.
  induction s as [|c s IH]; intros i b m H; simpl in H.
  - destruct (match_at r i []) eqn:E; [|discriminate].
    inversion H; subst. exists []. simpl. now rewrite Nat.add_0_r.
  - destruct (match_at r i (c :: s)) eqn:E.
    + inversion H; subst. exists (c :: s). simpl. now rewrite Nat.add_0_r.
    + destruct (search r (S i) s) as [[b' m']|] eqn:E'; [|discriminate].
      inversion H; subst. destruct (IH _ _ _ E') as [t [-> Ht]].
      exists t. split; [reflexivity|]. simpl.
      now replace (i + S (length b')) with (S i + length b') by lia.
Qed.

(** The search stops at the first index where the pattern matches. *)
Lemma search_leftmost (r : regex) (b0 t : jsstring) (m0 : mstate) :
  forall i, match_at r (i + length b0) t = Some m0 ->
    exists b m, search r i (b0 ++ t) = Some (b, m) /\ length b <= length b0.
Proof.
  induction b0 as [|c b0 IH]; intros i H; simpl in *.
  - rewrite Nat.add_0_r in H. exists [], m0.
    split; [now apply search_here | simpl; lia].
  - destruct (match_at r i (c :: b0 ++ t)) eqn:E.
    + exists [], m. split; [reflexivity | simpl; lia].
    + replace (i + S (length b0)) with (S i + length b0) in H by lia.
      destruct (IH _ H) as [b [m [-> Hb]]].
      exists (c :: b), m. split; [reflexivity | simpl; lia].
Qed.

(** [s.replace(/^p\s*/, '')] on a string that starts with [p]. *)
Lemma replace_open_app (p t : jsstring) :
  replace (cat [Bol; Lit p; Star true ws]) [] (p ++ t) = trimStart t.
Proof.
  unfold replace.
  assert (H : exists j,
             match_at (cat [Bol; Lit p; Star true ws]) 0 (p ++ t)
             = Some (mkState j (trimStart t) [])).
  { unfold match_at. cbn [cat fold_right rmatch pos Nat.eqb].
    rewrite rmatch_lit. cbv beta. unfold ws.
    rewrite star_loop_chr by (simpl; lia). cbn [pos rest caps].
    apply star_space_all. }
  destruct H as [j H]. rewrite (search_here _ _ _ _ H). reflexivity.
Qed.

Lemma replace_open (p s : jsstring) :
  startsWith p s = true ->
  replace (cat [Bol; Lit p; Star true ws]) [] s
  = trimStart (skipn (length p) s).
Proof.
  intros H. apply startsWith_split in H.
  rewrite H at 1. apply replace_open_app.
Qed.

Lemma rmatch_lit_inv (p : jsstring) (k : mstate -> option mstate) :
  forall i s cs m,
    rmatch (Lit p) (mkState i s cs) k = Some m ->
    exists s', s = p ++ s' /\ k (mkState (i + length p) s' cs) = Some m.
Proof.
  induction p as [|x p IH]; intros i s cs m H; simpl in H.
  - exists s. simpl. now rewrite Nat.add_0_r.
  - destruct s as [|c s]; [discriminate|].
    unfold is_char in H. destruct (N.eqb_spec x c) as [<-|]; [|discriminate].
    apply IH in H as [s' [-> H]]. exists s'. split; [reflexivity|].
    simpl. now replace (i + S (length p)) with (S i + length p) by lia.
Qed.

Lemma then_fence_end_spec (st m : mstate) :
  then_fence_end st = Some m <->
  rest st = fence /\ m = mkState (pos st + 3) [] (caps st).
Proof.
  destruct st as [i u cs]. unfold then_fence_end.
  change (rmatch (cat [Lit fence; Eol]) (mkState i u cs) Some)
    with (rmatch (Lit fence) (mkState i u cs)
            (fun st' => rmatch (Seq Eol Eps) st' Some)).
  cbn [rest pos caps]. split.
  - intros H. apply rmatch_lit_inv in H as [s' [-> H]].
    cbn [rmatch rest] in H. destruct s'; [|discriminate].
    inversion H. rewrite app_nil_r. auto.
  - intros [-> ->].
    pose proof (rmatch_lit fence []
                  (fun st' => rmatch (Seq Eol Eps) st' Some) i cs) as H.
    rewrite app_nil_r in H. rewrite H. reflexivity.
Qed.

Lemma rmatch_seq (a b : regex) (st : mstate) (k : mstate -> option mstate) :
  rmatch (Seq a b) st k = rmatch a st (fun st' => rmatch b st' k).
Proof. reflexivity. Qed.

Lemma match_at_close (i : nat) (t : jsstring) :
  match_at re_close i t = star_spec is_space then_fence_end i t [].
Proof.
  unfold match_at, re_close, ws.
  change (cat [Star true (Chr is_space); Lit fence; Eol])
    with (Seq (Star true (Chr is_space)) (cat [Lit fence; Eol])).
  rewrite rmatch_seq, rmatch_star_chr. reflexivity.
Qed.

Lemma close_sound (t : jsstring) :
  forall i cs m, star_spec is_space then_fence_end i t cs = Some m ->
    exists w, t = w ++ fence /\ blank w /\ rest m = [].
Proof.
  assert (Hk : forall i u cs m,
             then_fence_end (mkState i u cs) = Some m ->
             exists w, u = w ++ fence /\ blank w /\ rest m = []).
  { intros i u cs m H. apply then_fence_end_spec in H as [H ->].
    simpl in H. exists []. repeat split; auto. constructor. }
  induction t as [|c t IH]; intros i cs m H; simpl in H; [eauto|].
  destruct (is_space c) eqn:Hc; [|eauto].
  destruct (star_spec is_space then_fence_end (S i) t cs) eqn:E; [|eauto].
  inversion H; subst.
  destruct (IH _ _ _ E) as [w [-> [Hw Hm]]].
  exists (c :: w). repeat split; auto. now constructor.
Qed.

Lemma close_complete (w : jsstring) :
  blank w ->
  forall i cs, exists m,
    star_spec is_space then_fence_end i (w ++ fence) cs = Some m.
Proof.
  induction 1 as [|c w Hc _ IH]; intros i cs.
  - exists (mkState (i + 3) [] cs). simpl.
    now apply then_fence_end_spec.
  - simpl. rewrite Hc. destruct (IH (S i) cs) as [m ->]. now exists m.
Qed.

(** [s.replace(/\s*BBB$/, '')] takes nothing away, or a closing fence and
    the white space before it. *)
Lemma replace_close_cases (s : jsstring) :
  replace re_close [] s = s \/
  exists w, s = replace re_close [] s ++ w ++ fence /\ blank w.
Proof.
  unfold replace. destruct (search re_close 0 s) as [[b m]|] eqn:E;
    [right | now left].
  apply search_sound in E as [t [-> Ht]].
  rewrite match_at_close in Ht.
  apply close_sound in Ht as [w [-> [Hw ->]]].
  exists w. simpl. rewrite app_nil_r. now split.
Qed.

Lemma blank_last (u w : jsstring) (c : code_unit) :
  blank (u ++ c :: w) -> is_space c = true.
Proof.
  intros H. apply Forall_app in H as [_ H]. now inversion H.
Qed.

Lemma replace_close_exact (body w : jsstring) :
  blank w ->
  (body = [] \/ exists u c, body = u ++ [c] /\ is_space c = false) ->
  replace re_close [] (body ++ w ++ fence) = body.
Proof.
  intros Hw Hbody.
  destruct (close_complete w Hw (0 + length body) []) as [m0 Hm0].
  rewrite <- match_at_close in Hm0.
  destruct (search_leftmost _ _ _ _ _ Hm0) as [b [m [E Hlen]]].
  unfold replace. rewrite E.
  apply search_sound in E as [t [Hs Ht]].
  rewrite match_at_close in Ht.
  apply close_sound in Ht as [w' [-> [Hw' ->]]].
  simpl. rewrite app_nil_r.
  rewrite !app_assoc in Hs. apply app_inv_tail in Hs.
  destruct Hbody as [->|[u [c [-> Hc]]]].
  - simpl in Hlen. destruct b; [reflexivity | simpl in Hlen; lia].
  - assert (Hsplit : exists x, u ++ [c] = b ++ x /\ w' = x ++ w).
    { clear - Hs Hlen. revert b Hs Hlen.
      induction (u ++ [c]) as [|y l IH]; intros b Hs Hlen.
      - destruct b; [|simpl in Hlen; lia]. exists []. simpl in *. auto.
      - destruct b as [|z b].
        + exists (y :: l). simpl in *. auto.
        + simpl in *. inversion Hs; subst.
          destruct (IH b H1 ltac:(lia)) as [x [-> ->]].
          exists x. auto. }
    destruct Hsplit as [x [Hx ->]].
    destruct x as [|x0 x] using rev_ind.
    + now rewrite app_nil_r in Hx.
    + rewrite app_assoc in Hx. apply app_inj_tail in Hx as [_ <-].
      rewrite <- app_assoc in Hw'. simpl in Hw'.
      apply blank_last in Hw'. congruence.
Qed.

Lemma then_rbrace_cons (i : nat) (c : code_unit) (s : jsstring)
  (cs : list (nat * jsstring)) :
  then_rbrace (mkState i (c :: s) cs)
  = if N.eqb c_rbrace c then Some (mkState (S i) s cs) else None.
Proof. reflexivity. Qed.

(** A greedy [[\s\S]*] before a closing brace runs to the last one. *)
Lemma star_any_none (s : jsstring) :
  ~ In c_rbrace s ->
  forall i cs, star_spec any_char then_rbrace i s cs = None.
Proof.
  induction s as [|c s IH]; intros Hn i cs; [reflexivity|].
  cbn [star_spec any_char]. rewrite IH by (intros H; apply Hn; now right).
  rewrite then_rbrace_cons.
  destruct (N.eqb_spec c_rbrace c) as [E|]; [|reflexivity].
  exfalso. apply Hn. now left.
Qed.

Lemma star_any_last (mid post : jsstring) :
  ~ In c_rbrace post ->
  forall i cs,
    star_spec any_char then_rbrace i (mid ++ c_rbrace :: post) cs
    = Some (mkState (i + length mid + 1) post cs).
Proof.
  intros Hn. induction mid as [|c mid IH]; intros i cs.
  - cbn [app star_spec any_char]. rewrite star_any_none by exact Hn.
    rewrite then_rbrace_cons, N.eqb_refl. simpl. do 2 f_equal. lia.
  - cbn [app star_spec any_char]. rewrite IH. simpl. do 2 f_equal. lia.
Qed.

Lemma rmatch_chr_cons (p : code_unit -> bool) (i : nat) (c : code_unit)
  (s : jsstring) (cs : list (nat * jsstring)) (k : mstate -> option mstate) :
  rmatch (Chr p) (mkState i (c :: s) cs) k
  = if p c then k (mkState (S i) s cs) else None.
Proof. reflexivity. Qed.

Lemma match_at_object_cons (i : nat) (c : code_unit) (s : jsstring) :
  match_at re_object i (c :: s)
  = if N.eqb c_lbrace c
    then star_spec any_char then_rbrace (S i) s []
    else None.
Proof.
  unfold match_at, re_object.
  change (cat [Chr (is_char c_lbrace); Star true (Chr any_char);
               Chr (is_char c_rbrace)])
    with (Seq (Chr (is_char c_lbrace))
            (Seq (Star true (Chr any_char)) (cat [Chr (is_char c_rbrace)]))).
  rewrite rmatch_seq, rmatch_chr_cons. unfold is_char at 1.
  destruct (N.eqb c_lbrace c); [|reflexivity].
  rewrite rmatch_seq, rmatch_star_chr. reflexivity.
Qed.

Lemma search_object_none (s : jsstring) :
  ~ In c_lbrace s -> forall i, search re_object i s = None.
Proof.
  induction s as [|c s IH]; intros Hn i; [reflexivity|].
  cbn [search]. rewrite match_at_object_cons.
  destruct (N.eqb_spec c_lbrace c) as [E|]; [exfalso; apply Hn; now left|].
  rewrite IH; [reflexivity|]. intros H. apply Hn. now right.
Qed.

(** [s.match(/\{[\s\S]*\}/)] is [null] on a text without an opening
    brace. *)
Lemma match0_object_none (s : jsstring) :
  ~ In c_lbrace s -> match0 re_object s = None.
Proof.
  intros H. unfold match0. now rewrite search_object_none.
Qed.

Lemma search_object_skip (pre t : jsstring) :
  ~ In c_lbrace pre ->
  forall i,
    search re_object i (pre ++ t)
    = match search re_object (i + length pre) t with
      | Some (b, m) => Some (pre ++ b, m)
      | None => None
      end.
Proof.
  induction pre as [|c pre IH]; intros Hn i.
  - simpl. rewrite Nat.add_0_r. now destruct (search re_object i t) as [[b m]|].
  - cbn [app search]. rewrite match_at_object_cons.
    destruct (N.eqb_spec c_lbrace c) as [E|]; [exfalso; apply Hn; now left|].
    rewrite IH by (intros H; apply Hn; now right).
    simpl. replace (i + S (length pre)) with (S (i + length pre)) by lia.
    now destruct (search re_object (S (i + length pre)) t) as [[b m]|].
Qed.

(** It is the text from the first opening brace to the last closing one. *)
Lemma match0_object (pre mid post : jsstring) :
  ~ In c_lbrace pre -> ~ In c_rbrace post ->
  match0 re_object (pre ++ (c_lbrace :: mid ++ [c_rbrace]) ++ post)
  = Some (c_lbrace :: mid ++ [c_rbrace]).
Proof.
  intros Hpre Hpost. unfold match0.
  rewrite search_object_skip by exact Hpre.
  assert (E : match_at re_object (0 + length pre)
                ((c_lbrace :: mid ++ [c_rbrace]) ++ post)
              = Some (mkState (S (0 + length pre) + length mid + 1) post [])).
  { cbn [app]. rewrite match_at_object_cons, N.eqb_refl.
    rewrite <- app_assoc. cbn [app]. now apply star_any_last. }
  rewrite (search_here _ _ _ _ E). rewrite app_nil_r.
  unfold matched. cbn [pos].
  rewrite skipn_app, Nat.sub_diag, skipn_all. cbn [skipn app].
  replace (S (0 + length pre) + length mid + 1 - length pre)
    with (S (length (mid ++ [c_rbrace])))
    by (rewrite length_app; cbn [length]; lia).
  cbn [firstn]. do 2 f_equal.
  rewrite firstn_app, Nat.sub_diag, firstn_all. cbn [firstn].
  now rewrite app_nil_r.
Qed.

End RegexFacts.


Import RegexFacts.

(* ================================================================== *)
(** * Facts about [parseAIFeedback] *)
(* ================================================================== *)

Module ParserFacts.

Lemma attempt_recovers (text how : jsstring) (v : value) :
  JSON_parse text = Normal v ->
  validateFeedbackStructure v = Normal true ->
  attempt text how = Some (mkResult true v how None).
Proof.
  intros Hp Hv. unfold attempt. rewrite Hp. cbn [bind]. now rewrite Hv.
Qed.

Lemma attempt_inv (text how : jsstring) (r : ParseResult) :
  attempt text how = Some r ->
  exists v, JSON_parse text = Normal v /\
            validateFeedbackStructure v = Normal true /\
            r = mkResult true v how None.
Proof.
  unfold attempt. destruct (JSON_parse text) as [v|e]; [|discriminate].
  cbn [bind try_catch].
  destruct (validate_total v) as [ok E]. rewrite E. cbn [bind try_catch].
  destruct ok; [|discriminate]. intros H. inversion H. exists v. auto.
Qed.

Lemma attempt_none (text how : jsstring) :
  ~ recovers text -> attempt text how = None.
Proof.
  intros H. destruct (attempt text how) as [r|] eqn:E; [|reflexivity].
  apply attempt_inv in E as [v [Hp [Hv _]]]. exfalso. apply H.
  now exists v.
Qed.

Lemma recovers_brace (text : jsstring) : recovers text -> In c_lbrace text.
Proof.
  intros [v [Hp Hv]]. apply validate_object in Hv as [fields ->].
  eapply JSON_parse_object_brace; eauto.
Qed.

Lemma fallback_valid (message : jsstring) :
  validateFeedbackStructure (createFallbackFeedback message) = Normal true.
Proof. reflexivity. Qed.

(** Whatever the input, the record that is returned has passed the
    validator. *)
Lemma parse_valid (rawText : jsstring) :
  validateFeedbackStructure (feedback (parseAIFeedback rawText))
  = Normal true.
Proof.
  unfold parseAIFeedback.
  destruct (attempt _ (lit "direct")) as [r|] eqn:E1.
  { apply attempt_inv in E1 as [v [_ [Hv ->]]]. exact Hv. }
  destruct (match0 re_object _) as [jsonMatch|]; [|apply fallback_valid].
  destruct (attempt jsonMatch _) as [r|] eqn:E2.
  { apply attempt_inv in E2 as [v [_ [Hv ->]]]. exact Hv. }
  destruct (attempt (repairJSON jsonMatch) _) as [r|] eqn:E3.
  { apply attempt_inv in E3 as [v [_ [Hv ->]]]. exact Hv. }
  apply fallback_valid.
Qed.

Lemma parse_fallback (rawText : jsstring) :
  no_stage_recovers rawText -> parseAIFeedback rawText = fallback_result.
Proof.
  intros [H1 H2]. unfold parseAIFeedback.
  rewrite (attempt_none _ _ H1).
  destruct (match0 re_object _) as [jsonMatch|] eqn:E; [|reflexivity].
  destruct (H2 _ eq_refl) as [H3 H4].
  now rewrite (attempt_none _ _ H3), (attempt_none _ _ H4).
Qed.

Lemma startsWith_json_fence (t : jsstring) :
  startsWith (lit "```json") t = true -> startsWith fence t = true.
Proof.
  intros H. apply startsWith_split in H. rewrite H.
  change (lit "```json") with (fence ++ lit "json").
  rewrite <- app_assoc. apply startsWith_app.
Qed.

Lemma strip_fence_none (t : jsstring) :
  startsWith fence t = false -> strip_fence t = t.
Proof.
  intros H. unfold strip_fence. rewrite H.
  destruct (startsWith (lit "```json") t) eqn:E; [|reflexivity].
  apply startsWith_json_fence in E. congruence.
Qed.

Lemma In_skipn (c : code_unit) (n : nat) (s : jsstring) :
  In c (skipn n s) -> In c s.
Proof.
  intros H. rewrite <- (firstn_skipn n s). apply in_or_app. now right.
Qed.

Lemma In_replace_close (c : code_unit) (s : jsstring) :
  In c (replace re_close [] s) -> In c s.
Proof.
  destruct (replace_close_cases s) as [->|[w [E _]]]; [auto|].
  intros H. rewrite E. apply in_or_app. now left.
Qed.

(** Stripping the fences only takes characters away. *)
Lemma In_strip_fence (c : code_unit) (t : jsstring) :
  In c (strip_fence t) -> In c t.
Proof.
  unfold strip_fence.
  destruct (startsWith (lit "```json") t) eqn:E1.
  { intros H. apply In_replace_close in H.
    unfold re_open_json in H. rewrite replace_open in H by exact E1.
    now apply In_trimStart, In_skipn in H. }
  destruct (startsWith fence t) eqn:E2; [|auto].
  intros H. apply In_replace_close in H.
  unfold re_open in H. rewrite replace_open in H by exact E2.
  now apply In_trimStart, In_skipn in H.
Qed.

(** A text without an opening brace falls through every stage. *)
Lemma no_brace_no_stage (rawText : jsstring) :
  ~ In c_lbrace rawText -> no_stage_recovers rawText.
Proof.
  intros H.
  assert (Hp : ~ In c_lbrace (strip_fence (trim rawText))).
  { intros X. now apply In_strip_fence, In_trim in X. }
  split.
  - intros X. now apply recovers_brace in X.
  - intros jsonMatch E. rewrite match0_object_none in E by exact Hp.
    discriminate.
Qed.

Lemma trim_fenced (x : jsstring) :
  trim (fence ++ x ++ fence) = fence ++ x ++ fence.
Proof.
  unfold trim.
  change (fence ++ x ++ fence) with (96%N :: (lit "``" ++ x ++ fence)) at 1.
  rewrite trimStart_cons by reflexivity.
  change (96%N :: (lit "``" ++ x ++ fence)) with (fence ++ x ++ fence).
  replace (fence ++ x ++ fence) with ((fence ++ x ++ lit "``") ++ [96%N]).
  - now apply trimEnd_snoc.
  - rewrite <- !app_assoc. reflexivity.
Qed.

Lemma parse_nonempty (text : jsstring) (v : value) :
  JSON_parse text = Normal v -> trimStart text <> [].
Proof.
  intros H E. apply JSON_parse_trim in H. unfold trim in H.
  rewrite E in H. discriminate.
Qed.

(** What is left of [w1 ++ text ++ w2 ++ fence] once the white space in
    front and the closing fence are taken away. *)
Lemma strip_body (w1 w2 text : jsstring) (v : value) :
  blank w1 -> blank w2 -> JSON_parse text = Normal v ->
  replace re_close [] (trimStart (w1 ++ text ++ w2 ++ fence)) = trim text.
Proof.
  intros H1 H2 Hp.
  rewrite trimStart_blank by exact H1.
  rewrite trimStart_app by (eapply parse_nonempty; eauto).
  destruct (trimEnd_split (trimStart text)) as [w [E Hw]].
  fold (trim text) in E. rewrite E at 1. rewrite <- app_assoc.
  rewrite (app_assoc w w2 fence).
  apply replace_close_exact; [now apply blank_app|].
  apply trimEnd_last.
Qed.

Lemma not_json_tag (w1 text rest : jsstring) (v : value) :
  blank w1 -> JSON_parse text = Normal v ->
  startsWith (lit "```json") (fence ++ w1 ++ text ++ rest) = false.
Proof.
  intros Hw Hp.
  destruct (startsWith (lit "```json") (fence ++ w1 ++ text ++ rest)) eqn:E;
    [|reflexivity].
  exfalso. apply startsWith_split in E.
  change (lit "```json") with (fence ++ 106%N :: lit "son") in E.
  rewrite <- app_assoc in E. apply app_inv_head in E.
  destruct w1 as [|c w1].
  - destruct text as [|c text]; [vm_compute in Hp; discriminate|].
    cbn [app] in E. inversion E; subst.
    unfold JSON_parse, lex in Hp. simpl in Hp. discriminate.
  - inversion Hw as [|? ? Hc _]; subst. cbn [app] in E.
    inversion E; subst. vm_compute in Hc. discriminate.
Qed.

Lemma around_trimStart (obj' t : jsstring) :
  around (c_lbrace :: obj') t -> around (c_lbrace :: obj') (trimStart t).
Proof.
  intros [pre [post [-> [Hl Hr]]]].
  exists (trimStart pre), post. repeat split; auto.
  - cbn [app]. now rewrite trimStart_app_head by reflexivity.
  - intros H. now apply In_trimStart in H.
Qed.

Lemma around_trimEnd (obj' t : jsstring) :
  around (obj' ++ [c_rbrace]) t -> around (obj' ++ [c_rbrace]) (trimEnd t).
Proof.
  intros [pre [post [-> [Hl Hr]]]].
  exists pre, (trimEnd post). repeat split; auto.
  - rewrite !app_assoc. rewrite trimEnd_app_last by reflexivity.
    reflexivity.
  - intros H. now apply In_trimEnd in H.
Qed.

Lemma around_drop_prefix (obj' p x : jsstring) :
  ~ In c_lbrace p ->
  around (c_lbrace :: obj') (p ++ x) -> around (c_lbrace :: obj') x.
Proof.
  intros Hp [pre [post [E [Hl Hr]]]]. symmetry in E. cbn [app] in E.
  apply split_before in E as [pre2 [-> ->]]; [|exact Hp].
  exists pre2, post. repeat split; auto.
  intros H. apply Hl. apply in_or_app. now right.
Qed.

Lemma around_drop_suffix (obj' x sfx : jsstring) :
  ~ In c_rbrace sfx ->
  around (obj' ++ [c_rbrace]) (x ++ sfx) -> around (obj' ++ [c_rbrace]) x.
Proof.
  intros Hs [pre [post [E [Hl Hr]]]]. symmetry in E.
  rewrite !app_assoc in E. apply split_after in E as [post2 [-> ->]];
    [|exact Hs].
  exists pre, post2. repeat split; auto.
  - now rewrite <- !app_assoc.
  - intros H. apply Hr. apply in_or_app. now left.
Qed.

Lemma blank_no_rbrace (w : jsstring) : blank w -> ~ In c_rbrace w.
Proof.
  intros Hw H. unfold blank in Hw. rewrite Forall_forall in Hw.
  apply Hw in H. discriminate.
Qed.

Lemma around_replace_close (obj' t : jsstring) :
  around (obj' ++ [c_rbrace]) t ->
  around (obj' ++ [c_rbrace]) (replace re_close [] t).
Proof.
  intros H. destruct (replace_close_cases t) as [->|[w [E Hw]]]; [exact H|].
  rewrite E in H. apply around_drop_suffix in H; [exact H|].
  intros X. apply in_app_or in X as [X|X].
  - now apply blank_no_rbrace in X.
  - vm_compute in X. repeat (destruct X as [X|X]; [discriminate|]). exact X.
Qed.

Lemma around_replace_open (mid p t : jsstring) :
  ~ In c_lbrace p -> startsWith p t = true ->
  around (c_lbrace :: mid ++ [c_rbrace]) t ->
  around (c_lbrace :: mid ++ [c_rbrace])
    (replace (cat [Bol; Lit p; Star true ws]) [] t).
Proof.
  intros Hp Hs H. rewrite replace_open by exact Hs.
  apply around_trimStart. apply startsWith_split in Hs. rewrite Hs in H.
  now apply around_drop_prefix in H.
Qed.

(** Trimming and fence stripping leave the object where it is, between
    its first opening and its last closing brace. *)
Lemma around_processed (mid t : jsstring) :
  around (c_lbrace :: mid ++ [c_rbrace]) t ->
  around (c_lbrace :: mid ++ [c_rbrace]) (strip_fence (trim t)).
Proof.
  intros H.
  assert (Ht : around (c_lbrace :: mid ++ [c_rbrace]) (trim t)).
  { unfold trim.
    change (c_lbrace :: mid ++ [c_rbrace])
      with ((c_lbrace :: mid) ++ [c_rbrace]).
    apply around_trimEnd. now apply around_trimStart. }
  unfold strip_fence.
  destruct (startsWith (lit "```json") (trim t)) eqn:E1.
  { change (c_lbrace :: mid ++ [c_rbrace])
      with ((c_lbrace :: mid) ++ [c_rbrace]).
    apply around_replace_close. apply around_replace_open; auto.
    intros X. vm_compute in X.
    repeat (destruct X as [X|X]; [discriminate|]). exact X. }
  destruct (startsWith fence (trim t)) eqn:E2; [|exact Ht].
  change (c_lbrace :: mid ++ [c_rbrace])
    with ((c_lbrace :: mid) ++ [c_rbrace]).
  apply around_replace_close. apply around_replace_open; auto.
  intros X. vm_compute in X.
  repeat (destruct X as [X|X]; [discriminate|]). exact X.
Qed.

End ParserFacts.
Import ParserFacts.

(* ================================================================== *)
(** * The runtime model at work *)
(* ================================================================== *)

Module Checks.

(** Texts that [JSON.parse] accepts, and texts that it refuses. *)
Example json_accepts :
  forallb parses
    ["null"; " [1 , 2.5e-3, -0, true,false,null, {'a':{'b':[]}}] ";
     "'A'"; "1e+5"; "0.5"; "{}"; "[]"; "{'a':1,'a':2}";
     "{'a':[1,{'b':null}],'c':'d'}"]%string
  = true.
Proof. vm_compute. reflexivity. Qed.

Example json_refuses :
  existsb parses
    [""; "  "; "01"; "1."; ".5"; "+1"; "-"; "1e"; "1e+"; "1.5.2"; "1 2";
     "tru"; "truex"; "nul"; "'abc"; "'a\qb'"; "'\u00g0'"; "'x' 'y'";
     "[1,]"; "[1 2]"; "[,1]"; "]"; "[[]"; "[]]"; "[1}";
     "{'a':1,}"; "{'a'}"; "{'a':}"; "{1:2}"; "{,}"; "undefined"]%string
  = false.
Proof. vm_compute. reflexivity. Qed.

(** Escapes are decoded; a key given twice keeps its first place and its
    last value. *)
Example json_escapes :
  JSON_parse (quoted "'A\n\\\u0041\/'")
  = Normal (JString [65; 10; 92; 65; 47]%N).
Proof. vm_compute. reflexivity. Qed.

Example json_duplicate_key :
  JSON_parse (quoted "{'a':1,'b':2,'a':3}")
  = Normal (JObject [(lit "a", JNumber (num 3)); (lit "b", JNumber (num 2))]).
Proof. vm_compute. reflexivity. Qed.

Example json_number :
  JSON_parse (lit "-12.50e3") = Normal (JNumber (mkNumber true 1250 1)).
Proof. vm_compute. reflexivity. Qed.

(** A decimal below half of the least binary64 is zero, hence falsy. *)
Example tiny_number_is_falsy :
  truthy (JNumber (mkNumber false 1 (-400))) = false /\
  truthy (JNumber (mkNumber false 1 (-300))) = true.
Proof. split; vm_compute; reflexivity. Qed.

(** The global replacements, one pattern of [repairJSON] at a time. *)
Example replace_empty_matches :
  replace_all (Star true (Chr (is_char 120%N))) [Text (lit "-")] (lit "abxxc")
  = lit "-a-b--c-".
Proof. vm_compute. reflexivity. Qed.

Example repair_unterminated :
  replace_all re_unterminated by_unterminated
    (quoted "{'a':'x, y','b':  'z }")
  = quoted "{'a': 'x', y','b': 'z' }".
Proof. vm_compute. reflexivity. Qed.

Example repair_missing_comma :
  replace_all re_missing_comma by_missing_comma (quoted "{'a':{} 'b': 1}")
  = quoted "{'a':{}, 'b': 1}".
Proof. vm_compute. reflexivity. Qed.

Example repair_adjacent :
  replace_all re_adjacent by_adjacent (lit "[{} {}{}]") = lit "[{}, {}, {}]".
Proof. vm_compute. reflexivity. Qed.

Example repair_trailing_comma :
  replace_all re_trailing_comma by_trailing_comma (lit "[1, 2, ] ,}")
  = lit "[1, 2 ] }".
Proof. vm_compute. reflexivity. Qed.

Example repair_newline :
  replace_all re_newline by_newline
    ([c_quote] ++ lit "ab" ++ [c_newline] ++ lit "cd" ++ [c_quote])
  = [c_quote] ++ lit "ab\ncd" ++ [c_quote].
Proof. vm_compute. reflexivity. Qed.

(** The extraction pattern is greedy: first opening to last closing
    brace. *)
Example object_span :
  match0 re_object (lit "a {b} c } d { e") = Some (lit "{b} c }") /\
  match0 re_object (lit "a } b { c") = None.
Proof. split; vm_compute; reflexivity. Qed.

(** A trailing comma before a closing bracket is recovered by the repair
    stage. *)
Example trailing_comma_repaired :
  let text :=
    quoted "{'overallScore':82,'ATS':{'score':90,'tips':[],},'toneAndStyle':{'score':70,'tips':[]},'content':{'score':75,'tips':[]},'structure':{'score':80,'tips':[]},'skills':{'score':85,'tips':[]}}" in
  parseAIFeedback text = mkResult true sample_record (lit "repair") None.
Proof. vm_compute. reflexivity. Qed.

End Checks.

(* ================================================================== *)
(** * The claims about the feedback parser and the validator *)
(* ================================================================== *)

(** C1. For every input string the feedback that [parseAIFeedback]
    returns passes [validateFeedbackStructure] (so it is not [null]);
    and when none of the three recovery stages yields a validating
    record, the result has [success = false], [method = 'fallback'] and a
    feedback that passes the validator. *)
Theorem parse_feedback_always_valid :
  (forall rawText,
     validateFeedbackStructure (feedback (parseAIFeedback rawText))
     = Normal true /\
     feedback (parseAIFeedback rawText) <> JNull) /\
  (forall rawText,
     no_stage_recovers rawText ->
     success (parseAIFeedback rawText) = false /\
     method (parseAIFeedback rawText) = lit "fallback" /\
     validateFeedbackStructure (feedback (parseAIFeedback rawText))
     = Normal true).
Proof.
  split.
  - intros rawText. pose proof (parse_valid rawText) as H.
    split; [exact H|]. intros E. rewrite E in H. discriminate.
  - intros rawText H. rewrite (parse_fallback rawText H).
    repeat split.
Qed.

Lemma parse_feedback_always_valid_witness :
  no_stage_recovers (lit "I cannot process this request.") /\
  success (parseAIFeedback (lit "I cannot process this request.")) = false /\
  method (parseAIFeedback (lit "I cannot process this request."))
  = lit "fallback" /\
  validateFeedbackStructure
    (feedback (parseAIFeedback (lit "I cannot process this request.")))
  = Normal true.
Proof.
  assert (H : no_stage_recovers (lit "I cannot process this request.")).
  { split.
    - intros [v [Hp _]]. vm_compute in Hp. discriminate.
    - intros jsonMatch E. vm_compute in E. discriminate. }
  split; [exact H|].
  exact (proj2 parse_feedback_always_valid _ H).
Defined.

(** C2. [validateFeedbackStructure v] returns [true] if and only if [v]
    is an object with a numeric [overallScore] and the five sections
    present as objects, each with a numeric [score] and an array of tips
    whose every tip is an object with a [type] that is [good] or
    [improve], a string [tip] and, outside [ATS], a string
    [explanation]. *)
Theorem validate_iff_valid_record (v : value) :
  validateFeedbackStructure v = Normal true <-> valid_record v.
Proof. apply validate_spec. Qed.

(** C3. [validateFeedbackStructure] is total and deterministic: on every
    value it returns a boolean and does not throw, any two calls on one
    value return the same boolean, and on [undefined], [null], booleans,
    numbers, strings and arrays that boolean is [false]. *)
Theorem validate_total_deterministic :
  (forall v, exists b,
     validateFeedbackStructure v = Normal b /\
     forall r, validateFeedbackStructure v = r -> r = Normal b) /\
  validateFeedbackStructure JUndefined = Normal false /\
  validateFeedbackStructure JNull = Normal false /\
  (forall b, validateFeedbackStructure (JBool b) = Normal false) /\
  (forall n, validateFeedbackStructure (JNumber n) = Normal false) /\
  (forall s, validateFeedbackStructure (JString s) = Normal false) /\
  (forall items, validateFeedbackStructure (JArray items) = Normal false).
Proof.
  split.
  { intros v. destruct (validate_total v) as [b H]. exists b.
    split; [exact H | congruence]. }
  repeat split; try reflexivity.
  - intros b. unfold validateFeedbackStructure.
    cbn [truthy type_eq typeof jstype_eqb negb]. now rewrite orb_true_r.
  - intros n. unfold validateFeedbackStructure.
    cbn [truthy type_eq typeof jstype_eqb negb]. now rewrite orb_true_r.
  - intros s. unfold validateFeedbackStructure.
    cbn [truthy type_eq typeof jstype_eqb negb]. now rewrite orb_true_r.
Qed.

(** C4. For every input that is the JSON text of a valid FeedbackRecord,
    [parseAIFeedback] returns [success = true], [method = 'direct'] and
    the record that the text describes. *)
Theorem parse_direct (text : jsstring) (v : value) :
  JSON_parse text = Normal v ->
  validateFeedbackStructure v = Normal true ->
  parseAIFeedback text = mkResult true v (lit "direct") None.
Proof.
  intros Hp Hv. unfold parseAIFeedback.
  pose proof (JSON_parse_trim _ _ Hp) as Ht.
  rewrite (strip_fence_none _ (JSON_parse_no_fence _ _ Ht)).
  now rewrite (attempt_recovers _ _ _ Ht Hv).
Qed.

Lemma parse_direct_witness :
  JSON_parse sample_text = Normal sample_record /\
  validateFeedbackStructure sample_record = Normal true /\
  parseAIFeedback sample_text
  = mkResult true sample_record (lit "direct") None.
Proof.
  assert (Hp : JSON_parse sample_text = Normal sample_record)
    by (vm_compute; reflexivity).
  assert (Hv : validateFeedbackStructure sample_record = Normal true)
    by (vm_compute; reflexivity).
  split; [exact Hp|]. split; [exact Hv|].
  exact (parse_direct sample_text sample_record Hp Hv).
Defined.

(** C5. When every parsing stage fails, [parseAIFeedback] returns the
    fixed fallback record: [overallScore] 50, every section [score] 50,
    [ATS] with one [improve] tip that asks to try again and has no
    explanation, each other section with one [improve] tip
    [Manual review needed] whose explanation starts with the diagnostic
    message; and a text without any brace gets [success = false],
    [method = 'fallback'] and [overallScore] 50. *)
Theorem parse_fallback_record :
  (forall message, is_fallback_record message (createFallbackFeedback message)) /\
  (forall rawText,
     no_stage_recovers rawText ->
     parseAIFeedback rawText
     = mkResult false (createFallbackFeedback (lit "Unable to parse AI response"))
         (lit "fallback") (Some (lit "All parsing strategies failed")) /\
     is_fallback_record (lit "Unable to parse AI response")
       (feedback (parseAIFeedback rawText))) /\
  (forall rawText,
     ~ In c_lbrace rawText -> ~ In c_rbrace rawText ->
     success (parseAIFeedback rawText) = false /\
     method (parseAIFeedback rawText) = lit "fallback" /\
     field "overallScore" (feedback (parseAIFeedback rawText))
     = JNumber (num 50)).
Proof.
  assert (Hrecord : forall message,
             is_fallback_record message (createFallbackFeedback message)).
  { intros message. unfold is_fallback_record, one_tip, retry_tip, explained_tip.
    repeat split; try reflexivity; eexists; repeat split; reflexivity. }
  split; [exact Hrecord|]. split.
  - intros rawText H. rewrite (parse_fallback rawText H).
    split; [reflexivity | apply Hrecord].
  - intros rawText Hl _.
    rewrite (parse_fallback rawText (no_brace_no_stage rawText Hl)).
    repeat split.
Qed.

Lemma parse_fallback_record_witness :
  ~ In c_lbrace (lit "I cannot process this request.") /\
  ~ In c_rbrace (lit "I cannot process this request.") /\
  success (parseAIFeedback (lit "I cannot process this request.")) = false /\
  method (parseAIFeedback (lit "I cannot process this request."))
  = lit "fallback" /\
  field "overallScore"
    (feedback (parseAIFeedback (lit "I cannot process this request.")))
  = JNumber (num 50).
Proof.
  assert (Hl : ~ In c_lbrace (lit "I cannot process this request.")).
  { intros H. vm_compute in H.
    repeat (destruct H as [H|H]; [discriminate|]). exact H. }
  assert (Hr : ~ In c_rbrace (lit "I cannot process this request.")).
  { intros H. vm_compute in H.
    repeat (destruct H as [H|H]; [discriminate|]). exact H. }
  split; [exact Hl|]. split; [exact Hr|].
  exact (proj2 (proj2 parse_fallback_record) _ Hl Hr).
Defined.

(** C10. [validateFeedbackStructure] puts no range or integrality
    constraint on scores: any six numbers pass its score checks, and
    [parseAIFeedback] returns with [success = true] a record whose
    [overallScore] is -5 and whose section scores include 0.5 and 1000. *)
Theorem scores_unconstrained :
  (forall overall ats tone content structure skills,
     validateFeedbackStructure
       (scored overall ats tone content structure skills) = Normal true) /\
  parseAIFeedback odd_scores_text
  = mkResult true
      (scored (mkNumber true 5 0) (mkNumber false 5 (-1))
         (mkNumber false 1000 0) (num 75) (num 80) (num 85))
      (lit "direct") None.
Proof.
  split; [intros; reflexivity | vm_compute; reflexivity].
Qed.

(** C6, as the specification states it, fails: a fence tagged [js]
    around the JSON text of a valid record is not stripped by the direct
    stage, which leaves the tag in front of the text; the record is
    recovered by the extraction stage instead. *)
Lemma fence_other_tag_not_direct :
  JSON_parse sample_text = Normal sample_record /\
  validateFeedbackStructure sample_record = Normal true /\
  parseAIFeedback
    (lit "```js" ++ [c_newline] ++ sample_text ++ [c_newline] ++ lit "```")
  = mkResult true sample_record (lit "regex_extraction") None /\
  method
    (parseAIFeedback
       (lit "```js" ++ [c_newline] ++ sample_text ++ [c_newline] ++ lit "```"))
  <> lit "direct".
Proof.
  split; [vm_compute; reflexivity|].
  split; [vm_compute; reflexivity|].
  split; [vm_compute; reflexivity|].
  vm_compute. discriminate.
Qed.

(** C6, amended. For every valid FeedbackRecord serialized as JSON and
    wrapped in a fenced code block whose opening fence is bare or carries
    the tag [json], with white space between the fences and the text,
    [parseAIFeedback] strips the fence and returns [success = true] by
    [method = 'direct']. *)
Theorem parse_fenced (json_tag : bool) (w1 w2 text : jsstring) (v : value) :
  blank w1 -> blank w2 ->
  JSON_parse text = Normal v ->
  validateFeedbackStructure v = Normal true ->
  parseAIFeedback
    (fence ++ (if json_tag then lit "json" else []) ++ w1 ++ text ++ w2 ++ fence)
  = mkResult true v (lit "direct") None.
Proof.
  intros H1 H2 Hp Hv. unfold parseAIFeedback.
  assert (Hstrip :
    strip_fence
      (trim (fence ++ (if json_tag then lit "json" else [])
               ++ w1 ++ text ++ w2 ++ fence))
    = trim text).
  { replace (fence ++ (if json_tag then lit "json" else [])
               ++ w1 ++ text ++ w2 ++ fence)
      with (fence ++ ((if json_tag then lit "json" else [])
                        ++ w1 ++ text ++ w2) ++ fence)
      by (now rewrite <- !app_assoc).
    rewrite trim_fenced. unfold strip_fence. destruct json_tag.
    - rewrite <- !app_assoc.
      change (fence ++ lit "json" ++ w1 ++ text ++ w2 ++ fence)
        with (lit "```json" ++ w1 ++ text ++ w2 ++ fence).
      rewrite startsWith_app. unfold re_open_json.
      rewrite replace_open_app. eapply strip_body; eauto.
    - rewrite <- !app_assoc. cbn [app].
      rewrite (not_json_tag w1 text (w2 ++ fence) v H1 Hp).
      rewrite startsWith_app. unfold re_open.
      rewrite replace_open_app. eapply strip_body; eauto. }
  rewrite Hstrip.
  now rewrite (attempt_recovers _ _ _ (JSON_parse_trim _ _ Hp) Hv).
Qed.

Lemma parse_fenced_witness :
  blank [c_newline] /\
  JSON_parse sample_text = Normal sample_record /\
  validateFeedbackStructure sample_record = Normal true /\
  parseAIFeedback
    (fence ++ lit "json" ++ [c_newline] ++ sample_text ++ [c_newline] ++ fence)
  = mkResult true sample_record (lit "direct") None.
Proof.
  assert (Hw : blank [c_newline]) by (repeat constructor).
  assert (Hp : JSON_parse sample_text = Normal sample_record)
    by (vm_compute; reflexivity).
  assert (Hv : validateFeedbackStructure sample_record = Normal true)
    by (vm_compute; reflexivity).
  split; [exact Hw|]. split; [exact Hp|]. split; [exact Hv|].
  exact (parse_fenced true [c_newline] [c_newline] sample_text sample_record
           Hw Hw Hp Hv).
Defined.

(** C7, as the specification states it, fails: with a brace in the prose
    before the record, the span from the first opening brace to the last
    closing one is no JSON text, the repairs do not make it one, and the
    fallback is returned. *)
Lemma prose_with_brace_falls_back :
  JSON_parse sample_text = Normal sample_record /\
  validateFeedbackStructure sample_record = Normal true /\
  JSON_parse (lit "Note {draft}: ") = Throw SyntaxError /\
  match0 re_object (lit "Note {draft}: " ++ sample_text)
  = Some (lit "{draft}: " ++ sample_text) /\
  repairJSON (lit "{draft}: " ++ sample_text) = lit "{draft}: " ++ sample_text /\
  parseAIFeedback (lit "Note {draft}: " ++ sample_text) = fallback_result /\
  success (parseAIFeedback (lit "Note {draft}: " ++ sample_text)) <> true.
Proof.
  repeat (split; [vm_compute; reflexivity|]).
  vm_compute. discriminate.
Qed.

(** C7, amended. For every input text that holds the JSON object of a
    valid FeedbackRecord with no opening brace in the prose before it and
    no closing brace in the prose after it, and that the direct stage
    does not itself accept, [parseAIFeedback] returns [success = true]
    with [method = 'regex_extraction'] and that record, which is
    structurally valid. *)
Theorem parse_extraction (pre mid post : jsstring) (v : value) :
  ~ In c_lbrace pre -> ~ In c_rbrace post ->
  JSON_parse (c_lbrace :: mid ++ [c_rbrace]) = Normal v ->
  validateFeedbackStructure v = Normal true ->
  ~ recovers (strip_fence (trim (pre ++ (c_lbrace :: mid ++ [c_rbrace]) ++ post))) ->
  parseAIFeedback (pre ++ (c_lbrace :: mid ++ [c_rbrace]) ++ post)
  = mkResult true v (lit "regex_extraction") None /\
  validateFeedbackStructure
    (feedback (parseAIFeedback (pre ++ (c_lbrace :: mid ++ [c_rbrace]) ++ post)))
  = Normal true.
Proof.
  intros Hl Hr Hp Hv Hdirect.
  assert (E : parseAIFeedback (pre ++ (c_lbrace :: mid ++ [c_rbrace]) ++ post)
              = mkResult true v (lit "regex_extraction") None).
  { unfold parseAIFeedback. rewrite (attempt_none _ _ Hdirect).
    assert (Ha : around (c_lbrace :: mid ++ [c_rbrace])
                   (pre ++ (c_lbrace :: mid ++ [c_rbrace]) ++ post)).
    { exists pre, post. auto. }
    apply around_processed in Ha as [pre' [post' [-> [Hl' Hr']]]].
    rewrite match0_object by assumption.
    now rewrite (attempt_recovers _ _ _ Hp Hv). }
  split; [exact E|]. rewrite E. exact Hv.
Qed.

Lemma parse_extraction_witness :
  parseAIFeedback (lit "Here is the result: " ++ sample_text ++ lit " Done.")
  = mkResult true sample_record (lit "regex_extraction") None /\
  validateFeedbackStructure
    (feedback
       (parseAIFeedback
          (lit "Here is the result: " ++ sample_text ++ lit " Done.")))
  = Normal true.
Proof.
  apply (parse_extraction (lit "Here is the result: ")
           (removelast (tl sample_text)) (lit " Done.") sample_record).
  - intros H. vm_compute in H.
    repeat (destruct H as [H|H]; [discriminate|]). exact H.
  - intros H. vm_compute in H.
    repeat (destruct H as [H|H]; [discriminate|]). exact H.
  - vm_compute. reflexivity.
  - vm_compute. reflexivity.
  - intros [x [Hx _]]. vm_compute in Hx. discriminate.
Defined.

(* ================================================================== *)
(** * The claim about the Review Session Controller *)
(* ================================================================== *)

Section ControllerClaims.

Import Controller.

Variable Blob : Type.
Variable kv_get : jsstring -> option jsstring.
Variable fs_read : value -> option Blob.
Variable pdf_object_url : Blob -> jsstring.
Variable object_url : Blob -> jsstring.
Variable builtin_message : exn -> jsstring.

Local Abbreviation load :=
  (Controller.load Blob kv_get fs_read pdf_object_url object_url
     builtin_message).
Local Abbreviation load_failure :=
  (Controller.load_failure Blob kv_get fs_read).

Ltac run := cbn -[get truthy JSON_parse lit app].

Lemma path_of_some (data p : value) (k : string) :
  get data (lit k) = Normal p -> truthy p = true -> path_of data k = Some p.
Proof. intros G T. unfold path_of. now rewrite G, T. Qed.

Lemma path_of_falsy (data p : value) (k : string) :
  get data (lit k) = Normal p -> truthy p = false -> path_of data k = None.
Proof. intros G T. unfold path_of. now rewrite G, T. Qed.

Lemma path_of_throw (data : value) (k : string) (e : exn) :
  get data (lit k) = Throw e -> path_of data k = None.
Proof. intros G. unfold path_of. now rewrite G. Qed.

Lemma get_also (data : value) (k k' : jsstring) (p : value) :
  get data k = Normal p -> exists q, get data k' = Normal q.
Proof. destruct data; simpl; try discriminate; eauto. Qed.

(** A load without a record ends at once. *)
Lemma load_no_record (id : jsstring) :
  kv_get (record_key id) = None ->
  load id
  = mkWorld (mkSession [] [] None false (Some (lit "Resume not found")))
      [KvGet (record_key id)].
Proof.
  intros K. unfold Controller.load, loadResume, record_key in *.
  unfold try_, bindM, kvGet. cbv beta. rewrite K. reflexivity.
Qed.

(** Every load ends in one of the two terminal states, and in the error
    state exactly when one of the five failures occurs. *)
Lemma load_cases (id : jsstring) :
  (load_failure id /\ in_error (session (load id))) \/
  (~ load_failure id /\ is_ready (session (load id))).
Proof.
  unfold Controller.load, loadResume, in_error, is_ready.
  unfold try_, bindM, kvGet. cbv beta.
  destruct (kv_get (lit "resume:" ++ id)) as [[|c r]|] eqn:K.
  - left. split; [|split; [reflexivity | discriminate]].
    eapply record_not_deserialized; [exact K | reflexivity].
  - run. destruct (JSON_parse (c :: r)) as [data|e] eqn:P.
    + run. destruct (get data (lit "resumePath")) as [rp|e1] eqn:G1.
      * run. destruct (truthy rp) eqn:T1.
        -- run. destruct (get data (lit "imagePath")) as [ip|e2] eqn:G2.
           ++ run. destruct (truthy ip) eqn:T2.
              ** run. destruct (fs_read rp) as [b1|] eqn:F1.
                 --- run. destruct (fs_read ip) as [b2|] eqn:F2.
                     +++ right. split.
                         *** intros X.
                             pose proof (path_of_some _ _ "resumePath" G1 T1)
                               as Q1.
                             pose proof (path_of_some _ _ "imagePath" G2 T2)
                               as Q2.
                             inversion X
                               as [A|r0 e0 A B|r0 d0 A B C|r0 d0 p0 A B C D
                                  |r0 d0 q0 A B C D];
                               unfold record_key in A; rewrite K in A;
                               try discriminate;
                               inversion A; subst r0; rewrite P in B;
                               try discriminate; inversion B; subst d0.
                             ---- destruct C; congruence.
                             ---- congruence.
                             ---- congruence.
                         *** run.
                             destruct (get_also data _ (lit "feedback") _ G1)
                               as [fb ->].
                             run. destruct (truthy fb); run; split; reflexivity.
                     +++ left. split.
                         *** eapply image_unreadable; eauto.
                             now apply path_of_some.
                         *** run. split; [reflexivity | discriminate].
                 --- left. split.
                     +++ eapply document_unreadable; eauto.
                         now apply path_of_some.
                     +++ run. split; [reflexivity | discriminate].
              ** left. split.
                 --- eapply record_lacks_path; eauto. right.
                     eapply path_of_falsy; eauto.
                 --- run. split; [reflexivity | discriminate].
           ++ left. split.
              ** eapply record_lacks_path; eauto. right.
                 eapply path_of_throw; eauto.
              ** run. split; [reflexivity | discriminate].
        -- left. split.
           ++ eapply record_lacks_path; eauto. left.
              eapply path_of_falsy; eauto.
           ++ run. split; [reflexivity | discriminate].
      * left. split.
        -- eapply record_lacks_path; eauto. left.
           eapply path_of_throw; eauto.
        -- run. split; [reflexivity | discriminate].
    + left. split.
      * eapply record_not_deserialized; eauto.
      * run. split; [reflexivity | discriminate].
  - left. split; [apply no_record_found; exact K|].
    split; [reflexivity | discriminate].
Qed.

(** C8. A load of an identifier for which the key-value store returns no
    entry ends in the error state with the reason [Resume not found] and
    makes no read on the blob store; and a load ends in the error state,
    rather than ready, exactly in the five failure cases: no record
    found, record not deserialized, record lacking a path, document blob
    unreadable, image blob unreadable. *)
Theorem load_error_cases (id : jsstring) :
  (kv_get (record_key id) = None ->
   in_error (session (load id)) /\
   error (session (load id)) = Some (lit "Resume not found") /\
   trace (load id) = [KvGet (record_key id)] /\
   existsb reads_blob (trace (load id)) = false) /\
  (in_error (session (load id)) <-> load_failure id) /\
  (is_ready (session (load id)) <-> ~ load_failure id).
Proof.
  split; [|split].
  - intros K. rewrite (load_no_record id K).
    repeat split. discriminate.
  - destruct (load_cases id) as [[F E]|[F R]]; split; auto.
    + intros [_ E]. destruct R as [_ R]. contradiction.
    + intros X. contradiction.
  - destruct (load_cases id) as [[F E]|[F R]]; split; auto.
    + intros [_ R]. destruct E as [_ E]. contradiction.
    + intros X. contradiction.
Qed.

End ControllerClaims.

(** An instance of C8: against an empty key-value store the load of
    [abc] ends with [Resume not found] after the one [kv.get]. *)
Lemma load_error_cases_witness :
  Controller.load unit (fun _ => None) (fun _ => None)
    (fun _ => []) (fun _ => []) (fun _ => []) (lit "abc")
  = Controller.mkWorld
      (Controller.mkSession [] [] None false (Some (lit "Resume not found")))
      [Controller.KvGet (lit "resume:abc")] /\
  Controller.error
    (Controller.session
       (Controller.load unit (fun _ => None) (fun _ => None)
          (fun _ => []) (fun _ => []) (fun _ => []) (lit "abc")))
  = Some (lit "Resume not found").
Proof.
  split; [reflexivity|].
  exact (proj1 (proj2 (proj1
           (load_error_cases unit (fun _ => None) (fun _ => None)
              (fun _ => []) (fun _ => []) (fun _ => []) (lit "abc"))
           eq_refl))).
Defined.

(* ================================================================== *)
(** * The claim about the Document Rasterizer *)
(* ================================================================== *)

Section RasterizerClaims.

Import Rasterizer.

Variables Lib Bytes Pdf Page Viewport Context Blob : Type.
Variable in_browser : bool.
Variable import_lib : completion Lib.
Variable arrayBuffer : File -> completion Bytes.
Variable getDocument : Lib -> Bytes -> completion Pdf.
Variable getPage : Pdf -> nat -> completion Page.
Variable getViewport : Page -> nat -> completion Viewport.
Variable getContext : option Context.
Variable render : Page -> Context -> Viewport -> completion unit.
Variable toBlob : option Blob.
Variable object_url : Blob -> jsstring.
Variable builtin_message : exn -> jsstring.

Local Abbreviation convert :=
  (convertPdfToImage Lib Bytes Pdf Page Viewport Context Blob in_browser
     import_lib arrayBuffer getDocument getPage getViewport getContext render
     toBlob object_url builtin_message).
Local Abbreviation steps :=
  (render_first_page Lib Bytes Pdf Page Viewport Context Blob
     arrayBuffer getDocument getPage getViewport getContext render
     toBlob object_url).
Local Abbreviation load_library := (loadPdfJs Lib import_lib builtin_message).
Local Abbreviation failure := (Rasterizer.failure Blob).
Local Abbreviation describe := (Rasterizer.describe builtin_message).
Local Abbreviation message_of := (Rasterizer.message_of builtin_message).
Local Abbreviation error_result := (Rasterizer.error_result Blob).
Local Abbreviation step_fails :=
  (Rasterizer.step_fails Lib Bytes Pdf Page Viewport Context
     arrayBuffer getDocument getPage getViewport getContext render).
Local Abbreviation steps_succeed :=
  (Rasterizer.steps_succeed Lib Bytes Pdf Page Viewport Context
     arrayBuffer getDocument getPage getViewport getContext render).
Local Abbreviation library_is := (Rasterizer.library_is Lib import_lib).

Lemma failure_is_error (m : jsstring) : m <> [] -> error_result (failure m).
Proof. intros H. repeat split. now exists m. Qed.

Lemma encode_resolves (f : File) :
  exists r, encode Blob toBlob object_url f = Resolved r /\
            (error Blob r = None \/ error_result r).
Proof.
  unfold encode. destruct toBlob as [blob|].
  - eexists. split; [reflexivity|]. now left.
  - eexists. split; [reflexivity|]. right.
    apply failure_is_error. discriminate.
Qed.

Lemma steps_resolve (loaded : completion Lib) (f : File)
  (p : promise (PdfConversionResult Blob)) :
  steps loaded f = Normal p ->
  exists r, p = Resolved r /\ (error Blob r = None \/ error_result r).
Proof.
  unfold render_first_page.
  destruct loaded as [lib|e]; cbn [bind]; [|discriminate].
  destruct (arrayBuffer f) as [buffer|e]; cbn [bind]; [|discriminate].
  destruct (getDocument lib buffer) as [pdf|e]; cbn [bind]; [|discriminate].
  destruct (getPage pdf 1) as [page|e]; cbn [bind]; [|discriminate].
  destruct (getViewport page 4) as [viewport|e]; cbn [bind]; [|discriminate].
  destruct getContext as [context|]; cbn [bind]; [|discriminate].
  destruct (render page context viewport) as [[]|e]; cbn [bind];
    [|discriminate].
  intros H. inversion H. apply encode_resolves.
Qed.

(** The result of a conversion that passes the three checks. *)
Lemma convert_accepted (f : File) (pdfjsLib : option Lib) :
  accepted f = true -> in_browser = true ->
  fst (convert (Some f) pdfjsLib)
  = match steps (fst (load_library pdfjsLib)) f with
    | Normal p => p
    | Throw err =>
        Resolved (failure (lit "Failed to convert PDF: " ++ describe err))
    end.
Proof.
  intros Ha Hb. unfold convertPdfToImage, accepted in *.
  rewrite <- negb_orb, Ha, Hb. cbn [negb].
  now destruct (load_library pdfjsLib).
Qed.

Lemma convert_rejected (f : File) (pdfjsLib : option Lib) :
  accepted f = false ->
  convert (Some f) pdfjsLib
  = (Resolved (failure (lit "File must be a PDF")), pdfjsLib).
Proof.
  intros Ha. unfold convertPdfToImage, accepted in *.
  now rewrite <- negb_orb, Ha.
Qed.

Lemma convert_no_browser (f : File) (pdfjsLib : option Lib) :
  accepted f = true -> in_browser = false ->
  convert (Some f) pdfjsLib
  = (Resolved
       (failure (lit "PDF conversion is only available in the browser.")),
     pdfjsLib).
Proof.
  intros Ha Hb. unfold convertPdfToImage, accepted in *.
  now rewrite <- negb_orb, Ha, Hb.
Qed.

Lemma library_at_hand (pdfjsLib : option Lib) (lib : Lib) :
  library_is pdfjsLib lib -> fst (load_library pdfjsLib) = Normal lib.
Proof.
  intros [->|[-> E]]; unfold loadPdfJs; [reflexivity|].
  now rewrite E.
Qed.

Lemma steps_fail (lib : Lib) (f : File) (err : exn) :
  step_fails lib f err -> steps (Normal lib) f = Throw err.
Proof.
  unfold render_first_page. cbn [bind].
  intros [e B|bytes e B D|bytes pdf e B D G|bytes pdf page e B D G V
         |bytes pdf page viewport B D G V C
         |bytes pdf page viewport context e B D G V C R];
    rewrite B; cbn [bind]; try reflexivity;
    rewrite D; cbn [bind]; try reflexivity;
    rewrite G; cbn [bind]; try reflexivity;
    rewrite V; cbn [bind]; try reflexivity;
    rewrite C; cbn [bind]; try reflexivity;
    rewrite R; reflexivity.
Qed.

Lemma steps_encode (lib : Lib) (f : File) :
  steps_succeed lib f ->
  steps (Normal lib) f = Normal (encode Blob toBlob object_url f).
Proof.
  intros [bytes [pdf [page [viewport [context [B [D [G [V [C R]]]]]]]]]].
  unfold render_first_page. cbn [bind].
  rewrite B; cbn [bind]. rewrite D; cbn [bind]. rewrite G; cbn [bind].
  rewrite V; cbn [bind]. rewrite C; cbn [bind]. now rewrite R.
Qed.


End RasterizerClaims.


(* ================================================================== *)
(** * More about the feedback parser *)
(* ================================================================== *)

Module ParserMore.

Lemma trimStart_nil_blank (s : jsstring) : trimStart s = [] -> blank s.
Proof.
  intros H. destruct (trimStart_split s) as [w [E Hw]].
  rewrite H, app_nil_r in E. now subst.
Qed.

Lemma trimStart_all_blank (w : jsstring) : blank w -> trimStart w = [].
Proof.
  intros H. rewrite <- (app_nil_r w). now rewrite trimStart_blank.
Qed.

Lemma trim_blank_around (w1 w2 s : jsstring) :
  blank w1 -> blank w2 -> trim (w1 ++ s ++ w2) = trim s.
Proof.
  intros H1 H2. unfold trim. rewrite trimStart_blank by exact H1.
  destruct (trimStart s) as [|c t] eqn:E.
  - apply trimStart_nil_blank in E.
    now rewrite trimStart_all_blank by (now apply blank_app).
  - rewrite trimStart_app by congruence. rewrite E.
    now apply trimEnd_blank.
Qed.

Lemma recovers_dec (text how : jsstring) :
  (recovers text /\ exists v, JSON_parse text = Normal v /\
                              attempt text how = Some (mkResult true v how None))
  \/ (~ recovers text /\ attempt text how = None).
Proof.
  destruct (attempt text how) as [r|] eqn:E.
  - left. apply attempt_inv in E as [v [Hp [Hv ->]]].
    split; [now exists v | now exists v].
  - right. split; [|reflexivity]. intros [v [Hp Hv]].
    rewrite (attempt_recovers _ _ _ Hp Hv) in E. discriminate.
Qed.

Lemma lookup_obj_set_other (k k' : jsstring) (v : value)
  (fields : list (jsstring * value)) :
  k <> k' -> lookup k' (obj_set k v fields) = lookup k' fields.
Proof.
  intros Hk. induction fields as [|[k0 v0] fields IH]; simpl.
  - destruct (str_eqb k' k) eqn:E; [|reflexivity].
    apply str_eqb_eq in E. congruence.
  - destruct (str_eqb k k0) eqn:E; simpl.
    + apply str_eqb_eq in E. subst k0.
      destruct (str_eqb k' k) eqn:E'; [|reflexivity].
      apply str_eqb_eq in E'. congruence.
    + destruct (str_eqb k' k0); [reflexivity | exact IH].
Qed.

Lemma lookup_obj_set_same (k : jsstring) (v : value)
  (fields : list (jsstring * value)) :
  lookup k (obj_set k v fields) = v.
Proof.
  induction fields as [|[k0 v0] fields IH]; simpl.
  - now rewrite str_eqb_refl.
  - destruct (str_eqb k k0) eqn:E; simpl.
    + now rewrite str_eqb_refl.
    + now rewrite E.
Qed.

Lemma check_sections_lookup (f1 f2 : list (jsstring * value))
  (names : list jsstring) :
  (forall k, In k names -> lookup k f1 = lookup k f2) ->
  check_sections (JObject f1) names = check_sections (JObject f2) names.
Proof.
  induction names as [|section names IH]; intros H; [reflexivity|].
  cbn [check_sections]. unfold check_section. cbn [get bind].
  rewrite (H section) by now left.
  rewrite IH by (intros k Hk; apply H; now right). reflexivity.
Qed.

Lemma validate_lookup (f1 f2 : list (jsstring * value)) :
  (forall k, In k (lit "overallScore" :: sections) ->
             lookup k f1 = lookup k f2) ->
  validateFeedbackStructure (JObject f1) = validateFeedbackStructure (JObject f2).
Proof.
  intros H. unfold validateFeedbackStructure.
  cbn [truthy type_eq typeof jstype_eqb negb orb get bind].
  rewrite (H (lit "overallScore")) by now left.
  rewrite (check_sections_lookup f1 f2 sections)
    by (intros k Hk; apply H; now right).
  reflexivity.
Qed.

Lemma indexOf_first (c : code_unit) (pre t : jsstring) :
  ~ In c pre -> indexOf c (pre ++ c :: t) = Z.of_nat (length pre).
Proof.
  induction pre as [|x pre IH]; intros Hn; cbn [app indexOf length].
  - now rewrite N.eqb_refl.
  - destruct (N.eqb_spec x c) as [->|_]; [exfalso; apply Hn; now left|].
    rewrite IH by (intros H; apply Hn; now right).
    destruct (Z.ltb_spec (Z.of_nat (length pre)) 0); lia.
Qed.

Lemma lastIndexOf_none (c : code_unit) (s : jsstring) :
  ~ In c s -> lastIndexOf c s = (-1)%Z.
Proof.
  induction s as [|x s IH]; intros Hn; cbn [lastIndexOf]; [reflexivity|].
  rewrite IH by (intros H; apply Hn; now right). cbn.
  destruct (N.eqb_spec x c) as [->|_]; [exfalso; apply Hn; now left|].
  reflexivity.
Qed.

Lemma lastIndexOf_last (c : code_unit) (a post : jsstring) :
  ~ In c post -> lastIndexOf c (a ++ c :: post) = Z.of_nat (length a).
Proof.
  intros Hn. induction a as [|x a IH]; cbn [app lastIndexOf length].
  - rewrite lastIndexOf_none by exact Hn. cbn. now rewrite N.eqb_refl.
  - rewrite IH. destruct (Z.leb_spec 0 (Z.of_nat (length a))); lia.
Qed.

(** Clipping keeps what lies between the first opening and the last
    closing brace. *)
Lemma clip_around (pre mid post : jsstring) :
  ~ In c_lbrace pre -> ~ In c_rbrace post ->
  clip (pre ++ (c_lbrace :: mid ++ [c_rbrace]) ++ post)
  = c_lbrace :: mid ++ [c_rbrace].
Proof.
  intros Hl Hr. unfold clip. cbn [app]. cbv zeta.
  rewrite indexOf_first by exact Hl.
  assert (Hcut :
    (if (Z.of_nat (length pre) >? 0)%Z
     then substring_from (Z.of_nat (length pre))
            (pre ++ c_lbrace :: (mid ++ [c_rbrace]) ++ post)
     else pre ++ c_lbrace :: (mid ++ [c_rbrace]) ++ post)
    = (c_lbrace :: mid) ++ c_rbrace :: post).
  { destruct pre as [|x pre].
    - cbn. now rewrite <- app_assoc.
    - replace (Z.of_nat (length (x :: pre)) >? 0)%Z with true
        by (symmetry; apply Z.gtb_lt; cbn [length]; lia).
      unfold substring_from. rewrite Nat2Z.id.
      rewrite skipn_app, Nat.sub_diag, skipn_all. cbn [app skipn].
      now rewrite <- app_assoc. }
  rewrite Hcut. rewrite lastIndexOf_last by exact Hr.
  destruct post as [|y post]; rewrite length_app; cbn [length].
  - replace (Z.of_nat (S (length mid))
             <? Z.of_nat (S (length mid) + 1) - 1)%Z with false
      by (symmetry; apply Z.ltb_ge; lia).
    rewrite andb_false_r. cbn [app]. reflexivity.
  - replace (Z.of_nat (S (length mid)) >=? 0)%Z with true
      by (symmetry; apply Z.geb_le; lia).
    replace (Z.of_nat (S (length mid))
             <? Z.of_nat (S (length mid) + S (S (length post))) - 1)%Z with true
      by (symmetry; apply Z.ltb_lt; lia).
    cbn [andb]. unfold substring_to.
    replace (Z.to_nat (Z.of_nat (S (length mid)) + 1))
      with (length ((c_lbrace :: mid) ++ [c_rbrace]))
      by (rewrite length_app; cbn [length]; lia).
    change ((c_lbrace :: mid) ++ c_rbrace :: y :: post)
      with ((c_lbrace :: mid) ++ [c_rbrace] ++ y :: post).
    rewrite app_assoc, firstn_app, Nat.sub_diag, firstn_all. cbn [firstn].
    now rewrite app_nil_r.
Qed.

Lemma around_trim (mid t : jsstring) :
  around (c_lbrace :: mid ++ [c_rbrace]) t ->
  around (c_lbrace :: mid ++ [c_rbrace]) (trim t).
Proof.
  intros H. unfold trim.
  change (c_lbrace :: mid ++ [c_rbrace]) with ((c_lbrace :: mid) ++ [c_rbrace]).
  apply around_trimEnd. now apply around_trimStart.
Qed.

Lemma repairJSON_steps (s : jsstring) :
  repairJSON s = replacements (clip (trim s)).
Proof. reflexivity. Qed.

Lemma replace_all_head (r : regex) (tmpl : list piece) (c : code_unit)
  (s : jsstring) :
  match_at r 0 (c :: s) = None ->
  exists t, replace_all r tmpl (c :: s) = c :: t.
Proof.
  intros H. unfold replace_all. cbn [replace_from]. rewrite H. eauto.
Qed.

Lemma replacements_head (s : jsstring) :
  exists t, replacements (c_lbrace :: s) = c_lbrace :: t.
Proof.
  unfold replacements.
  destruct (replace_all_head re_unterminated by_unterminated c_lbrace s
              eq_refl) as [t1 ->].
  destruct (replace_all_head re_missing_comma by_missing_comma c_lbrace t1
              eq_refl) as [t2 ->].
  destruct (replace_all_head re_adjacent by_adjacent c_lbrace t2
              eq_refl) as [t3 ->].
  destruct (replace_all_head re_trailing_comma by_trailing_comma c_lbrace t3
              eq_refl) as [t4 ->].
  apply (replace_all_head re_newline by_newline c_lbrace t4 eq_refl).
Qed.

(** Splits the six parts of a statement on the stage tags and settles
    those that the facts at hand decide. *)
Ltac stage H :=
  split; [|split; [|split; [|split; [|split]]]]; (split; intros H);
  try discriminate; try tauto; try (exfalso; now apply H).

End ParserMore.
Import ParserMore.

(** X1. White space around the response of the AI never changes what
    [parseAIFeedback] returns. *)
Theorem parse_ignores_outer_space (w1 w2 rawText : jsstring) :
  blank w1 -> blank w2 ->
  parseAIFeedback (w1 ++ rawText ++ w2) = parseAIFeedback rawText.
Proof.
  intros H1 H2. unfold parseAIFeedback.
  now rewrite (trim_blank_around w1 w2 rawText H1 H2).
Qed.

Lemma parse_ignores_outer_space_witness :
  blank (lit "  ") /\ blank [c_newline; 160%N] /\
  parseAIFeedback (lit "  " ++ sample_text ++ [c_newline; 160%N])
  = parseAIFeedback sample_text.
Proof.
  assert (H1 : blank (lit "  ")) by (repeat constructor).
  assert (H2 : blank [c_newline; 160%N]) by (repeat constructor).
  split; [exact H1|]. split; [exact H2|].
  exact (parse_ignores_outer_space _ _ sample_text H1 H2).
Defined.

(** X2. The method tag of [parseAIFeedback] tells which stage won, and
    the stages are tried in order: [direct] exactly when the stripped
    text deserializes to a valid record; [regex_extraction] exactly when
    it does not but the brace span does; [repair] exactly when neither
    does but the repaired span does; [fallback] exactly when no stage
    recovers a record. [success] is false, and [error] is set, exactly
    with [fallback]. *)
Theorem parse_method_tells_stage (rawText : jsstring) :
  (method (parseAIFeedback rawText) = lit "direct" <->
   recovers (strip_fence (trim rawText))) /\
  (method (parseAIFeedback rawText) = lit "regex_extraction" <->
   ~ recovers (strip_fence (trim rawText)) /\
   exists m, match0 re_object (strip_fence (trim rawText)) = Some m /\
             recovers m) /\
  (method (parseAIFeedback rawText) = lit "repair" <->
   ~ recovers (strip_fence (trim rawText)) /\
   exists m, match0 re_object (strip_fence (trim rawText)) = Some m /\
             ~ recovers m /\ recovers (repairJSON m)) /\
  (method (parseAIFeedback rawText) = lit "fallback" <->
   no_stage_recovers rawText) /\
  (success (parseAIFeedback rawText) = false <->
   method (parseAIFeedback rawText) = lit "fallback") /\
  (error (parseAIFeedback rawText) <> None <->
   method (parseAIFeedback rawText) = lit "fallback").
Proof.
  unfold no_stage_recovers, parseAIFeedback. cbv zeta.
  destruct (recovers_dec (strip_fence (trim rawText)) (lit "direct"))
    as [[R1 [v [_ ->]]]|[N1 ->]].
  { cbn [method success error]. stage H. }
  destruct (match0 re_object (strip_fence (trim rawText))) as [m|] eqn:M.
  2:{ cbn [method success error fallback_result]. stage H.
      - destruct H as [_ [m [H _]]]. discriminate.
      - destruct H as [_ [m [H _]]]. discriminate.
      - split; [exact N1|]. intros m Hm. discriminate. }
  destruct (recovers_dec m (lit "regex_extraction"))
    as [[R2 [v [_ ->]]]|[N2 ->]].
  { cbn [method success error]. stage H.
    - split; [exact N1|]. now exists m.
    - destruct H as [? [m' [E X]]]. inversion E; subst. tauto.
    - destruct H as [_ H]. destruct (H m eq_refl). tauto. }
  destruct (recovers_dec (repairJSON m) (lit "repair"))
    as [[R3 [v [_ ->]]]|[N3 ->]].
  { cbn [method success error]. stage H.
    - destruct H as [? [m' [E X]]]. inversion E; subst. tauto.
    - split; [exact N1|]. now exists m.
    - destruct H as [_ H]. destruct (H m eq_refl). tauto. }
  cbn [method success error fallback_result]. stage H.
  - destruct H as [? [m' [E X]]]. inversion E; subst. tauto.
  - destruct H as [? [m' [E X]]]. inversion E; subst. tauto.
  - split; [exact N1|]. intros m' E. inversion E; subst. tauto.
Qed.

(** X3. [validateFeedbackStructure] reads six properties of the record
    and no other: defining any other property, whatever its value,
    never changes the verdict. *)
Theorem validate_ignores_other_properties
  (fields : list (jsstring * value)) (k : jsstring) (v : value) :
  ~ In k (lit "overallScore" :: sections) ->
  validateFeedbackStructure (JObject (obj_set k v fields))
  = validateFeedbackStructure (JObject fields).
Proof.
  intros Hk. apply validate_lookup. intros k' Hk'.
  apply lookup_obj_set_other. intros ->. contradiction.
Qed.

Lemma validate_ignores_other_properties_witness :
  validateFeedbackStructure
    (JObject (obj_set (lit "debug") JNull
                [(lit "overallScore", JNumber (num 1))]))
  = validateFeedbackStructure (JObject [(lit "overallScore", JNumber (num 1))]).
Proof.
  apply (validate_ignores_other_properties
           [(lit "overallScore", JNumber (num 1))] (lit "debug") JNull).
  intros H. vm_compute in H.
  repeat (destruct H as [H|H]; [discriminate|]). exact H.
Defined.

(** X4. [repairJSON] discards what stands before the first opening brace
    and after the last closing one: on an object text with such text
    around it, it gives what it gives on the object text alone, and the
    result starts with the opening brace. *)
Theorem repair_discards_outside (pre mid post : jsstring) :
  ~ In c_lbrace pre -> ~ In c_rbrace post ->
  repairJSON (pre ++ (c_lbrace :: mid ++ [c_rbrace]) ++ post)
  = repairJSON (c_lbrace :: mid ++ [c_rbrace]) /\
  exists t,
    repairJSON (pre ++ (c_lbrace :: mid ++ [c_rbrace]) ++ post)
    = c_lbrace :: t.
Proof.
  intros Hl Hr.
  assert (Hclip : forall t, around (c_lbrace :: mid ++ [c_rbrace]) t ->
                            clip (trim t) = c_lbrace :: mid ++ [c_rbrace]).
  { intros t Ht. apply around_trim in Ht as [pre' [post' [-> [Hl' Hr']]]].
    now apply clip_around. }
  assert (E : repairJSON (pre ++ (c_lbrace :: mid ++ [c_rbrace]) ++ post)
              = replacements (c_lbrace :: mid ++ [c_rbrace])).
  { rewrite repairJSON_steps, Hclip; [reflexivity|].
    exists pre, post. auto. }
  split.
  - rewrite E, repairJSON_steps, Hclip; [reflexivity|].
    exists [], []. rewrite app_nil_r. auto.
  - rewrite E. apply replacements_head.
Qed.

Lemma repair_discards_outside_witness :
  repairJSON (lit "Sure: " ++ (c_lbrace :: lit " x " ++ [c_rbrace]) ++ lit " ok")
  = repairJSON (c_lbrace :: lit " x " ++ [c_rbrace]) /\
  exists t,
    repairJSON (lit "Sure: " ++ (c_lbrace :: lit " x " ++ [c_rbrace]) ++ lit " ok")
    = c_lbrace :: t.
Proof.
  apply (repair_discards_outside (lit "Sure: ") (lit " x ") (lit " ok")).
  - intros H. vm_compute in H.
    repeat (destruct H as [H|H]; [discriminate|]). exact H.
  - intros H. vm_compute in H.
    repeat (destruct H as [H|H]; [discriminate|]). exact H.
Defined.

(* ================================================================== *)
(** * More about the review page *)
(* ================================================================== *)

Module ReviewFacts.

Lemma push_value_defined (stack : list frame) (v : value) (st : pstate) :
  push_value stack v = Some st -> v <> JUndefined -> done_defined st.
Proof.
  unfold push_value, done_defined.
  destruct stack as [|[items|fields [k|]] up]; intros H Hv;
    inversion H; subst; cbn; auto.
Qed.

Lemma pstep_defined (st st' : pstate) (t : token) :
  pstep st t = Some st' -> done_defined st'.
Proof.
  destruct st as [stack mode].
  assert (V : value_token stack t = Some st' -> done_defined st').
  { destruct t; cbn; try discriminate;
      try (intros H; eapply push_value_defined; [exact H | discriminate]);
      intros H; inversion H; subst; exact I. }
  assert (K : key_token stack t = Some st' -> done_defined st').
  { unfold key_token. destruct t; try discriminate.
    destruct stack as [|[items|fields [k|]] up]; try discriminate.
    intros H; inversion H; subst; exact I. }
  assert (A : close_array stack = Some st' -> done_defined st').
  { unfold close_array. destruct stack as [|[items|fields k] up];
      try discriminate.
    intros H; eapply push_value_defined; [exact H | discriminate]. }
  assert (O : close_object stack = Some st' -> done_defined st').
  { unfold close_object. destruct stack as [|[items|fields [k|]] up];
      try discriminate.
    intros H; eapply push_value_defined; [exact H | discriminate]. }
  destruct mode; cbn [pstep]; auto; destruct t; auto; try discriminate.
  - intros H; inversion H; subst; exact I.
  - destruct stack as [|[items|fields k] up]; try discriminate;
      intros H; inversion H; subst; exact I.
Qed.

Lemma prun_defined (toks : list token) :
  forall st st', done_defined st -> prun st toks = Some st' -> done_defined st'.
Proof.
  induction toks as [|t toks IH]; intros st st' Hst H; cbn [prun] in H.
  - now inversion H; subst.
  - destruct (pstep st t) as [st1|] eqn:E; [|discriminate].
    apply (IH st1 st'); [|exact H]. eapply pstep_defined; eauto.
Qed.

(** [JSON.parse] never answers [undefined]. *)
Lemma JSON_parse_defined (s : jsstring) : JSON_parse s <> Normal JUndefined.
Proof.
  unfold JSON_parse, parse_tokens.
  destruct (lex s) as [toks|]; [|discriminate].
  destruct (prun ([], PValue) toks) as [[stack mode]|] eqn:P; [|discriminate].
  destruct mode; try discriminate. intros H. inversion H; subst.
  apply (prun_defined toks ([], PValue)) in P; [|exact I].
  now apply P.
Qed.

End ReviewFacts.
Import ReviewFacts.

Section ReviewPage.

Import Controller Review.

Variable Blob : Type.
Variable kv_get : jsstring -> option jsstring.
Variable fs_read : value -> option Blob.
Variable pdf_object_url : Blob -> jsstring.
Variable object_url : Blob -> jsstring.
Variable builtin_message : exn -> jsstring.

Local Abbreviation reload :=
  (Review.reload Blob kv_get fs_read pdf_object_url object_url
     builtin_message).
Local Abbreviation run :=
  (Review.run Blob kv_get fs_read pdf_object_url object_url builtin_message).
Local Abbreviation record_of := (Review.record_of kv_get).

Ltac run_it := cbn -[get truthy JSON_parse lit app path_of].
Ltac start K :=
  intros s; unfold Review.reload, loadResume, try_, bindM, kvGet;
  cbv beta; rewrite K; run_it.
Ltac step H := rewrite H; run_it.

Lemma get_not_null (data p : value) (k : jsstring) :
  get data k = Normal p -> data <> JNull.
Proof. intros G ->. discriminate. Qed.

(** Every run of [loadResume] is one of the seven of [run]. *)
Lemma reload_runs (id : jsstring) :
  exists f calls,
    run id f calls /\ forall s, reload s id = mkWorld (f s) calls.
Proof.
  destruct (kv_get (record_key id)) as [[|c r]|] eqn:K.
  - eexists. eexists. split.
    + apply run_not_found. now rewrite K.
    + unfold record_key in K. start K. reflexivity.
  - assert (Hr : c :: r <> []) by discriminate.
    destruct (JSON_parse (c :: r)) as [data|e] eqn:P.
    2:{ eexists. eexists. split.
        - eapply run_invalid; eauto.
        - unfold record_key in K. start K. step P. reflexivity. }
    assert (R : record_of id data) by (exists (c :: r); auto).
    destruct (get data (lit "resumePath")) as [rp|e1] eqn:G1.
    2:{ assert (data = JNull) as ->.
        { destruct data; try discriminate; [|reflexivity].
          now destruct (JSON_parse_defined (c :: r)). }
        eexists. eexists. split.
        - apply run_null. exact R.
        - unfold record_key in K. start K. step P. reflexivity. }
    pose proof (get_not_null _ _ _ G1) as Hn.
    destruct (truthy rp) eqn:T1.
    2:{ eexists. eexists. split.
        - eapply run_missing; eauto. left. eapply path_of_falsy; eauto.
        - unfold record_key in K. start K. step P. step G1. step T1.
          reflexivity. }
    destruct (get_also data _ (lit "imagePath") _ G1) as [ip G2].
    destruct (truthy ip) eqn:T2.
    2:{ eexists. eexists. split.
        - eapply run_missing; eauto. right. eapply path_of_falsy; eauto.
        - unfold record_key in K. start K. step P. step G1. step T1.
          step G2. step T2. reflexivity. }
    assert (Q : paths_of data rp ip)
      by (split; now apply path_of_some).
    destruct (fs_read rp) as [b1|] eqn:F1.
    2:{ eexists. eexists. split.
        - eapply run_no_document; eauto.
        - unfold record_key in K. start K. step P. step G1. step T1.
          step G2. step T2. step F1. reflexivity. }
    destruct (fs_read ip) as [b2|] eqn:F2.
    2:{ eexists. eexists. split.
        - eapply run_no_image; eauto.
        - unfold record_key in K. start K. step P. step G1. step T1.
          step G2. step T2. step F1. step F2. reflexivity. }
    destruct (get_also data _ (lit "feedback") _ G1) as [fb G3].
    eexists. eexists. split.
    + eapply run_loaded; eauto.
    + unfold record_key in K. start K. step P. step G1. step T1.
      step G2. step T2. step F1. step F2. step G3.
      unfold path_of. rewrite G3. destruct (truthy fb); reflexivity.
  - eexists. eexists. split.
    + apply run_not_found. now rewrite K.
    + unfold record_key in K. start K. reflexivity.
Qed.


Local Abbreviation load :=
  (Controller.load Blob kv_get fs_read pdf_object_url object_url
     builtin_message).
Local Abbreviation effect :=
  (Review.effect Blob kv_get fs_read pdf_object_url object_url
     builtin_message).

Lemma paths_not_null (data rp ip : value) :
  paths_of data rp ip -> data <> JNull.
Proof. intros [H _] ->. discriminate. Qed.

Lemma absent_some (o : option jsstring) (r : jsstring) :
  absent o = true -> o = Some r -> r = [].
Proof. intros A ->. now destruct r. Qed.

(** Opens the facts about the stores that two accounts of one run hold,
    and looks for a clash between them. *)
Ltac facts :=
  repeat match goal with
  | H : Review.record_of _ _ _ |- _ => destruct H as [? [? [? ?]]]
  | H : exists _, _ |- _ => destruct H
  | H : _ /\ _ |- _ => destruct H
  | H : paths_of _ _ _ |- _ =>
      pose proof (paths_not_null _ _ _ H); destruct H
  | H : absent ?o = true, K : ?o = Some ?r |- _ =>
      pose proof (absent_some _ _ H K); clear H
  end.
Ltac clash := exfalso; facts; try congruence;
  match goal with H : _ \/ _ |- _ => destruct H; congruence end.
Ltac same :=
  facts;
  repeat match goal with
  | H1 : ?a = ?v1, H2 : ?a = ?v2 |- _ =>
      rewrite H1 in H2; inversion H2; subst; clear H2
  end.
Ltac found :=
  repeat match goal with
  | |- exists _, _ => eexists
  | |- _ /\ _ => split
  end; eauto; try congruence.

(** X5. The message that [loadResume] leaves tells what went wrong, and
    the absence of a message that nothing did. *)
Theorem load_message_tells_cause (s : Session) (id : jsstring) :
  (error (session (reload s id)) = Some (lit "Resume not found") <->
   absent (kv_get (record_key id)) = true) /\
  (error (session (reload s id)) = Some (lit "Invalid resume data") <->
   exists r e, kv_get (record_key id) = Some r /\ r <> [] /\
               JSON_parse r = Throw e) /\
  (error (session (reload s id))
   = Some (lit "Failed to load resume: " ++ builtin_message TypeError) <->
   record_of id JNull) /\
  (error (session (reload s id)) = Some (lit "Resume files missing") <->
   exists data, record_of id data /\ data <> JNull /\
     (path_of data "resumePath" = None \/ path_of data "imagePath" = None)) /\
  (error (session (reload s id)) = Some (lit "Failed to load resume file") <->
   exists data rp ip, record_of id data /\ paths_of data rp ip /\
     fs_read rp = None) /\
  (error (session (reload s id)) = Some (lit "Failed to load resume image") <->
   exists data rp ip, record_of id data /\ paths_of data rp ip /\
     fs_read rp <> None /\ fs_read ip = None) /\
  (error (session (reload s id)) = None <->
   exists data rp ip, record_of id data /\ paths_of data rp ip /\
     fs_read rp <> None /\ fs_read ip <> None).
Proof.
  destruct (reload_runs id) as [f [calls [R E]]]. rewrite E.
  destruct R; cbn [session error];
    (split; [|split; [|split; [|split; [|split; [|split]]]]]);
    (split; intros Hyp); try discriminate; try reflexivity;
    try (found; fail); try clash.
Qed.


(** X6. [loadResume] asks the key-value store once and then reads the
    document and the image, in this order, stopping at the first read
    that fails; without a record that names both files it reads no
    blob. *)
Theorem load_store_calls (s : Session) (id : jsstring) :
  (forall data rp ip,
     record_of id data -> paths_of data rp ip ->
     trace (reload s id)
     = KvGet (record_key id) :: FsRead rp ::
       match fs_read rp with Some _ => [FsRead ip] | None => [] end) /\
  (~ (exists data rp ip, record_of id data /\ paths_of data rp ip) ->
   trace (reload s id) = [KvGet (record_key id)]).
Proof.
  destruct (reload_runs id) as [f [calls [R E]]]. rewrite E.
  destruct R; cbn [trace]; split;
    try (intros _; reflexivity);
    try (intros data' rp' ip' R' Q'; clash);
    try (intros Hyp; exfalso; apply Hyp; found; fail).
  all: intros data' rp' ip' R' Q'; same;
    match goal with F : fs_read _ = _ |- _ => now rewrite F end.
Qed.

(** X7. A load that finds the record and both blobs leaves the page
    ready: the two object URLs, no error, and the feedback of the record;
    when the record has no feedback, the feedback that the state held
    before the load stays. *)
Theorem load_ready_state (s : Session) (id : jsstring)
  (data rp ip : value) (b1 b2 : Blob) :
  record_of id data -> paths_of data rp ip ->
  fs_read rp = Some b1 -> fs_read ip = Some b2 ->
  session (reload s id)
  = mkSession (object_url b2) (pdf_object_url b1)
      (match path_of data "feedback" with
       | Some fb => Some fb
       | None => feedback s
       end) false None.
Proof.
  intros R' Q' F1 F2.
  destruct (reload_runs id) as [f [calls [R E]]]. rewrite E.
  destruct R; cbn [session]; try clash.
  same. reflexivity.
Qed.

(** X8. What a load leaves does not depend on the state it starts from,
    except for what it does not set: the error, the calls and the end of
    the loading are those of a first load, while the feedback is never
    cleared, and a failed load leaves the image of the previous one. *)
Theorem reload_keeps_previous (s : Session) (id : jsstring) :
  error (session (reload s id)) = error (session (load id)) /\
  trace (reload s id) = trace (load id) /\
  loading (session (reload s id)) = false /\
  feedback (session (reload s id))
  = match feedback (session (load id)) with
    | Some fb => Some fb
    | None => feedback s
    end /\
  (error (session (reload s id)) <> None ->
   imageUrl (session (reload s id)) = imageUrl s).
Proof.
  change (load id) with (reload initial id).
  destruct (reload_runs id) as [f [calls [R E]]]. rewrite !E.
  destruct R; cbn [session trace error loading feedback imageUrl initial];
    (split; [reflexivity|split; [reflexivity|split; [reflexivity|split]]]);
    try reflexivity; try (intros Hyp; now contradiction Hyp).
  now destruct (path_of data "feedback").
Qed.

(** X9. Rendering throws, a [TypeError], exactly when no error is shown
    and the feedback in the state has no [ATS] section to read; feedback
    that [validateFeedbackStructure] accepts is rendered, with the score
    and the tips of its [ATS] section. *)
Theorem render_throws_iff (s : Session) :
  (forall e,
     Review.render s = Throw e <->
     e = TypeError /\
     (error s = None \/ error s = Some []) /\
     exists fb, feedback s = Some fb /\ truthy fb = true /\
       (get fb (lit "ATS") = Normal JUndefined \/
        get fb (lit "ATS") = Normal JNull)) /\
  (forall fb,
     (error s = None \/ error s = Some []) ->
     feedback s = Some fb ->
     validateFeedbackStructure fb = Normal true ->
     exists pv tips,
       Review.render s
       = Normal (mkView pv
                   (FeedbackPanel fb
                      (or_else (field "score" (field "ATS" fb))
                         (JNumber (num 0)))
                      (JArray tips))) /\
       field "tips" (field "ATS" fb) = JArray tips).
Proof.
  split.
  - intros e. unfold Review.render. cbv zeta.
    destruct (error s) as [[|c m]|] eqn:Er.
    2:{ cbn [bind]. split; [discriminate|].
        intros [_ [[H|H] _]]; discriminate. }
    all: destruct (feedback s) as [fb|] eqn:Fb;
      [|cbn [bind]; split; [discriminate|];
        intros [_ [_ [fb [H _]]]]; discriminate].
    all: destruct (truthy fb) eqn:T;
      [|cbn [bind]; split; [discriminate|];
        intros [_ [_ [fb' [H [T' _]]]]]; inversion H; subst; congruence].
    all: destruct (get fb (lit "ATS")) as [ats|e0] eqn:G;
      [|destruct fb; discriminate].
    all: cbn [bind]; destruct (get ats (lit "score")) as [sc|e1] eqn:G1.
    all: cbn [bind].
    all: try (destruct (get_also ats _ (lit "tips") _ G1) as [tips ->];
              cbn [bind]; split; [discriminate|];
              intros [_ [_ [fb' [H [_ [X|X]]]]]]; inversion H; subst;
              rewrite G in X; inversion X; subst; discriminate).
    all: destruct ats; try discriminate; inversion G1; subst;
      (split; [intros H; inversion H; subst; split; [reflexivity|];
               split; [auto|]; exists fb; auto
              | intros [-> _]; reflexivity]).
  - intros fb He Hf Hv.
    apply validate_spec in Hv as [fields [-> [_ [Hats _]]]].
    destruct Hats as [sf [tips [Ea [_ [Et _]]]]].
    unfold Review.render. cbv zeta. rewrite Hf.
    eexists. exists tips.
    destruct He as [-> | ->]; cbn [truthy get bind field]; rewrite Ea;
      cbn [get bind]; rewrite Et;
      (split; [reflexivity | exact Et]).
Qed.

(** X10. What the page shows once its effect has run from the initial
    state: without a route parameter it keeps waiting for the data and
    asks no store; after a failed load it shows the message of the
    failure and no preview; after a load that found no feedback it says
    that the resume is being processed. *)
Theorem page_after_effect :
  (Review.render (session (effect initial None))
   = Normal (mkView None (WaitingPanel (lit "Loading resume data..."))) /\
   trace (effect initial None) = []) /\
  (forall id m,
     error (session (load id)) = Some m ->
     Review.render (session (load id))
     = Normal (mkView None (ErrorPanel m))) /\
  (forall id,
     error (session (load id)) = None ->
     feedback (session (load id)) = None ->
     exists pv,
       Review.render (session (load id))
       = Normal (mkView pv (WaitingPanel (lit "Processing...")))).
Proof.
  split; [split; reflexivity|]. split.
  - intros id m. change (load id) with (reload initial id).
    destruct (reload_runs id) as [f [calls [R E]]]. rewrite E.
    destruct R; cbn [session error initial imageUrl resumeUrl feedback];
      intros Hyp; inversion Hyp; subst; reflexivity.
  - intros id. change (load id) with (reload initial id).
    destruct (reload_runs id) as [f [calls [R E]]]. rewrite E.
    destruct R; cbn [session error initial imageUrl resumeUrl feedback];
      try discriminate.
    intros _ Hf. unfold Review.render. cbv zeta.
    cbn [error feedback imageUrl resumeUrl loading]. rewrite Hf.
    eexists. reflexivity.
Qed.

End ReviewPage.

(** An instance of X7: the record of [abc] names two files that the blob
    store holds and carries an empty feedback, and the state held the
    feedback of an earlier load, which stays. *)
Lemma load_ready_state_witness :
  Controller.session
    (Review.reload unit sample_kv (fun _ => Some tt)
       (fun _ => lit "blob:pdf") (fun _ => lit "blob:png") (fun _ => [])
       (Controller.mkSession [] [] (Some (JString (lit "old"))) false None)
       (lit "abc"))
  = Controller.mkSession (lit "blob:png") (lit "blob:pdf")
      (Some (JString (lit "old"))) false None.
Proof.
  refine (load_ready_state unit sample_kv (fun _ => Some tt)
            (fun _ => lit "blob:pdf") (fun _ => lit "blob:png") (fun _ => [])
            (Controller.mkSession [] [] (Some (JString (lit "old"))) false None)
            (lit "abc")
            (JObject [(lit "resumePath", JString (lit "/cv.pdf"));
                      (lit "imagePath", JString (lit "/cv.png"));
                      (lit "feedback", JString [])])
            (JString (lit "/cv.pdf")) (JString (lit "/cv.png")) tt tt
            _ _ eq_refl eq_refl).
  - exists stored_record.
    split; [reflexivity|]. split; [discriminate|]. vm_compute. reflexivity.
  - split; reflexivity.
Defined.

(* ================================================================== *)
(** * More about the Document Rasterizer *)
(* ================================================================== *)

Module RasterizerFacts.

Import Rasterizer.

Lemma lower_pdf (ext : jsstring) :
  toLowerCase ext = lit ".pdf" ->
  exists a b c d, ext = [a; b; c; d] /\
    lower a = 46%N /\ lower b = 112%N /\ lower c = 100%N /\ lower d = 102%N.
Proof.
  destruct ext as [|a [|b [|c [|d [|e ext]]]]]; try discriminate.
  intros H. inversion H. exists a, b, c, d. auto.
Qed.

Lemma match_at_pdf (i : nat) (ext : jsstring) :
  toLowerCase ext = lit ".pdf" ->
  match_at re_pdf_suffix i ext = Some (mkState (i + 4) [] []).
Proof.
  intros H. destruct (lower_pdf ext H) as [a [b [c [d [-> [A [B [C D]]]]]]]].
  unfold match_at, re_pdf_suffix, cat, Lit_i, is_char_i.
  change (lit ".pdf") with [46; 112; 100; 102]%N.
  cbn [fold_right rmatch rest pos caps].
  rewrite A, B, C, D. cbn. do 2 f_equal. lia.
Qed.

Lemma match_at_pdf_inv (i : nat) (s : jsstring) (m : mstate) :
  match_at re_pdf_suffix i s = Some m -> toLowerCase s = lit ".pdf".
Proof.
  unfold match_at, re_pdf_suffix, cat, Lit_i, is_char_i.
  change (lit ".pdf") with [46; 112; 100; 102]%N.
  destruct s as [|a [|b [|c [|d [|e s]]]]];
    cbn [fold_right rmatch rest pos caps]; try discriminate.
  all: cbn -[lower N.eqb]; try discriminate.
  all: repeat match goal with
         | |- context [N.eqb (lower ?x) ?y] =>
             let E := fresh "E" in
             destruct (N.eqb_spec (lower x) y) as [E|];
               [rewrite ?E|discriminate]
         end; try discriminate.
  reflexivity.
Qed.

Lemma search_pdf_some (base ext : jsstring) :
  toLowerCase ext = lit ".pdf" ->
  forall i, search re_pdf_suffix i (base ++ ext)
            = Some (base, mkState (i + length base + 4) [] []).
Proof.
  intros H. induction base as [|c base IH]; intros i.
  - cbn [app length]. rewrite Nat.add_0_r.
    apply search_here. now apply match_at_pdf.
  - cbn [app search].
    destruct (match_at re_pdf_suffix i (c :: base ++ ext)) as [m|] eqn:E.
    + apply match_at_pdf_inv in E. apply (f_equal (@length _)) in E.
      apply (f_equal (@length _)) in H. unfold toLowerCase in *.
      rewrite length_map in *. cbn [length] in E. rewrite length_app in E.
      cbn in H, E. lia.
    + rewrite IH. cbn [length]. do 3 f_equal. lia.
Qed.

Lemma search_pdf_none (s : jsstring) :
  (forall base ext, s = base ++ ext -> toLowerCase ext <> lit ".pdf") ->
  forall i, search re_pdf_suffix i s = None.
Proof.
  induction s as [|c s IH]; intros H i; cbn [search].
  - destruct (match_at re_pdf_suffix i []) as [m|] eqn:E; [|reflexivity].
    apply match_at_pdf_inv in E. discriminate.
  - destruct (match_at re_pdf_suffix i (c :: s)) as [m|] eqn:E.
    + apply match_at_pdf_inv in E. now destruct (H [] (c :: s) eq_refl).
    + rewrite IH; [reflexivity|].
      intros base ext ->. apply (H (c :: base) ext). reflexivity.
Qed.

Lemma endsWith_app (p a : jsstring) : endsWith p (a ++ p) = true.
Proof. unfold endsWith. rewrite rev_app_distr. apply startsWith_app. Qed.

(** The name without its [.pdf] ending, whatever the case of the
    letters. *)
Lemma replace_pdf_suffix (base ext : jsstring) :
  toLowerCase ext = lit ".pdf" ->
  replace re_pdf_suffix [] (base ++ ext) = base.
Proof.
  intros H. unfold replace. rewrite (search_pdf_some base ext H 0).
  cbn [expand flat_map rest app]. apply app_nil_r.
Qed.

Lemma replace_no_pdf_suffix (s : jsstring) :
  endsWith (lit ".pdf") (toLowerCase s) = false ->
  replace re_pdf_suffix [] s = s.
Proof.
  intros H. unfold replace. rewrite search_pdf_none; [reflexivity|].
  intros base ext -> E. unfold toLowerCase in *.
  rewrite map_app, E, endsWith_app in H. discriminate.
Qed.

End RasterizerFacts.
Import RasterizerFacts.

Section RasterizerMore.

Import Rasterizer.

Variables Lib Bytes Pdf Page Viewport Context Blob : Type.
Variable in_browser : bool.
Variable import_lib : completion Lib.
Variable arrayBuffer : File -> completion Bytes.
Variable getDocument : Lib -> Bytes -> completion Pdf.
Variable getPage : Pdf -> nat -> completion Page.
Variable getViewport : Page -> nat -> completion Viewport.
Variable getContext : option Context.
Variable render : Page -> Context -> Viewport -> completion unit.
Variable toBlob : option Blob.
Variable object_url : Blob -> jsstring.
Variable builtin_message : exn -> jsstring.

Local Abbreviation convert :=
  (convertPdfToImage Lib Bytes Pdf Page Viewport Context Blob in_browser
     import_lib arrayBuffer getDocument getPage getViewport getContext render
     toBlob object_url builtin_message).
Local Abbreviation load_library := (loadPdfJs Lib import_lib builtin_message).

Lemma convert_unfold (f : File) (pdfjsLib : option Lib) :
  accepted f = true -> in_browser = true ->
  convert (Some f) pdfjsLib
  = (match render_first_page Lib Bytes Pdf Page Viewport Context Blob
             arrayBuffer getDocument getPage getViewport getContext render
             toBlob object_url (fst (load_library pdfjsLib)) f with
     | Normal p => p
     | Throw err =>
         Resolved (failure Blob (lit "Failed to convert PDF: "
                                 ++ describe builtin_message err))
     end,
     snd (load_library pdfjsLib)).
Proof.
  intros Ha Hb. unfold convertPdfToImage, accepted in *.
  rewrite <- negb_orb, Ha, Hb. cbn [negb].
  now destruct (load_library pdfjsLib).
Qed.

(** X11. When every step succeeds, the conversion resolves to the object
    URL of the image, without an error, and to a PNG file that bears the
    name of the PDF with its [.pdf] ending, in whatever case, replaced by
    [.png]; a name without that ending gets [.png] appended. *)
Theorem convert_success (f : File) (pdfjsLib : option Lib) (lib : Lib)
  (bytes : Bytes) (pdf : Pdf) (page : Page) (viewport : Viewport)
  (context : Context) (blob : Blob) :
  accepted f = true -> in_browser = true ->
  fst (load_library pdfjsLib) = Normal lib ->
  arrayBuffer f = Normal bytes ->
  getDocument lib bytes = Normal pdf ->
  getPage pdf 1 = Normal page ->
  getViewport page 4 = Normal viewport ->
  getContext = Some context ->
  render page context viewport = Normal tt ->
  toBlob = Some blob ->
  exists stem,
    fst (convert (Some f) pdfjsLib)
    = Resolved (mkConversion Blob (object_url blob)
                  (Some (mkImage Blob (stem ++ lit ".png") (lit "image/png")
                           blob))
                  None) /\
    (forall base ext,
       name f = base ++ ext -> toLowerCase ext = lit ".pdf" -> stem = base) /\
    (endsWith (lit ".pdf") (toLowerCase (name f)) = false -> stem = name f).
Proof.
  intros Ha Hb Hl Hbuf Hdoc Hpage Hview Hctx Hrender Hblob.
  exists (replace re_pdf_suffix [] (name f)). split; [|split].
  - rewrite (convert_unfold f pdfjsLib Ha Hb). cbn [fst].
    unfold render_first_page, encode.
    rewrite Hl; cbn [bind]. rewrite Hbuf; cbn [bind].
    rewrite Hdoc; cbn [bind]. rewrite Hpage; cbn [bind].
    rewrite Hview; cbn [bind]. rewrite Hctx; cbn [bind].
    rewrite Hrender; cbn [bind]. rewrite Hblob. reflexivity.
  - intros base ext -> He. now apply replace_pdf_suffix.
  - apply replace_no_pdf_suffix.
Qed.

(** X12. The PDF library is loaded once: a library that is loaded stays,
    and the import is no longer consulted; a conversion that gets past
    the checks without one imports it, and keeps it whatever becomes of
    the later steps; a failed import leaves none, so that the next
    conversion imports again; a conversion that stops at a check leaves
    things as they are. *)
Theorem library_loaded_once :
  (forall input lib, snd (convert input (Some lib)) = Some lib) /\
  (forall input lib other,
     convertPdfToImage Lib Bytes Pdf Page Viewport Context Blob in_browser
       other arrayBuffer getDocument getPage getViewport getContext render
       toBlob object_url builtin_message input (Some lib)
     = convert input (Some lib)) /\
  (forall f lib,
     accepted f = true -> in_browser = true -> import_lib = Normal lib ->
     snd (convert (Some f) None) = Some lib) /\
  (forall f err,
     import_lib = Throw err -> snd (convert (Some f) None) = None) /\
  (forall input pdfjsLib,
     input = None \/ (exists f, input = Some f /\ accepted f = false) \/
     in_browser = false ->
     snd (convert input pdfjsLib) = pdfjsLib).
Proof.
  split; [|split; [|split; [|split]]].
  - intros [f|] lib; [|reflexivity]. unfold convertPdfToImage.
    destruct (negb (includes (lit "pdf") (type f)) && _); [reflexivity|].
    destruct (negb in_browser); reflexivity.
  - intros [f|] lib other; reflexivity.
  - intros f lib Ha Hb Hi. rewrite (convert_unfold f None Ha Hb).
    unfold loadPdfJs. now rewrite Hi.
  - intros f err Hi. unfold convertPdfToImage.
    destruct (negb (includes (lit "pdf") (type f)) && _); [reflexivity|].
    destruct (negb in_browser); [reflexivity|].
    unfold loadPdfJs. now rewrite Hi.
  - intros input pdfjsLib [->|[[f [-> Ha]]|Hb]]; [reflexivity| |].
    + unfold convertPdfToImage, accepted in *.
      now rewrite <- negb_orb, Ha.
    + destruct input as [f|]; [|reflexivity]. unfold convertPdfToImage.
      destruct (negb (includes (lit "pdf") (type f)) && _); [reflexivity|].
      now rewrite Hb.
Qed.

End RasterizerMore.

(** An instance of X11: [Resume.PDF] becomes [Resume.png]. *)
Lemma convert_success_witness :
  exists stem,
    fst (Rasterizer.convertPdfToImage unit unit unit unit unit unit unit
           true (Normal tt)
           (fun _ => Normal tt) (fun _ _ => Normal tt) (fun _ _ => Normal tt)
           (fun _ _ => Normal tt) (Some tt) (fun _ _ _ => Normal tt)
           (Some tt) (fun _ => lit "blob:1") (fun _ => [])
           (Some (Rasterizer.mkFile [] (lit "Resume.PDF"))) None)
    = Rasterizer.Resolved
        (Rasterizer.mkConversion unit (lit "blob:1")
           (Some (Rasterizer.mkImage unit (stem ++ lit ".png")
                    (lit "image/png") tt))
           None) /\
    stem = lit "Resume".
Proof.
  destruct (convert_success unit unit unit unit unit unit unit
              true (Normal tt)
              (fun _ => Normal tt) (fun _ _ => Normal tt)
              (fun _ _ => Normal tt) (fun _ _ => Normal tt) (Some tt)
              (fun _ _ _ => Normal tt) (Some tt) (fun _ => lit "blob:1")
              (fun _ => [])
              (Rasterizer.mkFile [] (lit "Resume.PDF")) None tt tt tt tt tt
              tt tt eq_refl eq_refl eq_refl eq_refl eq_refl eq_refl eq_refl
              eq_refl eq_refl eq_refl) as [stem [E [S _]]].
  exists stem. split; [exact E|].
  apply (S (lit "Resume") (lit ".PDF")); reflexivity.
Defined.

(* ================================================================== *)
(** * The store of the Puter client *)
(* ================================================================== *)

Section PuterStore.

Import Rasterizer Puter.

Variable builtin_message : exn -> jsstring.
Variable isSignedIn : completion value.
Variable getUser : completion value.
Variable available : nat -> bool.

Local Abbreviation safeApiCall := (Puter.safeApiCall builtin_message).
Local Abbreviation checkAuthStatus :=
  (Puter.checkAuthStatus builtin_message isSignedIn getUser).
Local Abbreviation poll :=
  (Puter.poll builtin_message isSignedIn getUser available).
Local Abbreviation init :=
  (Puter.init builtin_message isSignedIn getUser available).
Local Abbreviation api_message := (Puter.api_message builtin_message).


Ltac parts :=
  split; [reflexivity|split; [reflexivity|split; [reflexivity|
    split; [|split; [|split]]]]].

(** X14. [checkAuthStatus] always resolves to a boolean and ends the
    loading. It answers [true] exactly when the library is there, says
    that the user is signed in and hands out the user, who is then
    stored as authenticated. When it stores no error, the flag
    [isAuthenticated] is its answer; when it stores one, it answers
    [false] and leaves the user and the flag as they were. *)
Theorem check_auth_status (puter : bool) (s : Store) :
  exists b,
    fst (checkAuthStatus puter s) = Resolved b /\
    isLoading (snd (checkAuthStatus puter s)) = false /\
    puterReady (snd (checkAuthStatus puter s)) = puterReady s /\
    (b = true <->
     puter = true /\
     exists signed u,
       isSignedIn = Normal signed /\ truthy signed = true /\
       getUser = Normal u) /\
    (b = true -> getUser = Normal (user (snd (checkAuthStatus puter s)))) /\
    (error (snd (checkAuthStatus puter s)) = None ->
     isAuthenticated (snd (checkAuthStatus puter s)) = b) /\
    (error (snd (checkAuthStatus puter s)) <> None ->
     b = false /\
     user (snd (checkAuthStatus puter s)) = user s /\
     isAuthenticated (snd (checkAuthStatus puter s)) = isAuthenticated s).
Proof.
  unfold Puter.checkAuthStatus, Puter.safeApiCall, check.
  destruct puter; cbn [negb].
  2:{ exists false. cbn. parts.
      - split; [discriminate|]. intros [H _]. discriminate.
      - discriminate.
      - discriminate.
      - auto. }
  destruct isSignedIn as [signed|err].
  2:{ exists false. cbn. parts.
      - split; [discriminate|]. intros [_ [x [u [H _]]]]. discriminate.
      - discriminate.
      - discriminate.
      - auto. }
  destruct (truthy signed) eqn:Ts.
  2:{ exists false. cbn. parts.
      - split; [discriminate|].
        intros [_ [x [u [H [Tx _]]]]]. inversion H; subst. congruence.
      - discriminate.
      - reflexivity.
      - intros H. now contradiction H. }
  destruct getUser as [u|err].
  2:{ exists false. cbn. parts.
      - split; [discriminate|]. intros [_ [x [u [_ [_ H]]]]]. discriminate.
      - discriminate.
      - discriminate.
      - auto. }
  exists true. cbn. parts.
  - split; [|reflexivity]. intros _. split; [reflexivity|].
    exists signed, u. auto.
  - reflexivity.
  - reflexivity.
  - intros H. now contradiction H.
Qed.

Lemma poll_unavailable (s : Store) :
  forall ticks checks,
    (forall j, checks < j <= checks + ticks -> available j = false) ->
    checks + ticks <= 50 ->
    poll ticks checks s = s.
Proof.
  induction ticks as [|ticks IH]; intros checks Hav Hle; [reflexivity|].
  cbn [Puter.poll]. rewrite Hav by lia.
  replace (Nat.ltb 50 (S checks)) with false
    by (symmetry; apply Nat.ltb_ge; lia).
  apply IH; [|lia]. intros j Hj. apply Hav. lia.
Qed.

Lemma poll_gives_up (s : Store) :
  forall ticks checks,
    (forall j, checks < j <= 51 -> available j = false) ->
    checks <= 50 -> 51 <= checks + ticks ->
    poll ticks checks s = setError (lit "Puter.js failed to load") s.
Proof.
  induction ticks as [|ticks IH]; intros checks Hav Hle Hge; [lia|].
  cbn [Puter.poll]. rewrite Hav by lia.
  destruct (Nat.ltb_spec 50 (S checks)) as [H|H]; [reflexivity|].
  apply IH; [|lia|lia]. intros j Hj. apply Hav. lia.
Qed.

Lemma poll_finds (s : Store) (k : nat) :
  forall ticks checks,
    checks < k -> k <= 51 -> k <= checks + ticks ->
    available k = true ->
    (forall j, checks < j < k -> available j = false) ->
    poll ticks checks s = snd (checkAuthStatus true (set_ready s)).
Proof.
  induction ticks as [|ticks IH]; intros checks Hk Hle Hge Hav Hno; [lia|].
  cbn [Puter.poll].
  destruct (Nat.eq_dec (S checks) k) as [->|Hne].
  - now rewrite Hav.
  - rewrite Hno by lia.
    replace (Nat.ltb 50 (S checks)) with false
      by (symmetry; apply Nat.ltb_ge; lia).
    apply IH; try lia; [exact Hav|]. intros j Hj. apply Hno. lia.
Qed.


End PuterStore.

(* ================================================================== *)
(** * Clearing stored data *)
(* ================================================================== *)

Module AdminFacts.

Import Admin.

Lemma remove_each_spec (ks : list jsstring) :
  forall storage,
    remove_each ks storage
    = filter (fun entry => negb (existsb (str_eqb (fst entry)) ks)) storage.
Proof.
  unfold remove_each.
  induction ks as [|k ks IH]; intros storage; cbn [fold_left existsb].
  - induction storage as [|e storage IHs]; [reflexivity|].
    simpl. f_equal. exact IHs.
  - rewrite IH. unfold removeItem.
    induction storage as [|e storage IHs]; [reflexivity|].
    cbn [filter]. destruct (str_eqb (fst e) k); cbn [negb orb filter].
    + exact IHs.
    + now rewrite IHs.
Qed.

Lemma existsb_keys (p : jsstring -> bool) (storage : Storage)
  (entry : jsstring * jsstring) :
  In entry storage ->
  existsb (str_eqb (fst entry)) (filter p (keys storage)) = p (fst entry).
Proof.
  intros Hin. destruct (p (fst entry)) eqn:E.
  - apply existsb_exists. exists (fst entry). split.
    + apply filter_In. split; [|exact E]. unfold keys. now apply in_map.
    + apply str_eqb_refl.
  - destruct (existsb _ _) eqn:X; [|reflexivity].
    apply existsb_exists in X as [k [Hk Heq]].
    apply str_eqb_eq in Heq. subst k.
    apply filter_In in Hk as [_ Hp]. congruence.
Qed.

(** Removing the listed keys that [p] selects leaves the entries whose
    key [p] does not select, in their order. *)
Lemma remove_selected (p : jsstring -> bool) (storage : Storage) :
  remove_each (filter p (keys storage)) storage
  = filter (fun entry => negb (p (fst entry))) storage.
Proof.
  rewrite remove_each_spec. apply filter_ext_in.
  intros entry Hin. now rewrite existsb_keys.
Qed.

(** The loop without a guard handles the named databases up to the
    first one without a name, and this one ends it. *)
Lemma delete_until_unnamed (named : list jsstring)
  (rest : list (option jsstring)) :
  match rest with [] | None :: _ => True | Some _ :: _ => False end ->
  delete_unguarded (map Some named ++ rest)
  = filter has_puter_or_resume named.
Proof.
  intros Hrest. induction named as [|name named IH];
    cbn [map app delete_unguarded filter].
  - destruct rest as [|[name|] more]; [reflexivity|contradiction|reflexivity].
  - rewrite IH. now destruct (has_puter_or_resume name).
Qed.

End AdminFacts.
Import AdminFacts.

Section AdminClaims.

Import Admin.

Variable confirm : bool.
Variable kv_get : jsstring -> option jsstring.
Variable indexedDB : option (list (option jsstring)).

Local Abbreviation clearAllResumeData :=
  (Admin.clearAllResumeData confirm kv_get).
Local Abbreviation clearBrowserStorageOnly :=
  (Admin.clearBrowserStorageOnly confirm indexedDB).
Local Abbreviation clearBrowserData := (Admin.clearBrowserData indexedDB).
Local Abbreviation clear_id := (Admin.clear_id kv_get).

Lemma clear_ids_spec (ids : list jsstring) :
  forall count made,
    fold_left clear_id ids (count, made)
    = (count + length (filter (fun id => stored_in_cloud kv_get id) ids),
       made ++ flat_map (cloud_calls kv_get) ids).
Proof.
  induction ids as [|id ids IH]; intros count made; cbn [fold_left].
  - cbn. now rewrite Nat.add_0_r, app_nil_r.
  - unfold Admin.clear_id at 2. cbn [filter flat_map].
    unfold cloud_calls at 1.
    change (stored_in_cloud kv_get id)
      with (match kv_get (lit "resume:" ++ id) with
            | Some (_ :: _) => true
            | Some [] | None => false
            end).
    destruct (kv_get (lit "resume:" ++ id)) as [[|c r]|];
      rewrite IH; cbn [length app]; rewrite <- app_assoc;
      f_equal; try lia; reflexivity.
Qed.

(** X16. Once confirmed, [clearAllResumeData] removes from both storages
    the entries whose key contains [resume] and keeps every other entry,
    in its order; it ends with [isClearing] off and reports the number
    of removed entries plus the number of the three known cloud records
    that it found. Declined, it changes nothing. *)
Theorem clear_all_storage (p : Page) :
  (confirm = false -> clearAllResumeData p = p) /\
  (confirm = true ->
   localStorage (clearAllResumeData p)
   = filter (fun entry => negb (has_resume (fst entry))) (localStorage p) /\
   sessionStorage (clearAllResumeData p)
   = filter (fun entry => negb (has_resume (fst entry))) (sessionStorage p) /\
   isClearing (clearAllResumeData p) = false /\
   clearResult (clearAllResumeData p)
   = Some (check_mark ++ lit " Cleared "
           ++ decimal
                (length (filter (fun entry => has_resume (fst entry))
                           (localStorage p))
                 + length (filter (fun entry => has_resume (fst entry))
                             (sessionStorage p))
                 + length (filter (stored_in_cloud kv_get) commonIds))
           ++ lit " items from storage")).
Proof.
  unfold Admin.clearAllResumeData. split; intros ->; cbn [negb];
    [reflexivity|]. cbv zeta.
  rewrite clear_ids_spec.
  cbn [localStorage sessionStorage isClearing clearResult].
  rewrite !remove_selected.
  split; [reflexivity|]. split; [reflexivity|]. split; [reflexivity|].
  unfold keys.
  assert (L : forall st : Storage,
            length (filter has_resume (map fst st))
            = length (filter (fun entry => has_resume (fst entry)) st)).
  { induction st as [|e st IH]; [reflexivity|]. cbn [map filter].
    destruct (has_resume (fst e)); cbn [length]; now rewrite IH. }
  now rewrite !L.
Qed.

(** X17. On the cloud, [clearAllResumeData] asks for the records of
    [test], [demo] and [sample], in this order, and sets to [null] those
    it finds: the record of any other resume is neither read nor
    cleared. *)
Theorem clear_all_cloud (p : Page) :
  confirm = true ->
  calls (clearAllResumeData p)
  = calls p ++ flat_map (cloud_calls kv_get) commonIds /\
  (forall key,
     In (SetNull key) (calls (clearAllResumeData p)) ->
     In (SetNull key) (calls p) \/
     In key [lit "resume:test"; lit "resume:demo"; lit "resume:sample"]) /\
  (forall id,
     In (SetNull (lit "resume:" ++ id))
        (flat_map (cloud_calls kv_get) commonIds) <->
     In id commonIds /\ stored_in_cloud kv_get id = true).
Proof.
  intros ->. unfold Admin.clearAllResumeData. cbn [negb]. cbv zeta.
  rewrite clear_ids_spec. cbn [calls].
  split; [reflexivity|]. split.
  - intros key H. apply in_app_or in H as [H|H]; [now left|]. right.
    apply in_flat_map in H as [id [Hid H]].
    unfold cloud_calls in H.
    cbn [commonIds In] in Hid.
    destruct Hid as [<-|[<-|[<-|[]]]];
      destruct (stored_in_cloud kv_get _);
      cbn [In] in H; destruct H as [H|H]; try discriminate;
      try (destruct H as [H|H]; try discriminate; try contradiction;
           inversion H; cbn; auto);
      try contradiction.
  - intros id. split.
    + intros H. apply in_flat_map in H as [id' [Hid H]].
      unfold cloud_calls in H.
      destruct (stored_in_cloud kv_get id') eqn:S;
        cbn [In] in H; destruct H as [H|H]; try discriminate;
        try contradiction.
      destruct H as [H|H]; [|contradiction].
      inversion H as [E]. subst id'. auto.
    + intros [Hid S]. apply in_flat_map. exists id. split; [exact Hid|].
      unfold cloud_calls. rewrite S. cbn. auto.
Qed.

(** X18. Once confirmed, [clearBrowserStorageOnly] removes from both
    storages the entries whose key contains [resume] or [puter], asks
    for the deletion of the named databases whose name contains one of
    the two, and makes no call on the cloud. The script
    [clearBrowserData] removes the [resume] entries only, and its loop
    over the databases ends at the first database without a name: it
    asks for the deletion of the databases before that one whose name
    contains [puter] or [resume], and of none after it, whatever their
    names. The deletions it asks for are among those of the component,
    and the same when every database has a name. *)
Theorem clear_browser_storage (p : Page) :
  (confirm = true ->
   localStorage (clearBrowserStorageOnly p)
   = filter (fun entry => negb (has_resume_or_puter (fst entry)))
       (localStorage p) /\
   sessionStorage (clearBrowserStorageOnly p)
   = filter (fun entry => negb (has_resume_or_puter (fst entry)))
       (sessionStorage p) /\
   calls (clearBrowserStorageOnly p) = calls p /\
   forall name,
     In name (deleted (clearBrowserStorageOnly p)) <->
     In name (deleted p) \/
     exists databases,
       indexedDB = Some databases /\ In (Some name) databases /\
       name <> [] /\ has_puter_or_resume name = true) /\
  (localStorage (clearBrowserData p)
   = filter (fun entry => negb (has_resume (fst entry))) (localStorage p) /\
   sessionStorage (clearBrowserData p)
   = filter (fun entry => negb (has_resume (fst entry))) (sessionStorage p) /\
   calls (clearBrowserData p) = calls p) /\
  (forall databases,
     indexedDB = Some databases ->
     (forall name,
        In name (delete_unguarded databases) ->
        In name (flat_map delete_guarded databases)) /\
     (~ In None databases ->
      delete_unguarded databases = flat_map delete_guarded databases)) /\
  (forall named more,
     indexedDB = Some (map Some named ++ None :: more) ->
     deleted (clearBrowserData p)
     = deleted p ++ filter has_puter_or_resume named) /\
  (forall named,
     indexedDB = Some (map Some named) ->
     deleted (clearBrowserData p)
     = deleted p ++ filter has_puter_or_resume named) /\
  (indexedDB = None -> deleted (clearBrowserData p) = deleted p).
Proof.
  split; [|split; [|split; [|split; [|split]]]].
  - intros ->. unfold Admin.clearBrowserStorageOnly. cbn [negb]. cbv zeta.
    cbn [localStorage sessionStorage calls deleted].
    rewrite !remove_selected.
    split; [reflexivity|]. split; [reflexivity|]. split; [reflexivity|].
    intros name. rewrite in_app_iff. apply or_iff_compat_l.
    destruct indexedDB as [databases|].
    + rewrite in_flat_map. split.
      * intros [db [Hin H]]. exists databases. split; [reflexivity|].
        destruct db as [[|c n]|]; cbn [delete_guarded] in H;
          try contradiction.
        destruct (has_puter_or_resume (c :: n)) eqn:E; [|contradiction].
        destruct H as [<-|[]]. split; [exact Hin|].
        split; [discriminate | exact E].
      * intros [dbs [E [Hin [Hne Hp]]]]. inversion E; subst dbs.
        exists (Some name). split; [exact Hin|].
        destruct name as [|c n]; [congruence|].
        cbn [delete_guarded]. rewrite Hp. now left.
    + split; [contradiction|]. intros [dbs [E _]]. discriminate.
  - unfold Admin.clearBrowserData. cbv zeta.
    cbn [localStorage sessionStorage calls].
    rewrite !remove_selected. auto.
  - intros databases _. split.
    + induction databases as [|[name|] more IH]; cbn [delete_unguarded];
        [contradiction| |contradiction].
      intros name' H. cbn [flat_map]. apply in_or_app.
      apply in_app_or in H as [H|H]; [left|right; now apply IH].
      destruct (has_puter_or_resume name) eqn:E; [|contradiction].
      destruct H as [<-|[]].
      destruct name as [|c n]; [discriminate E|].
      cbn [delete_guarded]. rewrite E. now left.
    + induction databases as [|[name|] more IH]; intros Hno;
        [reflexivity| |exfalso; apply Hno; now left].
      cbn [delete_unguarded flat_map].
      rewrite IH by (intros H; apply Hno; now right). f_equal.
      destruct name as [|c n]; [reflexivity|]. reflexivity.
  - intros named more E. unfold Admin.clearBrowserData. cbv zeta.
    cbn [deleted]. rewrite E. f_equal. now apply delete_until_unnamed.
  - intros named E. unfold Admin.clearBrowserData. cbv zeta.
    cbn [deleted]. rewrite E. f_equal.
    rewrite <- (app_nil_r (map Some named)). now apply delete_until_unnamed.
  - intros E. unfold Admin.clearBrowserData. cbv zeta.
    cbn [deleted]. rewrite E. apply app_nil_r.
Qed.

End AdminClaims.

(** An instance of X17: the cloud holds a record for [demo] only. *)
Lemma clear_all_cloud_witness :
  Admin.calls
    (Admin.clearAllResumeData true
       (fun key => if str_eqb key (lit "resume:demo")
                   then Some (lit "{}") else None)
       (Admin.mkPage false None [] [] [] []))
  = [Admin.Get (lit "resume:test"); Admin.Get (lit "resume:demo");
     Admin.SetNull (lit "resume:demo"); Admin.Get (lit "resume:sample")].
Proof.
  exact (proj1 (clear_all_cloud true
                  (fun key => if str_eqb key (lit "resume:demo")
                              then Some (lit "{}") else None)
                  (Admin.mkPage false None [] [] [] []) eq_refl)).
Defined.
